(** * ViDove subtitle core: a shallow embedding of [src/srt_util/srt.py]

    Modelling conventions.
    - A Python [str] is a list of Unicode code points ([pystr := list Z]).
    - A Python [float] is an IEEE 754 double ([float]): a finite double is
      its exact value as a rational [Q] in lowest terms, and every
      arithmetic step rounds to the nearest double, ties to even.
    - A Python exception is an [Err] of the [result] monad.
    - [SrtSegment] objects live in a heap (a [gmap]) only where aliasing
      matters ([__add__] versus [merge_seg]); elsewhere they are values. *)

From Stdlib Require Import ZArith QArith Qround Qpower Qabs Ascii String Lqa.
From stdpp Require Import base list gmap.

Open Scope Z_scope.

(* ------------------------------------------------------------------ *)
(** ** Python values *)

Inductive exn :=
  | IndexError
  | ValueError
  | ZeroDivisionError
  | UnboundLocalError
  | NotImplementedError
  | AssertionError
  | OverflowError.

Inductive result (A : Type) : Type :=
  | Ok (a : A)
  | Err (e : exn).
Arguments Ok {A} a.
Arguments Err {A} e.

Global Instance result_ret : MRet result := λ A a, Ok a.
Global Instance result_bind : MBind result :=
  λ A B f m, match m with Ok a => f a | Err e => Err e end.

Definition pystr := list Z.

(** ASCII literal to code points. *)
Definition str (s : string) : pystr :=
  map (λ a, Z.of_N (N_of_ascii a)) (list_ascii_of_string s).

Definition Zeqb_list (a b : pystr) : bool := bool_decide (a = b).

(** [s[i]] with Python indexing (negative indices count from the end). *)
Definition py_index {A} (l : list A) (i : Z) : result A :=
  let j := if i <? 0 then i + Z.of_nat (length l) else i in
  if (j <? 0) then Err IndexError
  else match l !! Z.to_nat j with Some x => Ok x | None => Err IndexError end.

(** [prefix sep s]: does [s] start with [sep]? *)
Fixpoint starts_with (sep s : pystr) : bool :=
  match sep, s with
  | [], _ => true
  | c :: sep', d :: s' => (c =? d) && starts_with sep' s'
  | _ :: _, [] => false
  end.

(** [s.split(sep)] for a non-empty separator: scan left to right; [skip]
    counts the characters of a separator still to be dropped, [cur] is the
    piece being built. *)
Fixpoint split_go (sep : pystr) (skip : nat) (cur : pystr) (s : pystr)
  : list pystr :=
  match s with
  | [] => [cur]
  | c :: s' =>
      match skip with
      | S k => split_go sep k cur s'
      | O => if starts_with sep s
             then cur :: split_go sep (pred (length sep)) [] s'
             else split_go sep O (cur ++ [c]) s'
      end
  end.

Definition py_split (s sep : pystr) : list pystr := split_go sep O [] s.

(** [sub in s] *)
Fixpoint py_contains (sub s : pystr) : bool :=
  match s with
  | [] => starts_with sub []
  | _ :: s' => starts_with sub s || py_contains sub s'
  end.

(** [re.finditer(pat, s)] start positions, for a literal non-empty
    pattern (the comma strings and ' ' contain no regex metacharacter):
    non-overlapping matches, left to right. *)
Fixpoint finditer_go (pat : pystr) (skip : nat) (pos : nat) (s : pystr)
  : list nat :=
  match s with
  | [] => []
  | _ :: s' =>
      match skip with
      | S k => finditer_go pat k (S pos) s'
      | O => if starts_with pat s
             then pos :: finditer_go pat (pred (length pat)) (S pos) s'
             else finditer_go pat O (S pos) s'
      end
  end.

Definition finditer (pat s : pystr) : list nat := finditer_go pat O O s.

(** [str.isspace] on one code point (the Unicode whitespace of CPython's
    [Py_UNICODE_ISSPACE]). *)
Definition py_isspace (c : Z) : bool :=
  (9 <=? c) && (c <=? 13) || (28 <=? c) && (c <=? 32) ||
  (c =? 133) || (c =? 160) || (c =? 5760) || (8192 <=? c) && (c <=? 8202) ||
  (c =? 8232) || (c =? 8233) || (c =? 8239) || (c =? 8287) || (c =? 12288).

(** [s.lstrip()] *)
Fixpoint lstrip (s : pystr) : pystr :=
  match s with
  | c :: s' => if py_isspace c then lstrip s' else s
  | [] => []
  end.

(** [s.strip()] *)
Definition strip (s : pystr) : pystr := rev (lstrip (rev (lstrip s))).

(* ------------------------------------------------------------------ *)
(** ** punctuation_dict *)

Inductive lang := EN | ES | FR | DE | RU | ZH | JA | AR | KR.

(** ["comma"] entries. *)
Definition comma (l : lang) : pystr :=
  match l with
  | ZH => [65292]            (* "，" *)
  | JA => [12289]            (* "、" *)
  | AR => [1548; 32]         (* "، " *)
  | _ => str ", "
  end.

(** ["sentence_end"] entries, each a one-character string. *)
Definition sentence_end (l : lang) : list Z :=
  match l with
  | EN | FR | DE | RU | KR => str ".!?;"
  | ES => str ".!?;" ++ [161; 191]        (* "¡" "¿" *)
  | ZH | JA => [12290; 65281; 65311]      (* "。" "！" "？" *)
  | AR => str ".!?;" ++ [1567]            (* "؟" *)
  end.

(* ------------------------------------------------------------------ *)
(** ** Number formatting and parsing *)

Definition digit (d : Z) : Z := 48 + d.
Definition is_digit (c : Z) : bool := (48 <=? c) && (c <=? 57).

(** ["%0kd" % n] for [0 <= n < 10^k]: exactly [k] digits. *)
Fixpoint pad (k : nat) (n : Z) : pystr :=
  match k with
  | O => []
  | S k' => pad k' (n / 10) ++ [digit (n mod 10)]
  end.

(** ["%d" % n] for [n >= 0]: decimal digits without leading zeros. *)
Fixpoint zdigits_go (fuel : nat) (n : Z) : pystr :=
  match fuel with
  | O => []
  | S f => if n <? 10 then [digit n]
           else zdigits_go f (n / 10) ++ [digit (n mod 10)]
  end.

Definition zdigits (n : Z) : pystr := zdigits_go (S (Z.to_nat n)) n.

Definition fmt_d (n : Z) : pystr :=
  if n <? 0 then str "-" ++ zdigits (- n) else zdigits n.

(** Value of a string of ASCII digits. *)
Definition digits_value (s : pystr) : Z :=
  fold_left (λ acc c, acc * 10 + (c - 48)) s 0.

(** The first code points of the 66 blocks of Unicode decimal digits
    (category Nd, Unicode 14.0 as in CPython 3.11): block [b] holds the
    digits 0 to 9 at [b] to [b + 9]. *)
Definition decimal_blocks : list Z :=
  [48; 1632; 1776; 1984; 2406; 2534; 2662; 2790; 2918; 3046; 3174; 3302; 3430;
   3558; 3664; 3792; 3872; 4160; 4240; 6112; 6160; 6470; 6608; 6784; 6800; 6992;
   7088; 7232; 7248; 42528; 43216; 43264; 43472; 43504; 43600; 44016; 65296;
   66720; 68912; 69734; 69872; 69942; 70096; 70384; 70736; 70864; 71248; 71360;
   71472; 71904; 72016; 72784; 73040; 73120; 92768; 92864; 93008; 120782;
   120792; 120802; 120812; 120822; 123200; 123632; 125264; 130032].

(** [Py_UNICODE_TODECIMAL] *)
Definition decimal_value (c : Z) : option Z :=
  match List.find (λ b, (b <=? c) && (c <? b + 10)) decimal_blocks with
  | Some b => Some (c - b)
  | None => None
  end.

(** [_PyUnicode_TransformDecimalAndSpaceToASCII] on one code point: ASCII
    is kept, Unicode whitespace becomes a space, a decimal digit its ASCII
    digit; [None] for anything else. *)
Definition int_char (c : Z) : option Z :=
  if c <? 127 then Some c
  else if py_isspace c then Some 32
  else option_map (λ d, 48 + d) (decimal_value c).

(** [Py_ISSPACE]: ASCII whitespace. *)
Definition ascii_space (c : Z) : bool := (c =? 32) || (9 <=? c) && (c <=? 13).

Fixpoint skip_ascii_space (s : pystr) : pystr :=
  match s with
  | c :: s' => if ascii_space c then skip_ascii_space s' else s
  | [] => []
  end.

(** The digits after a first digit: each one may follow a single ['_'].
    Returns the digits and the rest of the string. *)
Fixpoint more_digits (s : pystr) : pystr * pystr :=
  match s with
  | c :: s' =>
      if is_digit c then let '(ds, r) := more_digits s' in (c :: ds, r)
      else if c =? 95 then
        match s' with
        | d :: s'' => if is_digit d then let '(ds, r) := more_digits s'' in (d :: ds, r)
                      else ([], s)
        | [] => ([], s)
        end
      else ([], s)
  | [] => ([], [])
  end.

(** [int(s)] on a [str] in base 10 ([PyLong_FromUnicodeObject]): after the
    transformation above, ASCII whitespace, an optional sign, a digit, more
    digits each possibly after a single ['_'], ASCII whitespace; at most
    4300 digits (the default of [sys.set_int_max_str_digits]); anything
    else raises [ValueError]. *)
Definition py_int (s : pystr) : result Z :=
  match mapM int_char s with
  | None => Err ValueError
  | Some a =>
      let t := skip_ascii_space a in
      let '(sign, u) :=
        match t with
        | c :: r => if c =? 45 then (-1, r) else if c =? 43 then (1, r) else (1, t)
        | [] => (1, [])
        end in
      match u with
      | d :: u' =>
          if is_digit d then
            let '(ds, rest) := more_digits u' in
            if forallb ascii_space rest && (length (d :: ds) <=? 4300)%nat
            then Ok (sign * digits_value (d :: ds))
            else Err ValueError
          else Err ValueError
      | [] => Err ValueError
      end
  end.

(* ------------------------------------------------------------------ *)
(** ** Floats

    A Python [float] is an IEEE 754 binary64 number: [Fin q] is a finite
    double of value [q] (in lowest terms), [Inf neg] an infinity and [NaN]
    not a number.  Every arithmetic step rounds its exact result to the
    nearest double, ties to even ([round64]); a result beyond the largest
    double becomes an infinity.  The sign of a zero is not kept: the code
    modelled here never observes it. *)

Inductive float :=
  | Fin (q : Q)
  | Inf (neg : bool)
  | NaN.
Coercion Fin : Q >-> float.
Bind Scope Q_scope with float.

(** [floor (log2 |q|)] for [q <> 0]. *)
Definition Qlog2 (q : Q) : Z :=
  let k := Z.log2 (Z.abs (Qnum q)) - Z.log2 (Zpos (Qden q)) in
  if Qle_bool (Qpower 2 k) (Qabs q) then k else k - 1.

(** The weight [2 ^ ulp_exp q] of the last bit of the 53-bit significand of
    a double next to [q]; the least one is [2 ^ -1074] (subnormals). *)
Definition ulp_exp (q : Q) : Z := Z.max (Qlog2 q - 52) (-1074).

(** Nearest integer, ties to even. *)
Definition round_ne (x : Q) : Z :=
  let f := Qfloor x in
  match Qcompare (x - inject_Z f) (1#2) with
  | Lt => f
  | Gt => f + 1
  | Eq => if Z.even f then f else f + 1
  end.

(** The double nearest to [q], ties to even; an infinity when that
    rounding reaches [2 ^ 1024]. *)
Definition round64 (q : Q) : float :=
  let e := ulp_exp q in
  let r := Qred (inject_Z (round_ne (q / Qpower 2 e)) * Qpower 2 e) in
  if Qle_bool (Qpower 2 1024) (Qabs r) then Inf (negb (Qle_bool 0 q)) else Fin r.

(** [q] is a double. *)
Definition is_double (q : Q) : Prop := round64 q = Fin q.

Definition fneg (a : float) : float :=
  match a with Fin x => Fin (- x) | Inf n => Inf (negb n) | NaN => NaN end.

(** [a + b] *)
Definition fadd (a b : float) : float :=
  match a, b with
  | Fin x, Fin y => round64 (x + y)
  | NaN, _ | _, NaN => NaN
  | Inf n, Inf m => if Bool.eqb n m then Inf n else NaN
  | Inf n, Fin _ | Fin _, Inf n => Inf n
  end.

(** [a - b] *)
Definition fsub (a b : float) : float := fadd a (fneg b).

(** [a * b] *)
Definition fmul (a b : float) : float :=
  match a, b with
  | Fin x, Fin y => round64 (x * y)
  | NaN, _ | _, NaN => NaN
  | Inf n, Inf m => Inf (xorb n m)
  | Inf n, Fin y | Fin y, Inf n =>
      if Qeq_bool y 0 then NaN else Inf (xorb n (negb (Qle_bool 0 y)))
  end.

(** [a / w] for a float [a] and a finite non-zero float [w] (the code only
    divides by 100). *)
Definition fdiv (a : float) (w : Q) : float :=
  match a with
  | Fin x => round64 (x / w)
  | Inf n => Inf (xorb n (negb (Qle_bool 0 w)))
  | NaN => NaN
  end.

(** Truncation toward zero of a rational. *)
Definition py_trunc (q : Q) : Z :=
  if Qle_bool 0 q then Qfloor q else - Qfloor (- q).

(** [a % w] for a float [a] and a finite non-zero float [w] (CPython's
    [float_rem]; the code only takes [% 100]): C's [fmod] is exact and has
    the sign of [a]; a non-zero remainder of the other sign than [w] gets
    [w] added, rounded. *)
Definition fmod (a : float) (w : Q) : float :=
  match a with
  | Fin x =>
      let m := Qred (x - w * inject_Z (py_trunc (x / w))) in
      if Qeq_bool m 0 then Fin 0
      else if Bool.eqb (negb (Qle_bool 0 w)) (negb (Qle_bool 0 m)) then Fin m
      else fadd (Fin m) (Fin w)
  | Inf _ | NaN => NaN
  end.

(** [a > b] *)
Definition fgt (a b : float) : bool :=
  match a, b with
  | Fin x, Fin y => negb (Qle_bool x y)
  | NaN, _ | _, NaN => false
  | Inf n, Inf m => negb n && m
  | Inf n, Fin _ => negb n
  | Fin _, Inf m => m
  end.

(** [int(x)] for a float. *)
Definition float_int (x : float) : result Z :=
  match x with
  | Fin q => Ok (py_trunc q)
  | Inf _ => Err OverflowError
  | NaN => Err ValueError
  end.

(** [float(n)] for an [int] (the conversion in [n + x] with a float [x]). *)
Definition int_float (n : Z) : result float :=
  match round64 (inject_Z n) with
  | Fin q => Ok (Fin q)
  | _ => Err OverflowError
  end.

(** [a / b] for two [int]s: correctly rounded. *)
Definition int_truediv (a b : Z) : result float :=
  if b =? 0 then Err ZeroDivisionError
  else match round64 (inject_Z a / inject_Z b) with
       | Fin q => Ok (Fin q)
       | _ => Err OverflowError
       end.

(* ------------------------------------------------------------------ *)
(** ** datetime.timedelta

    A timedelta is its total number of microseconds; [td_str] is
    CPython's [timedelta.__str__]. *)

(** [timedelta(seconds=seconds, milliseconds=ms)] for [int] arguments:
    exact, and [OverflowError] beyond 999999999 days either way. *)
Definition td_of (seconds ms : Z) : result Z :=
  let us := seconds * 1000000 + ms * 1000 in
  if Z.abs (us / 86400000000) <=? 999999999 then Ok us else Err OverflowError.

Definition td_str (us : Z) : pystr :=
  let days := us / 86400000000 in
  let rem := us mod 86400000000 in
  let secs := rem / 1000000 in
  let micro := rem mod 1000000 in
  let mm := secs / 60 in
  let ss := secs mod 60 in
  let hh := mm / 60 in
  let mm := mm mod 60 in
  let s := fmt_d hh ++ str ":" ++ pad 2 mm ++ str ":" ++ pad 2 ss in
  let s := if days =? 0 then s
           else fmt_d days ++ str " day" ++
                (if negb (Z.abs days =? 1) then str "s" else []) ++
                str ", " ++ s in
  if micro =? 0 then s else s ++ str "." ++ pad 6 micro.

(* ------------------------------------------------------------------ *)
(** ** SrtSegment *)

Record SrtSegment := mkSeg {
  src_lang : lang;
  tgt_lang : lang;
  start : float;
  end_ : float;                (* [self.end] *)
  start_ms : float;            (* an [int] in a segment built from a record *)
  end_ms : float;
  start_time_str : pystr;
  end_time_str : pystr;
  source_text : pystr;
  duration : pystr;
  translation : pystr
}.

(** A raw ASR record [{'start': .., 'end': .., 'text': ..}]. *)
Record raw_record := mkRecord {
  r_start : float;
  r_end : float;
  r_text : pystr
}.

(** [int((t * 100) % 100 * 10)] *)
Definition ms_of (t : float) : result Z :=
  float_int (fmul (fmod (fmul t (Fin 100)) 100) (Fin 10)).

(** [str(0) + str(t).split('.')[0] + ',' + str(t).split('.')[1][:3]],
    or [',000'] when the millisecond component is 0. *)
Definition time_str (t_ms : Z) (td : Z) : result pystr :=
  let parts := py_split (td_str td) (str ".") in
  if t_ms =? 0 then
    whole ← py_index parts 0;
    Ok (str "0" ++ whole ++ str ",000")
  else
    whole ← py_index parts 0;
    frac ← py_index parts 1;
    Ok (str "0" ++ whole ++ str "," ++ take 3 frac).

(** [SrtSegment.__init__] when [args[0]] is a dict. *)
Definition seg_of_record (src tgt : lang) (r : raw_record) : result SrtSegment :=
  s_ms ← ms_of (r_start r);
  e_ms0 ← ms_of (r_end r);
  e_ms ← (if s_ms =? e_ms0 then
            s_int ← float_int (r_start r);
            e_int ← float_int (r_end r);
            Ok (if s_int =? e_int then e_ms0 + 500 else e_ms0)
          else Ok e_ms0);
  s_int ← float_int (r_start r);
  s_td ← td_of s_int s_ms;
  e_int ← float_int (r_end r);
  e_td ← td_of e_int e_ms;
  s_str ← time_str s_ms s_td;
  e_str ← time_str e_ms e_td;
  Ok {| src_lang := src; tgt_lang := tgt;
        start := r_start r; end_ := r_end r;
        start_ms := inject_Z s_ms; end_ms := inject_Z e_ms;
        start_time_str := s_str; end_time_str := e_str;
        source_text := lstrip (r_text r);
        duration := s_str ++ str " --> " ++ e_str;
        translation := [] |}.

(** [int(hh)*3600 + int(mm)*60 + int(ss) + ms / 100] from ["hh:mm:ss"]:
    the sum of the [int]s is exact, [ms / 100] a float division, and the
    last [+] converts the [int] sum to a float. *)
Definition parse_hms (hms : pystr) (ms : float) : result float :=
  let l := py_split hms (str ":") in
  h_s ← py_index l 0; h ← py_int h_s;
  m_s ← py_index l 1; m ← py_int m_s;
  s_s ← py_index l 2; s ← py_int s_s;
  x ← int_float (h * 3600 + m * 60 + s);
  Ok (fadd x (fdiv ms 100)).

(** [SrtSegment.__init__] when [args[0]] is a list (a subtitle block). *)
Definition seg_of_block (src tgt : lang) (block : list pystr) : result SrtSegment :=
  source ← py_index block 2;
  dur ← py_index block 1;
  s_str ← py_index (py_split dur (str " --> ")) 0;
  e_str ← py_index (py_split dur (str " --> ")) 1;
  s_ms_s ← py_index (py_split s_str (str ",")) 1; s_ms_i ← py_int s_ms_s;
  s_ms ← int_truediv s_ms_i 10;
  e_ms_s ← py_index (py_split e_str (str ",")) 1; e_ms_i ← py_int e_ms_s;
  e_ms ← int_truediv e_ms_i 10;
  s_hms ← py_index (py_split s_str (str ",")) 0;
  st ← parse_hms s_hms s_ms;
  e_hms ← py_index (py_split e_str (str ",")) 0;
  en ← parse_hms e_hms e_ms;
  trans ← (if (length block <? 5)%nat then Ok [] else py_index block 3);
  Ok {| src_lang := src; tgt_lang := tgt;
        start := st; end_ := en;
        start_ms := s_ms; end_ms := e_ms;
        start_time_str := s_str; end_time_str := e_str;
        source_text := source; duration := dur; translation := trans |}.

(** [self.merge_seg(seg)]: the receiver after the in-place update. *)
Definition merge_seg (self seg : SrtSegment) : SrtSegment :=
  {| src_lang := src_lang self; tgt_lang := tgt_lang self;
     start := start self; end_ := end_ seg;
     start_ms := start_ms self; end_ms := end_ms seg;
     start_time_str := start_time_str self; end_time_str := end_time_str seg;
     source_text := source_text self ++ str " " ++ source_text seg;
     duration := start_time_str self ++ str " --> " ++ end_time_str seg;
     translation := translation self ++ str " " ++ translation seg |}.

(** [self + other] on values: [deepcopy(self)] then [merge_seg]. *)
Definition seg_add (self other : SrtSegment) : SrtSegment :=
  merge_seg self other.

(** *** Segments as heap objects

    Object identity for [merge_seg] (which mutates its receiver) and
    [__add__] (which mutates a fresh deep copy). *)
Module Heap.

Abbreviation loc := nat.
Abbreviation heap := (gmap loc SrtSegment).

(** [h[self].merge_seg(h[seg])]: the fields of [seg] are read before the
    receiver is written. *)
Definition merge_seg (self seg : loc) (h : heap) : option heap :=
  s ← h !! self;
  o ← h !! seg;
  Some (<[self := merge_seg s o]> h).

(** [deepcopy(h[a])]: a new object with the same field values. *)
Definition deepcopy (a : loc) (h : heap) : option (loc * heap) :=
  s ← h !! a;
  let r := fresh (dom h) in
  Some (r, <[r := s]> h).

(** [SrtSegment.__add__]: [result = deepcopy(self); result.merge_seg(other)]. *)
Definition add (self other : loc) (h : heap) : option (loc * heap) :=
  '(r, h1) ← deepcopy self h;
  h2 ← merge_seg r other h1;
  Some (r, h2).

End Heap.

(* ------------------------------------------------------------------ *)
(** ** SrtScript *)

Fixpoint map_res {A B} (f : A -> result B) (l : list A) : result (list B) :=
  match l with
  | [] => Ok []
  | x :: l' => y ← f x; ys ← map_res f l'; Ok (y :: ys)
  end.

(** [SrtScript.merge_segs(idx_list)]; [seg_result += s] rebinds
    [seg_result] to [seg_result + s]. *)
Definition merge_segs (segments : list SrtSegment) (idx_list : list Z)
  : result SrtSegment :=
  match idx_list with
  | [] => Err NotImplementedError
  | i0 :: rest =>
      s0 ← py_index segments i0;
      fold_left (λ acc i, r ← acc; s ← py_index segments i; Ok (seg_add r s))
                rest (Ok s0)
  end.

(** The trigger test of [form_whole_sentence]:
    [seg.source_text[-1] in ending_puncs and len(seg.source_text) > 10
     and 'vs.' not in seg.source_text]. *)
Definition trigger (ending_puncs : list Z) (seg : SrtSegment) : result bool :=
  last ← py_index (source_text seg) (-1);
  Ok (existsb (Z.eqb last) ending_puncs
      && (10 <? length (source_text seg))%nat
      && negb (py_contains (str "vs.") (source_text seg))).

(** The first loop of [form_whole_sentence]: [i] is the [enumerate] index,
    [merge_list] and [sentence] its two accumulators. *)
Fixpoint scan (ending_puncs : list Z) (i : Z) (segs : list SrtSegment)
    (merge_list : list (list Z)) (sentence : list Z)
    : result (list (list Z) * list Z) :=
  match segs with
  | [] => Ok (merge_list, sentence)
  | seg :: rest =>
      match trigger ending_puncs seg with
      | Err e => Err e
      | Ok true => scan ending_puncs (i + 1) rest (merge_list ++ [sentence ++ [i]]) []
      | Ok false => scan ending_puncs (i + 1) rest merge_list (sentence ++ [i])
      end
  end.

(** [SrtScript.form_whole_sentence]: the new value of [self.segments]. *)
Definition form_whole_sentence (src : lang) (segments : list SrtSegment)
  : result (list SrtSegment) :=
  ms ← scan (sentence_end src) 0 segments [] [];
  let '(merge_list, sentence) := ms in
  map_res (merge_segs segments) merge_list.

(* ------------------------------------------------------------------ *)
(** ** SrtScript.set_translation *)

(** [seg.translation = t] *)
Definition with_translation (seg : SrtSegment) (t : pystr) : SrtSegment :=
  {| src_lang := src_lang seg; tgt_lang := tgt_lang seg;
     start := start seg; end_ := end_ seg;
     start_ms := start_ms seg; end_ms := end_ms seg;
     start_time_str := start_time_str seg; end_time_str := end_time_str seg;
     source_text := source_text seg; duration := duration seg;
     translation := t |}.

(** [self.segments[lo:hi]] as the list of positions it covers. *)
Definition py_slice_pos (len : nat) (lo hi : Z) : list nat :=
  let norm i := let j := if i <? 0 then i + Z.of_nat len else i in
                Z.max 0 (Z.min j (Z.of_nat len)) in
  let lo := norm lo in
  let hi := norm hi in
  map Z.to_nat (map (λ k, lo + Z.of_nat k) (seq 0 (Z.to_nat (hi - lo)))).

(** The external translator: [call k target input] is the outcome of the
    [k]-th request ([None]: the call raises). *)
Definition translator := nat -> Z -> pystr -> option pystr.

(** [flag = True; while flag: ... try: translate = inner_func(..) except:
    flag = True]: retried until a call succeeds.  [fuel] bounds how many
    calls this model follows; [None] means the loop was still retrying.
    [k] counts requests issued so far, [fl] the failed ones. *)
Fixpoint retry (fuel : nat) (call : translator) (target : Z) (input : pystr)
    (k fl : nat) : option (pystr * nat * nat) :=
  match fuel with
  | O => None
  | S f =>
      match call k target input with
      | Some resp => Some (strip resp, S k, fl)
      | None => retry f call target input (S k) (S fl)
      end
  end.

Record recon := mkRecon {
  count : nat;              (* [count] *)
  lines : list pystr;       (* [lines] *)
  cur : pystr;              (* [translate] *)
  requests : nat;           (* translator calls issued *)
  failures : nat            (* translator calls that raised *)
}.

(** [while count < 5 and len(lines) != required: ...]; [n] is the number
    of iterations left to the bound ([count + n = 5] along the run). *)
Fixpoint solve_loop (n fuel : nat) (call : translator) (required : Z)
    (st : recon) : option recon :=
  match n with
  | O => Some st
  | S n' =>
      if (count st <? 5)%nat && negb (Z.of_nat (length (lines st)) =? required)
      then
        match retry fuel call required (cur st) (requests st) (failures st) with
        | None => None
        | Some (t, k, fl) =>
            solve_loop n' fuel call required
              (mkRecon (S (count st)) (py_split t [10]) t k fl)   (* '\n' *)
        end
      else Some st
  end.

(** The assignment loop [for i, seg in enumerate(self.segments[...])];
    [pos] are the absolute positions of the slice still to visit.  A line
    containing ["Note:"] runs [lines.remove(..)] and then [max_num -= 1],
    and [max_num] is never bound in [set_translation]. *)
Fixpoint assign (segs : list SrtSegment) (lns : list pystr) (i : nat)
    (pos : list nat) : result (list SrtSegment) :=
  match pos with
  | [] => Ok segs
  | p :: pos' =>
      if (i <? length lns)%nat then
        match py_index lns (Z.of_nat i) with
        | Err e => Err e
        | Ok line =>
            if py_contains (str "Note:") line then Err UnboundLocalError
            else
              match py_index line 0 with
              | Err e => Err e
              | Ok c =>
                  let line := if (c =? 32) || (c =? 10) then drop 1 line else line in
                  let lns := <[i := line]> lns in
                  let segs := match segs !! p with
                              | Some seg => <[p := with_translation seg line]> segs
                              | None => segs
                              end in
                  assign segs lns (S i) pos'
              end
        end
      else assign segs lns (S i) pos'
  end.

Record set_outcome := mkOutcome {
  out_segments : list SrtSegment;    (* [self.segments] afterwards *)
  out_lines : list pystr;            (* [lines] when the assignment starts *)
  audit : option (nat * bool);       (* row of the audit csv: [count], [solved] *)
  out_requests : nat;                (* translator calls issued *)
  out_failures : nat                 (* translator calls that raised *)
}.

(** [SrtScript.set_translation(translate, (start_seg_id, end_seg_id), ..)].
    [None]: the retry loop was still running after [fuel] calls of one
    iteration.  The unused [src_text] and the console prints are omitted;
    the csv row is returned instead of appended to the file. *)
Definition set_translation (call : translator) (fuel : nat)
    (segments : list SrtSegment) (translate : pystr) (start_seg_id end_seg_id : Z)
    : option (result set_outcome) :=
  let required := end_seg_id - start_seg_id + 1 in
  let lines0 := py_split translate [10; 10] in   (* '\n\n' *)
  let run :=
    if Z.of_nat (length lines0) <? required then
      match solve_loop 5 fuel call required (mkRecon 0 lines0 translate 0 0) with
      | None => None
      | Some st =>
          let solved := negb (Z.of_nat (length (lines st)) <? required) in
          Some (lines st, Some (count st, solved), requests st, failures st)
      end
    else Some (lines0, None, 0%nat, 0%nat) in
  match run with
  | None => None
  | Some (lns, row, k, fl) =>
      Some (match assign segments lns 0
                    (py_slice_pos (length segments) (start_seg_id - 1) end_seg_id) with
            | Err e => Err e
            | Ok segs => Ok (mkOutcome segs lns row k fl)
            end)
  end.

(* ------------------------------------------------------------------ *)
(** ** SrtScript.split_seg and check_len_and_split *)

(** [x[len(x) // 2] if len(x) % 2 == 1 else x[len(x) // 2 - 1]] *)
Definition median (l : list nat) : nat :=
  if Nat.odd (length l) then nth (length l / 2) l O
  else nth (length l / 2 - 1) l O.

(** [ch.encode('utf-8').isalpha()]: true exactly for ASCII letters (the
    UTF-8 bytes of any other code point are not ASCII letters). *)
Definition bytes_isalpha (c : Z) : bool :=
  (65 <=? c) && (c <=? 90) || (97 <=? c) && (c <=? 122).

(** Offset of the first non-alphabetic character of [t], if any. *)
Fixpoint first_nonalpha (t : pystr) : option nat :=
  match t with
  | [] => None
  | c :: t' => if negb (bytes_isalpha c) then Some O
               else option_map S (first_nonalpha t')
  end.

(** [src_split_idx] *)
Definition src_split_idx (src : lang) (source : pystr) : nat :=
  let src_commas := finditer (comma src) source in
  if bool_decide (src_commas <> []) then median src_commas
  else let src_space := finditer (str " ") source in
       if bool_decide (src_space <> []) then median src_space else O.

(** [trans_split_idx] *)
Definition trans_split_idx (tgt : lang) (translation : pystr) : nat :=
  let trans_commas := finditer (comma tgt) translation in
  if bool_decide (trans_commas <> []) then median trans_commas
  else let idx := (length translation / 2)%nat in
       match first_nonalpha (drop idx translation) with
       | Some j => (idx + j)%nat
       | None => idx
       end.

(** [seg.translation[0] == tgt_comma_str]: a one-character string against
    the comma string of the target language. *)
Definition strip_trans_comma (tgt : lang) (t : pystr) : result pystr :=
  c ← py_index t 0;
  Ok (if Zeqb_list [c] (comma tgt) then drop 1 t else t).

(** [seg.source_text[:2] == src_comma_str] when [len > 2]. *)
Definition strip_src_comma (src : lang) (s : pystr) : pystr :=
  if (2 <? length s)%nat && Zeqb_list (take 2 s) (comma src) then drop 2 s else s.

(** [time_split_ratio = trans_split_idx / (len(seg.translation) - 1)] *)
Definition split_ratio (idx : nat) (translation : pystr) : result float :=
  int_truediv (Z.of_nat idx) (Z.of_nat (length translation) - 1).

(** The body of [split_seg] up to the recursive calls: the two halves
    [seg1] and [seg2] (in-place edits of [seg] are not observable, since
    [check_len_and_split] drops [seg] from the list). *)
Definition split_halves (src tgt : lang) (seg : SrtSegment)
  : result (SrtSegment * SrtSegment) :=
  let source := strip_src_comma src (source_text seg) in
  translation ← strip_trans_comma tgt (translation seg);
  let s_idx := src_split_idx src source in
  let t_idx := trans_split_idx tgt translation in
  ratio ← split_ratio t_idx translation;
  let mid := fadd (start seg) (fmul (fsub (end_ seg) (start seg)) ratio) in
  seg1 ← seg_of_record src tgt (mkRecord (start seg) mid (take s_idx source));
  seg2 ← seg_of_record src tgt (mkRecord mid (end_ seg) (drop s_idx source));
  Ok (with_translation seg1 (take t_idx translation),
      with_translation seg2 (drop t_idx translation)).

(** [len(s.translation) > text_threshold and (s.end - s.start) > time_threshold],
    the test in front of every call of [split_seg]. *)
Definition needs_split (th : Z) (tt : float) (s : SrtSegment) : bool :=
  (th <? Z.of_nat (length (translation s))) && fgt (fsub (end_ s) (start s)) tt.

Section Split.
Context (src tgt : lang) (th : Z) (tt : float).

(** [guarded_split s r]: evaluating
    [split_seg(s, ..) if needs_split(s) else [s]] terminates with [r].
    Python evaluates the second half only once the first has returned. *)
Inductive guarded_split : SrtSegment -> result (list SrtSegment) -> Prop :=
  | gs_keep s :
      needs_split th tt s = false -> guarded_split s (Ok [s])
  | gs_halves_err s e :
      needs_split th tt s = true -> split_halves src tgt s = Err e ->
      guarded_split s (Err e)
  | gs_first_err s s1 s2 e :
      needs_split th tt s = true -> split_halves src tgt s = Ok (s1, s2) ->
      guarded_split s1 (Err e) -> guarded_split s (Err e)
  | gs_both s s1 s2 l1 r2 :
      needs_split th tt s = true -> split_halves src tgt s = Ok (s1, s2) ->
      guarded_split s1 (Ok l1) -> guarded_split s2 r2 ->
      guarded_split s (match r2 with Ok l2 => Ok (l1 ++ l2) | Err e => Err e end).

(** [SrtScript.check_len_and_split(text_threshold, time_threshold)]. *)
Inductive check_len_and_split : list SrtSegment -> result (list SrtSegment) -> Prop :=
  | cl_nil : check_len_and_split [] (Ok [])
  | cl_err s rest e :
      guarded_split s (Err e) -> check_len_and_split (s :: rest) (Err e)
  | cl_cons s rest l r :
      guarded_split s (Ok l) -> check_len_and_split rest r ->
      check_len_and_split (s :: rest)
        (match r with Ok l' => Ok (l ++ l') | Err e => Err e end).

(** The same computation with a recursion budget ([None]: budget spent). *)
Fixpoint guarded_split_fuel (fuel : nat) (s : SrtSegment)
  : option (result (list SrtSegment)) :=
  if negb (needs_split th tt s) then Some (Ok [s]) else
  match fuel with
  | O => None
  | S f =>
      match split_halves src tgt s with
      | Err e => Some (Err e)
      | Ok (s1, s2) =>
          match guarded_split_fuel f s1 with
          | None => None
          | Some (Err e) => Some (Err e)
          | Some (Ok l1) =>
              match guarded_split_fuel f s2 with
              | None => None
              | Some (Err e) => Some (Err e)
              | Some (Ok l2) => Some (Ok (l1 ++ l2))
              end
          end
      end
  end.

Fixpoint check_len_and_split_fuel (fuel : nat) (segs : list SrtSegment)
  : option (result (list SrtSegment)) :=
  match segs with
  | [] => Some (Ok [])
  | s :: rest =>
      match guarded_split_fuel fuel s with
      | None => None
      | Some (Err e) => Some (Err e)
      | Some (Ok l) =>
          match check_len_and_split_fuel fuel rest with
          | None => None
          | Some (Err e) => Some (Err e)
          | Some (Ok l') => Some (Ok (l ++ l'))
          end
      end
  end.

End Split.

(* ------------------------------------------------------------------ *)
(** ** SrtSegment.remove_trans_punc and SrtScript.remove_trans_punctuation *)

(** ["punc_str"] entries. *)
Definition punc_str (l : lang) : pystr :=
  match l with
  | EN => str ". , ? ! : ; - ( ) [ ] { }"
  | ES => str ". , ? ! : ; - ( ) [ ] { }" ++ [32; 161; 32; 191]   (* " ¡ ¿" *)
  | FR => str ".,?!:;" ++ [171; 187; 8212]                        (* "«»—" *)
  | DE => str ".,?!:;" ++ [8222; 8220; 8211]                      (* "„“–" *)
  | RU => str ".,?!:;-" ++ [171; 187; 8212]                       (* "«»—" *)
  | ZH => [12290; 65292; 65311; 65281; 65306; 65307; 65288; 65289]
  | JA => [12290; 12289; 65311; 65281; 65306; 65307; 65288; 65289]
  | AR => str ".,?!:;-()[]" ++ [1548; 1563; 32; 1567; 32; 171; 187] (* "،؛ ؟ «»" *)
  | KR => str ".,?!:;()[]{}"
  end.

(** [s.replace(old, new)] for a non-empty [old]: the non-overlapping
    occurrences, left to right; [skip] drops the rest of a match. *)
Fixpoint replace_go (old new : pystr) (skip : nat) (s : pystr) : pystr :=
  match s with
  | [] => []
  | c :: s' =>
      match skip with
      | S k => replace_go old new k s'
      | O => if starts_with old s
             then new ++ replace_go old new (pred (length old)) s'
             else c :: replace_go old new O s'
      end
  end.

Definition py_replace (s old new : pystr) : pystr := replace_go old new O s.

(** [for punc in punc_str: self.translation = self.translation.replace(punc, ' ')] *)
Definition remove_trans_punc (seg : SrtSegment) : SrtSegment :=
  with_translation seg
    (fold_left (λ t punc, py_replace t [punc] (str " "))
               (punc_str (tgt_lang seg)) (translation seg)).

(** [for seg in self.segments: seg.remove_trans_punc()] *)
Definition remove_trans_punctuation (segments : list SrtSegment) : list SrtSegment :=
  map remove_trans_punc segments.

(* ------------------------------------------------------------------ *)
(** ** Writing and reading SRT text *)

(** [SrtSegment.__str__]: [f'{self.duration}\n{self.source_text}\n\n'] *)
Definition seg_str (seg : SrtSegment) : pystr :=
  duration seg ++ [10] ++ source_text seg ++ [10; 10].

(** [SrtSegment.get_trans_str] *)
Definition get_trans_str (seg : SrtSegment) : pystr :=
  duration seg ++ [10] ++ translation seg ++ [10; 10].

(** [SrtSegment.get_bilingual_str] *)
Definition get_bilingual_str (seg : SrtSegment) : pystr :=
  duration seg ++ [10] ++ source_text seg ++ [10] ++ translation seg ++ [10; 10].

(** [for i, seg in enumerate(..): result += f'{i + 1}\n'; result += f(seg)] *)
Fixpoint reform_go (f : SrtSegment -> pystr) (i : nat) (segs : list SrtSegment) : pystr :=
  match segs with
  | [] => []
  | s :: rest => (fmt_d (Z.of_nat i + 1) ++ [10] ++ f s) ++ reform_go f (S i) rest
  end.

Definition reform_src_str (segs : list SrtSegment) : pystr := reform_go seg_str O segs.
Definition reform_trans_str (segs : list SrtSegment) : pystr := reform_go get_trans_str O segs.
Definition form_bilingual_str (segs : list SrtSegment) : pystr :=
  reform_go get_bilingual_str O segs.

(** [SrtScript.get_source_only]: [result += f'{seg.source_text}\n\n\n'] *)
Definition get_source_only (segs : list SrtSegment) : pystr :=
  concat (map (λ s, source_text s ++ [10; 10; 10]) segs).

(** The line boundaries of [str.splitlines]. *)
Definition is_linebreak (c : Z) : bool :=
  (10 <=? c) && (c <=? 13) || (28 <=? c) && (c <=? 30) ||
  (c =? 133) || (c =? 8232) || (c =? 8233).

(** [s.splitlines()]: ["\r\n"] is one boundary; a final boundary does not
    start an empty last line. *)
Fixpoint splitlines_go (cur : pystr) (s : pystr) : list pystr :=
  match s with
  | [] => if bool_decide (cur = []) then [] else [cur]
  | c :: s' =>
      if c =? 13 then
        match s' with
        | d :: s'' => if d =? 10 then cur :: splitlines_go [] s''
                      else cur :: splitlines_go [] s'
        | [] => cur :: splitlines_go [] s'
        end
      else if is_linebreak c then cur :: splitlines_go [] s'
      else splitlines_go (cur ++ [c]) s'
  end.

Definition splitlines (s : pystr) : list pystr := splitlines_go [] s.

Fixpoint chunks_go {A} (k fuel : nat) (l : list A) : list (list A) :=
  match fuel, l with
  | O, _ => []
  | _, [] => []
  | S f, _ => take k l :: chunks_go k f (drop k l)
  end.

(** [[list(l[i:i + k]) for i in range(0, len(l), k)]] for [k >= 1]. *)
Definition py_chunks {A} (k : nat) (l : list A) : list (list A) :=
  chunks_go k (length l) l.

(** The blocks of [SrtScript.parse_from_srt_file(.., srt_str=s)]:
    [script_lines = srt_str.splitlines()], the bilingual test on lines 2
    and 3, then blocks of 5 or 4 lines. *)
Definition parse_srt_blocks (s : pystr) : result (list (list pystr)) :=
  let script_lines := splitlines s in
  match py_index script_lines 2 with
  | Err e => Err e
  | Ok l2 =>
      let bilingual :=
        if bool_decide (l2 <> []) then
          match py_index script_lines 3 with
          | Err e => Err e
          | Ok l3 => Ok (bool_decide (l3 <> []))
          end
        else Ok false in
      match bilingual with
      | Err e => Err e
      | Ok b => Ok (py_chunks (if b then 5%nat else 4%nat) script_lines)
      end
  end.

(** [SrtScript.parse_from_srt_file(.., srt_str=s)]: the blocks passed to
    [SrtScript.__init__], which builds one segment per block (domain
    "General": no dictionary is loaded). *)
Definition parse_from_srt_str (src tgt : lang) (s : pystr) : result (list SrtSegment) :=
  blocks ← parse_srt_blocks s;
  map_res (seg_of_block src tgt) blocks.

(* ------------------------------------------------------------------ *)
(** ** split_script *)

(** The loop variables of [split_script]. *)
Record split_state := mkSplit {
  script_arr : list pystr;
  range_arr : list (Z * Z);
  sp_start : Z;
  sp_end : Z;
  script : pystr
}.

(** One iteration of [for sentence in script_split]. *)
Definition split_step (chunk_size : Z) (st : split_state) (sentence : pystr) : split_state :=
  if Z.of_nat (length (script st)) + Z.of_nat (length sentence) + 1 <=? chunk_size
  then mkSplit (script_arr st) (range_arr st) (sp_start st) (sp_end st + 1)
               (script st ++ sentence ++ [10; 10])
  else mkSplit (script_arr st ++ [strip (script st)])
               (range_arr st ++ [(sp_start st, sp_end st)])
               (sp_end st + 1) (sp_end st + 1) (sentence ++ [10; 10]).

(** [split_script(script_in, chunk_size)], with its final
    [assert len(script_arr) == len(range_arr)]. *)
Definition split_script (script_in : pystr) (chunk_size : Z)
  : result (list pystr * list (Z * Z)) :=
  let script_split := py_split script_in [10; 10] in
  let st := fold_left (split_step chunk_size) script_split (mkSplit [] [] 1 0 []) in
  let arrs :=
    if bool_decide (strip (script st) <> [])
    then (script_arr st ++ [strip (script st)],
          range_arr st ++ [(sp_start st, Z.of_nat (length script_split) - 1)])
    else (script_arr st, range_arr st) in
  if Nat.eqb (length arrs.1) (length arrs.2) then Ok arrs else Err AssertionError.

(* ------------------------------------------------------------------ *)
(** ** Properties stated over the code *)

(** Where [form_whole_sentence] closes a run: some index list of
    [merge_list] ends with [i]. *)
Definition closes (merge_list : list (list Z)) (i : Z) : Prop :=
  exists g, g ∈ merge_list /\ last g = Some i.

Definition ends_with_terminator (src : lang) (s : SrtSegment) : Prop :=
  exists p c, source_text s = p ++ [c] /\ c ∈ sentence_end src.

Definition contains_vs (s : SrtSegment) : Prop :=
  exists p q, source_text s = p ++ str "vs." ++ q.

Definition ends_with_vs (s : SrtSegment) : Prop :=
  exists p, source_text s = p ++ str "vs.".

(** The +500 ms nudge of the record constructor reaching a whole second:
    both millisecond parts are 500 within the same whole second. *)
Definition nudge_overflow (r : raw_record) : Prop :=
  ms_of (r_start r) = Ok 500 /\ ms_of (r_end r) = Ok 500 /\
  float_int (r_start r) = float_int (r_end r).

(** The +500 ms nudge fires. *)
Definition nudged (r : raw_record) : Prop :=
  ms_of (r_start r) = ms_of (r_end r) /\ float_int (r_start r) = float_int (r_end r).

(** [p] lies less than a nanosecond above [t], and at most a millisecond and
    a nanosecond below it. *)
Definition near_ms (p t : float) : Prop :=
  match p, t with
  | Fin x, Fin y => (y - (1#1000) - (1#1000000000) < x < y + (1#1000000000))%Q
  | _, _ => False
  end.

(* ------------------------------------------------------------------ *)
(** ** Properties of the further code *)

Definition punc_map (ps : pystr) (c : Z) : Z :=
  if bool_decide (c ∈ ps) then 32 else c.

Fixpoint join_with (sep : pystr) (l : list pystr) : pystr :=
  match l with
  | [] => []
  | [x] => x
  | x :: l' => x ++ sep ++ join_with sep l'
  end.

Definition in_bounds {A} (l : list A) (i : Z) : Prop :=
  - Z.of_nat (length l) <= i < Z.of_nat (length l).

(** [l] tiles the time interval from [a] to [b]. *)
Definition tiles (a b : float) (l : list SrtSegment) : Prop :=
  map start l ++ [b] = a :: map end_ l.

(** The translation contains no one-character target comma. *)
Definition no_trans_comma (tgt : lang) (t : pystr) : Prop :=
  Forall (λ c, [c] <> comma tgt) t.

Definition no_break (s : pystr) : Prop := Forall (λ c, is_linebreak c = false) s.

Definition unlines (ls : list pystr) : pystr := concat (map (λ l, l ++ [10]) ls).

(** The lines written for segment number [i] by [reform_src_str]. *)
Definition src_block (i : nat) (s : SrtSegment) : list pystr :=
  [fmt_d (Z.of_nat i + 1); duration s; source_text s; []].

Definition bilingual_block (i : nat) (s : SrtSegment) : list pystr :=
  [fmt_d (Z.of_nat i + 1); duration s; source_text s; translation s; []].

Definition lines_ok (s : SrtSegment) : Prop :=
  no_break (duration s) /\ no_break (source_text s).

Definition bilingual_lines_ok (s : SrtSegment) : Prop :=
  lines_ok s /\ no_break (translation s).

(** [SrtScript.__init__] on a list of ASR records. *)
Definition script_of_records (src tgt : lang) (rs : list raw_record) : result (list SrtSegment) :=
  map_res (seg_of_record src tgt) rs.

(** Start and end are doubles with [0 <= start < end < 86400], the end
    nudge does not fire and the text has no line break. *)
Definition record_ok (r : raw_record) : Prop :=
  (exists a b, r_start r = Fin a /\ r_end r = Fin b /\ is_double a /\ is_double b /\
     (0 <= a)%Q /\ (a < b)%Q /\ (b < 86400)%Q) /\
  ~ nudged r /\ no_break (lstrip (r_text r)).

Definition parsed_close (r : raw_record) (t : SrtSegment) : Prop :=
  near_ms (start t) (r_start r) /\ near_ms (end_ t) (r_end r) /\
  source_text t = lstrip (r_text r) /\ translation t = [].

(** Consecutive ranges: the first starts at [a], each next one starts
    right after the end of the previous one. *)
Fixpoint contiguous (a : Z) (rs : list (Z * Z)) : Prop :=
  match rs with
  | [] => True
  | r :: rs' => r.1 = a /\ contiguous (r.2 + 1) rs'
  end.

Definition split_inv (p : nat) (st : split_state) : Prop :=
  sp_end st = Z.of_nat p /\ length (script_arr st) = length (range_arr st) /\
  forall y, contiguous 1 (range_arr st ++ [(sp_start st, y)]).

(** A source text as [get_source_only] needs it: non-empty, no newline. *)
Definition plain_text (t : pystr) : Prop := t <> [] /\ Forall (λ c, c <> 10) t.

(** *** SrtScript.realtime_write_srt and realtime_bilingual_write_srt *)

(** The text that [SrtScript.realtime_write_srt(path, range, length, idx)]
    (with [f = get_trans_str]) and [realtime_bilingual_write_srt] (with
    [f = get_bilingual_str]) append to the file:
    [for i, seg in enumerate(self.segments):
       if i < range[0] - 1: continue
       if i >= range[1] + length: break
       f.write(f'{i + idx}\n'); f.write(f(seg))] *)
Fixpoint realtime_go (f : SrtSegment -> pystr) (r0 r1 len idx : Z) (i : nat)
    (segs : list SrtSegment) : pystr :=
  match segs with
  | [] => []
  | seg :: rest =>
      if Z.of_nat i <? r0 - 1 then realtime_go f r0 r1 len idx (S i) rest
      else if r1 + len <=? Z.of_nat i then []
      else (fmt_d (Z.of_nat i + idx) ++ [10] ++ f seg) ++ realtime_go f r0 r1 len idx (S i) rest
  end.

Definition realtime_write_srt (segs : list SrtSegment) (r0 r1 len idx : Z) : pystr :=
  realtime_go get_trans_str r0 r1 len idx O segs.

Definition realtime_bilingual_write_srt (segs : list SrtSegment) (r0 r1 len idx : Z) : pystr :=
  realtime_go get_bilingual_str r0 r1 len idx O segs.

(** *** Slices and SrtScript.check_len_and_split_range *)

(** A bound of the slice [l[i:j]] (step 1) of a list of length [n]. *)
Definition slice_index (n : nat) (i : Z) : nat :=
  Z.to_nat (if i <? 0 then Z.max 0 (i + Z.of_nat n) else Z.min i (Z.of_nat n)).

(** [l[i:j]] *)
Definition py_slice {A} (l : list A) (i j : Z) : list A :=
  let a := slice_index (length l) i in
  let b := slice_index (length l) j in
  take (b - a) (drop a l).

(** [l[i:j] = v] *)
Definition py_slice_assign {A} (l : list A) (i j : Z) (v : list A) : list A :=
  let a := slice_index (length l) i in
  let b := slice_index (length l) j in
  take a l ++ v ++ drop (Nat.max a b) l.

Section SplitRange.
Context (src tgt : lang) (th : Z) (tt : float).

(** The loop of [SrtScript.check_len_and_split_range]: the new segments
    and [extra_len]. *)
Inductive split_range_loop : list SrtSegment -> result (list SrtSegment * Z) -> Prop :=
  | sr_nil : split_range_loop [] (Ok ([], 0))
  | sr_err s rest e :
      guarded_split src tgt th tt s (Err e) -> split_range_loop (s :: rest) (Err e)
  | sr_cons s rest l r :
      guarded_split src tgt th tt s (Ok l) -> split_range_loop rest r ->
      split_range_loop (s :: rest)
        (match r with
         | Ok (l', x) =>
             Ok (l ++ l', (if needs_split th tt s then Z.of_nat (length l) - 1 else 0) + x)
         | Err e => Err e
         end).

(** [SrtScript.check_len_and_split_range(range, ..)] with
    [range = (start_seg_id, end_seg_id)]: the new [self.segments] and the
    returned [extra_len]. *)
Inductive check_len_and_split_range (segs : list SrtSegment) (start_seg_id end_seg_id : Z)
  : result (list SrtSegment * Z) -> Prop :=
  | clr_err e :
      split_range_loop (py_slice segs (start_seg_id - 1) end_seg_id) (Err e) ->
      check_len_and_split_range segs start_seg_id end_seg_id (Err e)
  | clr_ok l x :
      split_range_loop (py_slice segs (start_seg_id - 1) end_seg_id) (Ok (l, x)) ->
      check_len_and_split_range segs start_seg_id end_seg_id
        (Ok (py_slice_assign segs (start_seg_id - 1) end_seg_id l, x)).

End SplitRange.

(** *** SrtScript.extract_words *)

(** [s.split()]: the maximal runs of non-whitespace characters. *)
Fixpoint split_ws_go (cur : pystr) (s : pystr) : list pystr :=
  match s with
  | [] => if bool_decide (cur = []) then [] else [cur]
  | c :: s' =>
      if py_isspace c then
        if bool_decide (cur = []) then split_ws_go [] s' else cur :: split_ws_go [] s'
      else split_ws_go (cur ++ [c]) s'
  end.

Definition py_split_ws (s : pystr) : list pystr := split_ws_go [] s.

(** [range(lo, hi)] *)
Definition py_range (lo hi : Z) : list Z :=
  map (λ k, lo + Z.of_nat k) (seq 0 (Z.to_nat (hi - lo))).

(** [range(hi, lo, -1)] *)
Definition py_range_down (hi lo : Z) : list Z :=
  map (λ k, hi - Z.of_nat k) (seq 0 (Z.to_nat (hi - lo))).

(** [SrtScript.extract_words(sentence, n)]:
    [words = sentence.split(); res = []
     for j in range(n, 0, -1):
         res += [words[i:i + j] for i in range(len(words) - j + 1)]] *)
Definition extract_words (sentence : pystr) (n : Z) : list (list pystr) :=
  let words := py_split_ws sentence in
  fold_left (λ res j,
      res ++ map (λ i, py_slice words i (i + j)) (py_range 0 (Z.of_nat (length words) - j + 1)))
    (py_range_down n 0) [].

(** The windows of [j] consecutive elements of [l], from left to right. *)
Definition windows {A} (j : nat) (l : list A) : list (list A) :=
  map (λ i, take j (drop i l)) (seq 0 (length l + 1 - j)).

(** *** SrtScript.get_real_word *)

Section RealWord.
(** [str.lower], left abstract: the properties below hold for any
    case mapping. *)
Variable lower : pystr -> pystr.

(** [SrtScript.get_real_word(word_list)]: [word], [real_word] and
    [len(word) + n]. *)
Definition get_real_word (word_list : list pystr) : pystr * pystr * Z :=
  let word := fold_left (λ word w, word ++ w ++ [32]) word_list [] in
  let word := py_slice word 0 (-1) in
  if bool_decide (py_slice word (-2) (Z.of_nat (length word)) = [46; 10]) then
    (word, lower (py_slice word 0 (-2)), Z.of_nat (length word) + -2)
  else if bool_decide (py_slice word (-1) (Z.of_nat (length word)) ∈ [[46]; [10]; [44]; [33]; [63]]) then
    (word, lower (py_slice word 0 (-1)), Z.of_nat (length word) + -1)
  else (word, lower word, Z.of_nat (length word) + 0).

End RealWord.

(* ------------------------------------------------------------------ *)
(** ** Concrete inputs *)

Definition rec_en (a b : Q) (t : string) : raw_record := mkRecord a b (str t).

(** Two ASR records, the second a trailing fragment. *)
Definition tail_records : list raw_record :=
  [rec_en 0 2 "This is a full sentence."; rec_en 2 3 "and a tail"].

Definition two_records : list raw_record :=
  [rec_en 0 2 "Hello there."; rec_en 2 4 "How are you?"].

(** ["Note: formal register\n\nBonjour"] *)
Definition note_translation : pystr :=
  str "Note: formal register" ++ [10; 10] ++ str "Bonjour".

(** A translator that raises on its first five calls. *)
Definition flaky_translator : translator :=
  λ k _ _, if (k <? 5)%nat then None else Some (str "Hola" ++ [10] ++ str "Bonjour").

(** A segment whose text ends with '.', is longer than 10 and contains
    (but does not end with) "vs.". *)
Definition vs_segment : SrtSegment :=
  mkSeg EN EN 0%Q 2%Q 0%Q 0%Q (str "00:00:00,000") (str "00:00:02,000")
    (str "Team A vs. Team B won.") (str "00:00:00,000 --> 00:00:02,000") [].

(** An English translation beginning with the comma string ", ". *)
Definition comma_led_translation : pystr := str ", " ++ repeat 97 40.

Definition comma_led_segment : SrtSegment :=
  mkSeg EN EN 0%Q 10%Q 0%Q 0%Q (str "00:00:00,000") (str "00:00:10,000")
    (str "hello world") (str "00:00:00,000 --> 00:00:10,000")
    comma_led_translation.

(** A Chinese translation of two characters starting with "，". *)
Definition zh_short_segment : SrtSegment :=
  mkSeg EN ZH 0%Q 10%Q 0%Q 0%Q (str "00:00:00,000") (str "00:00:10,000")
    (str "hello") (str "00:00:00,000 --> 00:00:10,000") [65292; 97].

(** A segment of 40 translation characters, split once at its middle space. *)
Definition split_demo_segment : SrtSegment :=
  mkSeg EN EN 0%Q 10%Q 0%Q 0%Q (str "00:00:00,000") (str "00:00:10,000")
    (str "hello world") (str "00:00:00,000 --> 00:00:10,000")
    (repeat 97 20 ++ [32] ++ repeat 98 19).

(* ------------------------------------------------------------------ *)
(** ** Theorems *)

(** *** Merging *)

(** C8: combining is associative, and [merge_segs] over three indices is
    the left-nested combination; texts concatenate with single spaces and
    the end time is the last segment's. *)
Theorem merge_assoc (a b c : SrtSegment) :
  seg_add (seg_add a b) c = seg_add a (seg_add b c) /\
  merge_segs [a; b; c] [0; 1; 2] = Ok (seg_add a (seg_add b c)) /\
  source_text (seg_add a (seg_add b c)) =
    source_text a ++ str " " ++ source_text b ++ str " " ++ source_text c /\
  translation (seg_add a (seg_add b c)) =
    translation a ++ str " " ++ translation b ++ str " " ++ translation c /\
  end_ (seg_add a (seg_add b c)) = end_ c.
Proof.
  assert (Hassoc : seg_add (seg_add a b) c = seg_add a (seg_add b c)).
  { unfold seg_add, merge_seg; cbn [source_text translation start_time_str end_time_str end_ end_ms start start_ms src_lang tgt_lang duration].
    rewrite <- !(assoc_L (++)). reflexivity. }
  split; [exact Hassoc|].
  split; [rewrite <- Hassoc; reflexivity|].
  unfold seg_add, merge_seg; cbn [source_text translation start_time_str end_time_str end_ end_ms start start_ms src_lang tgt_lang duration].
  rewrite <- ?(assoc_L (++)). auto.
Qed.

(** C9: [a + b] allocates a new object equal to [merge_seg] applied to a
    copy of [a]; every existing object, [a] and [b] included, keeps all its
    fields. *)
Theorem add_leaves_operands (h : gmap nat SrtSegment) (a b : nat)
    (sa sb : SrtSegment) :
  h !! a = Some sa -> h !! b = Some sb ->
  exists r h', Heap.add a b h = Some (r, h') /\ h !! r = None /\
    h' !! r = Some (merge_seg sa sb) /\ h' !! r = Some (seg_add sa sb) /\
    h' !! a = Some sa /\ h' !! b = Some sb /\
    (forall l, l <> r -> h' !! l = h !! l).
Proof.
  intros Ha Hb.
  assert (Hr : h !! fresh (dom h) = None).
  { apply not_elem_of_dom. apply is_fresh. }
  assert (Hra : a <> fresh (dom h)) by (intros ->; congruence).
  assert (Hrb : b <> fresh (dom h)) by (intros ->; congruence).
  unfold Heap.add, Heap.deepcopy, Heap.merge_seg.
  rewrite Ha. cbn. rewrite lookup_insert_eq, lookup_insert_ne by auto.
  rewrite Hb. cbn.
  exists (fresh (dom h)), (<[fresh (dom h):=merge_seg sa sb]> (<[fresh (dom h):=sa]> h)).
  rewrite lookup_insert_eq.
  assert (Hother : forall l, l <> fresh (dom h) ->
    <[fresh (dom h):=merge_seg sa sb]> (<[fresh (dom h):=sa]> h) !! l = h !! l).
  { intros l Hl. rewrite !lookup_insert_ne by auto. reflexivity. }
  split; [reflexivity|]. split; [exact Hr|]. split; [reflexivity|].
  split; [reflexivity|]. split; [rewrite Hother; auto|].
  split; [rewrite Hother; auto|]. exact Hother.
Qed.

Lemma add_leaves_operands_witness :
  exists r h', Heap.add 0 0 {[0%nat := vs_segment]} = Some (r, h') /\
    ({[0%nat := vs_segment]} : gmap nat SrtSegment) !! r = None /\
    h' !! r = Some (merge_seg vs_segment vs_segment) /\
    h' !! r = Some (seg_add vs_segment vs_segment) /\
    h' !! 0%nat = Some vs_segment /\ h' !! 0%nat = Some vs_segment /\
    (forall l, l <> r -> h' !! l = ({[0%nat := vs_segment]} : gmap nat SrtSegment) !! l).
Proof.
  apply add_leaves_operands; reflexivity.
Defined.

(** *** Sentence forming *)

(** C1: on an input whose last segment does not close a sentence,
    [form_whole_sentence] returns only the closed runs: the trailing
    segment is dropped. *)
Theorem form_whole_sentence_drops_trailing_run :
  exists s1 s2, map_res (seg_of_record EN EN) tail_records = Ok [s1; s2] /\
    trigger (sentence_end EN) s2 = Ok false /\
    form_whole_sentence EN [s1; s2] = Ok [s1].
Proof.
  do 2 eexists. split; [reflexivity|]. split; vm_compute; reflexivity.
Qed.

(** C2: a translated block that already has the required two lines, the
    first containing "Note:": no translator call is made and the
    assignment raises [UnboundLocalError] ([max_num] is never bound). *)
Theorem set_translation_note_line_raises :
  exists s1 s2, map_res (seg_of_record EN EN) two_records = Ok [s1; s2] /\
    length (py_split note_translation [10; 10]) = 2%nat /\
    forall (call : translator) (fuel : nat),
      set_translation call fuel [s1; s2] note_translation 1 2 =
        Some (Err UnboundLocalError).
Proof.
  do 2 eexists. split; [reflexivity|]. split; [vm_compute; reflexivity|].
  intros call fuel. reflexivity.
Qed.

(** *** String primitives *)

Lemma starts_with_spec (sub s : pystr) :
  starts_with sub s = true <-> exists q, s = sub ++ q.
Proof.
  revert s; induction sub as [|c sub IH]; intros s; cbn.
  - split; eauto.
  - destruct s as [|d s']; cbn.
    + split; [discriminate|]. intros [q Hq]. discriminate.
    + rewrite andb_true_iff, Z.eqb_eq, IH. split.
      * intros [-> [q ->]]. eauto.
      * intros [q Hq]. injection Hq as -> ->. eauto.
Qed.

Lemma py_contains_spec (sub s : pystr) :
  py_contains sub s = true <-> exists p q, s = p ++ sub ++ q.
Proof.
  induction s as [|d s IH]; cbn.
  - rewrite starts_with_spec. split.
    + intros [q Hq]. exists [], q. exact Hq.
    + intros [p [q Hq]]. destruct p; [exists q; exact Hq|discriminate].
  - rewrite orb_true_iff, starts_with_spec, IH. split.
    + intros [[q Hq]|[p [q Hq]]].
      * exists [], q. exact Hq.
      * exists (d :: p), q. rewrite Hq. reflexivity.
    + intros [p [q Hq]]. destruct p as [|d' p].
      * left. exists q. exact Hq.
      * injection Hq as -> ->. right. eauto.
Qed.

Lemma py_index_last {A} (p : list A) (c : A) :
  py_index (p ++ [c]) (-1) = Ok c.
Proof.
  unfold py_index. rewrite length_app. cbn [length].
  replace (-1 <? 0) with true by reflexivity.
  destruct (Z.ltb_spec (-1 + Z.of_nat (length p + 1)) 0); [lia|].
  replace (Z.to_nat (-1 + Z.of_nat (length p + 1))) with (length p) by lia.
  rewrite lookup_app_r, Nat.sub_diag by lia. reflexivity.
Qed.

(** *** The trigger of [form_whole_sentence] *)

Lemma trigger_total (ends : list Z) (s : SrtSegment) :
  source_text s <> [] -> exists b, trigger ends s = Ok b.
Proof.
  intros Hne. destruct (exists_last Hne) as [p [c Hpc]].
  unfold trigger. rewrite Hpc, py_index_last. cbn. eauto.
Qed.

Lemma trigger_true_iff (src : lang) (s : SrtSegment) :
  trigger (sentence_end src) s = Ok true <->
  ends_with_terminator src s /\ (10 < length (source_text s))%nat /\
  ~ contains_vs s.
Proof.
  unfold trigger, ends_with_terminator, contains_vs.
  destruct (source_text s) as [|c0 t] eqn:Ht.
  - cbn. split; [discriminate|]. intros [[p [c [Hp _]]] _].
    destruct p; discriminate.
  - assert (Hne : c0 :: t <> []) by discriminate.
    destruct (exists_last Hne) as [p [c Hpc]]. rewrite Hpc, py_index_last.
    cbn [mbind result_bind]. split.
    + intros Hb. injection Hb as Hb.
      apply andb_true_iff in Hb as [Hb Hvs]. apply andb_true_iff in Hb as [He Hlen].
      apply existsb_exists in He as [c' [Hin Hc]]. apply Z.eqb_eq in Hc as <-.
      split; [exists p, c; split; [reflexivity|apply list_elem_of_In; exact Hin]|].
      split; [apply Nat.ltb_lt; exact Hlen|].
      rewrite <- py_contains_spec. apply negb_true_iff in Hvs. congruence.
    + intros [[p' [c' [Hp' Hin]]] [Hlen Hvs]].
      apply app_inj_tail in Hp' as [_ <-].
      f_equal. apply andb_true_iff; split; [apply andb_true_iff; split|].
      * apply existsb_exists. exists c. split; [apply list_elem_of_In; exact Hin|].
        apply Z.eqb_refl.
      * apply Nat.ltb_lt. exact Hlen.
      * apply negb_true_iff. destruct (py_contains _ _) eqn:Hc; [|reflexivity].
        exfalso. apply Hvs. apply py_contains_spec. exact Hc.
Qed.

Lemma closes_app (ml : list (list Z)) (g : list Z) (j : Z) :
  closes (ml ++ [g]) j <-> closes ml j \/ last g = Some j.
Proof.
  unfold closes. split.
  - intros [g' [Hin Hl]]. apply elem_of_app in Hin as [Hin|Hin].
    + left. eauto.
    + apply list_elem_of_singleton in Hin as ->. right. exact Hl.
  - intros [[g' [Hin Hl]]|Hl].
    + exists g'. split; [apply elem_of_app; left; exact Hin|exact Hl].
    + exists g. split; [apply elem_of_app; right; apply list_elem_of_singleton; reflexivity|exact Hl].
Qed.

Lemma scan_spec (ends : list Z) (segs : list SrtSegment) :
  forall (k : nat) (ml : list (list Z)) (sent : list Z),
  Forall (λ s, source_text s <> []) segs ->
  exists ml' sent', scan ends (Z.of_nat k) segs ml sent = Ok (ml', sent') /\
    concat ml' ++ sent' = concat ml ++ sent ++ map Z.of_nat (seq k (length segs)) /\
    (forall j, closes ml' j <-> closes ml j \/
       exists i s, segs !! i = Some s /\ trigger ends s = Ok true /\
                   j = Z.of_nat (k + i)).
Proof.
  induction segs as [|s rest IH]; intros k ml sent Hne.
  - exists ml, sent. cbn. rewrite app_nil_r. split; [reflexivity|]. split; [reflexivity|].
    intros j. split; [auto|]. intros [H|[i [s [Hi _]]]]; [exact H|discriminate].
  - apply Forall_cons in Hne as [Hs Hrest].
    destruct (trigger_total ends s Hs) as [b Hb]. cbn [scan]. rewrite Hb.
    replace (Z.of_nat k + 1) with (Z.of_nat (S k)) by lia.
    destruct b.
    + destruct (IH (S k) (ml ++ [sent ++ [Z.of_nat k]]) [] Hrest)
        as [ml' [sent' [Hscan [Hcat Hcl]]]].
      exists ml', sent'. split; [exact Hscan|]. split.
      * rewrite Hcat, concat_app. cbn. rewrite !app_nil_r, <- !(assoc_L (++)). reflexivity.
      * intros j. rewrite Hcl, closes_app, last_snoc. split.
        -- intros [[H|H]|[i [s' [Hi [Ht ->]]]]].
           ++ left. exact H.
           ++ right. exists O, s. injection H as <-. rewrite Nat.add_0_r. auto.
           ++ right. exists (S i), s'. cbn. rewrite Nat.add_succ_r. auto.
        -- intros [H|[i [s' [Hi [Ht ->]]]]]; [left; left; exact H|].
           destruct i as [|i]; cbn in Hi.
           ++ injection Hi as <-. left; right. rewrite Nat.add_0_r. reflexivity.
           ++ right. exists i, s'. rewrite Nat.add_succ_r. auto.
    + destruct (IH (S k) ml (sent ++ [Z.of_nat k]) Hrest)
        as [ml' [sent' [Hscan [Hcat Hcl]]]].
      exists ml', sent'. split; [exact Hscan|]. split.
      * rewrite Hcat. cbn. rewrite <- !(assoc_L (++)). reflexivity.
      * intros j. rewrite Hcl. split.
        -- intros [H|[i [s' [Hi [Ht ->]]]]]; [left; exact H|].
           right. exists (S i), s'. cbn. rewrite Nat.add_succ_r. auto.
        -- intros [H|[i [s' [Hi [Ht ->]]]]]; [left; exact H|].
           destruct i as [|i]; cbn in Hi.
           ++ injection Hi as <-. congruence.
           ++ right. exists i, s'. rewrite Nat.add_succ_r. auto.
Qed.

(** C5 (as the code has it): for segments with non-empty source text, the
    scan of [form_whole_sentence] visits every index once, in order, and
    closes a run at index [i] exactly when the text of segment [i] ends
    with a sentence terminator, is longer than 10 and contains "vs."
    nowhere; every other segment is accumulated into the open run.  The
    result of [form_whole_sentence] merges the closed runs. *)
Theorem form_whole_sentence_trigger (src : lang) (segs : list SrtSegment) :
  Forall (λ s, source_text s <> []) segs ->
  exists merge_list sentence,
    scan (sentence_end src) 0 segs [] [] = Ok (merge_list, sentence) /\
    form_whole_sentence src segs = map_res (merge_segs segs) merge_list /\
    concat merge_list ++ sentence = map Z.of_nat (seq 0 (length segs)) /\
    forall (i : nat) (s : SrtSegment), segs !! i = Some s ->
      (closes merge_list (Z.of_nat i) <->
       ends_with_terminator src s /\ (10 < length (source_text s))%nat /\
       ~ contains_vs s).
Proof.
  intros Hne.
  destruct (scan_spec (sentence_end src) segs 0 [] [] Hne)
    as [ml [sent [Hscan [Hcat Hcl]]]].
  change (Z.of_nat 0) with 0%Z in Hscan.
  exists ml, sent. split; [exact Hscan|]. split.
  { unfold form_whole_sentence. rewrite Hscan. reflexivity. }
  split; [exact Hcat|].
  intros i s Hi. rewrite Hcl, <- trigger_true_iff. split.
  - intros [[g [Hg _]]|[i' [s' [Hi' [Ht Heq]]]]]; [apply not_elem_of_nil in Hg; contradiction|].
    cbn in Heq. apply Nat2Z.inj in Heq as <-. congruence.
  - intros Ht. right. exists i, s. auto.
Qed.

Lemma form_whole_sentence_trigger_witness :
  exists merge_list sentence,
    scan (sentence_end EN) 0 [vs_segment] [] [] = Ok (merge_list, sentence) /\
    form_whole_sentence EN [vs_segment] = map_res (merge_segs [vs_segment]) merge_list /\
    concat merge_list ++ sentence = map Z.of_nat (seq 0 (length [vs_segment])) /\
    forall (i : nat) (s : SrtSegment), [vs_segment] !! i = Some s ->
      (closes merge_list (Z.of_nat i) <->
       ends_with_terminator EN s /\ (10 < length (source_text s))%nat /\
       ~ contains_vs s).
Proof.
  apply form_whole_sentence_trigger. repeat constructor. discriminate.
Defined.

(** C5 as stated fails: the text "Team A vs. Team B won." ends with '.',
    is longer than 10 and does not end with "vs.", yet it does not close a
    run (it contains "vs."). *)
Lemma vs_segment_not_trigger :
  ends_with_terminator EN vs_segment /\
  (10 < length (source_text vs_segment))%nat /\
  ~ ends_with_vs vs_segment /\
  scan (sentence_end EN) 0 [vs_segment] [] [] = Ok ([], [0]).
Proof.
  split.
  { exists (str "Team A vs. Team B won"), 46. split; [reflexivity|].
    vm_compute. left. }
  split; [vm_compute; lia|].
  split; [|vm_compute; reflexivity].
  intros [p Hp].
  assert (Hl : take 3 (reverse (source_text vs_segment)) = reverse (str "vs.")).
  { rewrite Hp, reverse_app.
    change 3%nat with (length (reverse (str "vs."))). apply take_app_length. }
  vm_compute in Hl. discriminate.
Qed.

(** *** Splitting *)

Lemma py_index_err {A} (l : list A) (i : Z) (e : exn) :
  py_index l i = Err e -> e = IndexError.
Proof.
  unfold py_index. destruct (_ <? 0); [congruence|].
  destruct (l !! _); congruence.
Qed.

Lemma time_str_err (m td : Z) (e : exn) : time_str m td = Err e -> e = IndexError.
Proof.
  unfold time_str.
  destruct (m =? 0);
  destruct (py_index _ 0) eqn:E0; cbn [mbind result_bind];
    try (intros H; injection H as <-; eapply py_index_err; eassumption);
    try discriminate.
  destruct (py_index _ 1) eqn:E1; cbn [mbind result_bind]; [discriminate|].
  intros H; injection H as <-; eapply py_index_err; eassumption.
Qed.

Lemma float_int_err (x : float) (e : exn) : float_int x = Err e -> e <> ZeroDivisionError.
Proof. destruct x; cbn; intros H; try discriminate H; injection H as <-; discriminate. Qed.

Lemma td_of_err (s m : Z) (e : exn) : td_of s m = Err e -> e = OverflowError.
Proof. unfold td_of. destruct (_ <=? _); intros H; [discriminate|injection H as <-; reflexivity]. Qed.

(** Case analysis on every [Ok]/[Err] bind and every [if] of the goal. *)
Ltac result_cases :=
  repeat match goal with
  | |- context [if ?b then _ else _] => destruct b; cbn [mbind result_bind]
  | |- context [mbind _ ?m] =>
      lazymatch m with
      | mbind _ _ => fail
      | _ => let E := fresh "E" in destruct m eqn:E; cbn [mbind result_bind]
      end
  end.

Lemma seg_of_record_err (src tgt : lang) (r : raw_record) (e : exn) :
  seg_of_record src tgt r = Err e -> e <> ZeroDivisionError.
Proof.
  unfold seg_of_record. result_cases; intros H; try discriminate H; injection H as <-;
    match goal with
    | E : float_int _ = Err _ |- _ => exact (float_int_err _ _ E)
    | E : ms_of _ = Err _ |- _ => exact (float_int_err _ _ E)
    | E : td_of _ _ = Err _ |- _ => rewrite (td_of_err _ _ _ E); discriminate
    | E : time_str _ _ = Err _ |- _ => rewrite (time_str_err _ _ _ E); discriminate
    end.
Qed.

Lemma strip_trans_comma_length (tgt : lang) (t t' : pystr) :
  strip_trans_comma tgt t = Ok t' -> (length t <= S (length t'))%nat.
Proof.
  unfold strip_trans_comma. destruct (py_index t 0); cbn [mbind result_bind]; [|discriminate].
  intros H; injection H as <-. destruct (Zeqb_list _ _); [|lia].
  rewrite length_drop. lia.
Qed.

(** The only exceptions of [split_halves]: [IndexError], or
    [ZeroDivisionError] when the stripped translation has one character. *)
Lemma split_halves_err (src tgt : lang) (s : SrtSegment) (e : exn) :
  split_halves src tgt s = Err e ->
  e <> ZeroDivisionError \/
  (e = ZeroDivisionError /\
   exists t, strip_trans_comma tgt (translation s) = Ok t /\ length t = 1%nat).
Proof.
  unfold split_halves.
  destruct (strip_trans_comma tgt (translation s)) as [t|e0] eqn:Et;
    cbn [mbind result_bind].
  2:{ intros H; injection H as <-. left. unfold strip_trans_comma in Et.
      destruct (py_index _ 0) eqn:E; cbn [mbind result_bind] in Et; [discriminate|].
      injection Et as <-. rewrite (py_index_err _ _ _ E). discriminate. }
  unfold split_ratio at 1, int_truediv at 1.
  destruct (Z.of_nat (length t) - 1 =? 0) eqn:Ez; cbn [mbind result_bind].
  { intros H; injection H as <-. right. split; [reflexivity|].
    exists t. split; [reflexivity|]. apply Z.eqb_eq in Ez. lia. }
  destruct (round64 _); cbn [mbind result_bind];
    try (intros H; injection H as <-; left; discriminate).
  destruct (seg_of_record src tgt (mkRecord (start s) _ _)) eqn:E1;
    cbn [mbind result_bind]; [|intros H; injection H as <-; left; eapply seg_of_record_err; eassumption].
  destruct (seg_of_record src tgt (mkRecord _ (end_ s) _)) eqn:E2;
    cbn [mbind result_bind]; [discriminate|].
  intros H; injection H as <-; left; eapply seg_of_record_err; eassumption.
Qed.

Lemma needs_split_length (th : Z) (tt : Q) (s : SrtSegment) :
  needs_split th tt s = true -> th < Z.of_nat (length (translation s)).
Proof.
  unfold needs_split. intros H. apply andb_true_iff in H as [H _].
  apply Z.ltb_lt. exact H.
Qed.

(** C10 (as the code has it): with [text_threshold >= 2], every segment on
    which [split_seg] is called still has a translation of at least two
    characters after the leading-comma strip, so the divisor
    [len(seg.translation) - 1] is non-zero; no run of [split_seg] or of
    [check_len_and_split] ends in [ZeroDivisionError]. *)
Theorem split_divisor_nonzero (src tgt : lang) (th : Z) (tt : Q) :
  2 <= th ->
  (forall s t, needs_split th tt s = true ->
     strip_trans_comma tgt (translation s) = Ok t -> (2 <= length t)%nat) /\
  (forall s r, guarded_split src tgt th tt s r -> r <> Err ZeroDivisionError) /\
  (forall segs r, check_len_and_split src tgt th tt segs r ->
     r <> Err ZeroDivisionError).
Proof.
  intros Hth.
  assert (Hlen : forall s t, needs_split th tt s = true ->
     strip_trans_comma tgt (translation s) = Ok t -> (2 <= length t)%nat).
  { intros s t Hn Ht. apply needs_split_length in Hn.
    apply strip_trans_comma_length in Ht. lia. }
  assert (Hgs : forall s r, guarded_split src tgt th tt s r -> r <> Err ZeroDivisionError).
  { induction 1 as [s Hn|s e Hn Hh|s s1 s2 e Hn Hh H1 IH1|s s1 s2 l1 r2 Hn Hh H1 IH1 H2 IH2].
    - discriminate.
    - intros He. injection He as ->.
      destruct (split_halves_err src tgt s _ Hh) as [Hc|[_ [t [Ht Ht1]]]]; [congruence|].
      specialize (Hlen s t Hn Ht). lia.
    - exact IH1.
    - destruct r2 as [l2|e2]; [discriminate|exact IH2]. }
  split; [exact Hlen|]. split; [exact Hgs|].
  induction 1 as [|s rest e H|s rest l r H Hrest IH].
  - discriminate.
  - apply (Hgs s). exact H.
  - destruct r as [l'|e']; [discriminate|exact IH].
Qed.

Lemma split_divisor_nonzero_witness :
  2 <= 2 /\
  ((forall s t, needs_split 2 1 s = true ->
     strip_trans_comma EN (translation s) = Ok t -> (2 <= length t)%nat) /\
   (forall s r, guarded_split EN EN 2 1 s r -> r <> Err ZeroDivisionError) /\
   (forall segs r, check_len_and_split EN EN 2 1 segs r ->
      r <> Err ZeroDivisionError)).
Proof.
  split; [lia|]. apply (split_divisor_nonzero EN EN 2 1). lia.
Defined.

(** C10 as stated fails at [text_threshold = 1]: a Chinese translation of
    two characters starting with the comma "，" passes the test in front of
    [split_seg], is stripped to one character, and the division by
    [len(seg.translation) - 1 = 0] raises. *)
Lemma zh_short_segment_divides_by_zero :
  needs_split 1 1 zh_short_segment = true /\
  length (translation zh_short_segment) = 2%nat /\
  check_len_and_split EN ZH 1 1 [zh_short_segment] (Err ZeroDivisionError).
Proof.
  split; [vm_compute; reflexivity|]. split; [reflexivity|].
  apply cl_err. apply gs_halves_err; vm_compute; reflexivity.
Qed.

(** One split step of a segment carrying [comma_led_translation] over
    [0, 10]: the split index is the comma at position 0, so the first half
    gets an empty translation and the second half is again such a segment,
    whatever the source text. *)
Lemma comma_led_halves (s : SrtSegment) :
  translation s = comma_led_translation -> start s = 0%Q -> end_ s = 10%Q ->
  exists s1 s2, split_halves EN EN s = Ok (s1, s2) /\ translation s1 = [] /\
    translation s2 = comma_led_translation /\ start s2 = 0%Q /\ end_ s2 = 10%Q.
Proof.
  intros HT Hs He. unfold split_halves. rewrite HT, Hs, He.
  generalize (strip_src_comma EN (source_text s)) as src0; intros src0.
  generalize (src_split_idx EN src0) as k; intros k.
  vm_compute. do 2 eexists. split; [reflexivity|]. repeat split.
Qed.

Lemma comma_led_no_result (s : SrtSegment) (r : result (list SrtSegment)) :
  guarded_split EN EN 30 1 s r ->
  translation s = comma_led_translation -> start s = 0%Q -> end_ s = 10%Q -> False.
Proof.
  induction 1 as [s Hn|s e Hn Hh|s s1 s2 e Hn Hh H1 IH1|s s1 s2 l1 r2 Hn Hh H1 IH1 H2 IH2];
    intros HT Hs He.
  - unfold needs_split in Hn. rewrite HT, Hs, He in Hn. vm_compute in Hn. discriminate.
  - destruct (comma_led_halves s HT Hs He) as [s1 [s2 [Hh' _]]]. congruence.
  - destruct (comma_led_halves s HT Hs He) as [s1' [s2' [Hh' [Ht1 _]]]].
    rewrite Hh in Hh'. injection Hh' as <- <-.
    inversion H1 as [| s0 e0 Hn1 | s0 a b e0 Hn1 | s0 a b l0 r0 Hn1]; subst;
      unfold needs_split in Hn1; rewrite Ht1 in Hn1; vm_compute in Hn1; discriminate.
  - destruct (comma_led_halves s HT Hs He) as [s1' [s2' [Hh' [_ [HT2 [Hs2 He2]]]]]].
    rewrite Hh in Hh'. injection Hh' as <- <-. exact (IH2 HT2 Hs2 He2).
Qed.

(** C6: with the default thresholds (30 characters, 1.0 s), an English
    segment whose translation starts with the comma string ", " needs a
    split, and [check_len_and_split] has no result on it: [split_seg]
    recurses forever on an identical second half.  The strip of a leading
    comma compares the single character [translation[0]] with the
    two-character string ", " and never fires. *)
Theorem comma_led_split_diverges :
  needs_split 30 1 comma_led_segment = true /\
  ~ (exists r, check_len_and_split EN EN 30 1 [comma_led_segment] r).
Proof.
  split; [vm_compute; reflexivity|].
  intros [r H]. inversion H as [|s rest e Hg|s rest l r' Hg Hrest]; subst;
    exact (comma_led_no_result _ _ Hg eq_refl eq_refl eq_refl).
Qed.

(** Every run of [split_seg] that returns yields leaves that fail one of
    the two thresholds. *)
Lemma guarded_split_leaves (src tgt : lang) (th : Z) (tt : Q)
    (s : SrtSegment) (l : list SrtSegment) :
  guarded_split src tgt th tt s (Ok l) ->
  Forall (λ x, needs_split th tt x = false) l.
Proof.
  intros H. remember (Ok l) as r eqn:Er. revert l Er.
  induction H as [s Hn|s e Hn Hh|s s1 s2 e Hn Hh H1 IH1|s s1 s2 l1 r2 Hn Hh H1 IH1 H2 IH2];
    intros l Er; try discriminate.
  - injection Er as <-. repeat constructor. exact Hn.
  - destruct r2 as [l2|e2]; [|discriminate]. injection Er as <-.
    apply Forall_app. split; [exact (IH1 l1 eq_refl)|exact (IH2 l2 eq_refl)].
Qed.

(** *** Reconciliation *)

Lemma retry_counts (fuel : nat) (call : translator) (target : Z) (input : pystr) :
  forall k fl t k' fl',
  retry fuel call target input k fl = Some (t, k', fl') ->
  (fl <= fl')%nat /\ k' = (S k + (fl' - fl))%nat.
Proof.
  induction fuel as [|f IH]; intros k fl t k' fl' H; cbn in H; [discriminate|].
  destruct (call k target input).
  - injection H as <- <- <-. lia.
  - destruct (IH _ _ _ _ _ H) as [Hle Hk]. lia.
Qed.

Lemma solve_loop_counts (n fuel : nat) (call : translator) (required : Z) :
  forall st st',
  solve_loop n fuel call required st = Some st' ->
  requests st = (count st + failures st)%nat ->
  (count st' <= count st + n)%nat /\ requests st' = (count st' + failures st')%nat.
Proof.
  induction n as [|n IH]; intros st st' H Hinv; cbn in H.
  - injection H as <-. lia.
  - destruct (_ && _).
    + destruct (retry fuel call required (cur st) (requests st) (failures st))
        as [[[t k] fl]|] eqn:Er; [|discriminate].
      destruct (retry_counts _ _ _ _ _ _ _ _ _ Er) as [Hle Hk].
      destruct (IH _ _ H) as [Hc Hr]; cbn in *; lia.
    + injection H as <-. lia.
Qed.

(** [retry] gives up only after [fuel] failed calls in a row. *)
Lemma retry_none (fuel : nat) (call : translator) (target : Z) (input : pystr) :
  forall k fl, retry fuel call target input k fl = None ->
  forall j, (j < fuel)%nat -> call (k + j)%nat target input = None.
Proof.
  induction fuel as [|f IH]; intros k fl H j Hj; [lia|]. cbn in H.
  destruct (call k target input) eqn:Ec; [discriminate|].
  destruct j as [|j]; [rewrite Nat.add_0_r; exact Ec|].
  replace (k + S j)%nat with (S k + j)%nat by lia. apply (IH _ _ H). lia.
Qed.

Lemma retry_all_fail (fuel : nat) (call : translator) (target : Z) (input : pystr) :
  (forall k, call k target input = None) -> forall k fl, retry fuel call target input k fl = None.
Proof.
  intros Hall. induction fuel as [|f IH]; intros k fl; cbn; [reflexivity|].
  rewrite Hall. apply IH.
Qed.

Lemma solve_loop_none (n fuel : nat) (call : translator) (required : Z) :
  forall st, solve_loop n fuel call required st = None ->
  exists st', retry fuel call required (cur st') (requests st') (failures st') = None.
Proof.
  induction n as [|n IH]; intros st H; cbn in H; [discriminate|].
  destruct (_ && _); [|discriminate].
  destruct (retry fuel call required (cur st) (requests st) (failures st))
    as [[[t k] fl]|] eqn:Er.
  - exact (IH _ H).
  - exists st. exact Er.
Qed.

(** [assign] leaves every position alone that the slice reaches only at
    enumerate indices beyond the available lines. *)
Lemma assign_frame (pos : list nat) :
  forall segs lns i segs' (p : nat),
  assign segs lns i pos = Ok segs' ->
  (forall j, pos !! j = Some p -> (length lns <= i + j)%nat) ->
  segs' !! p = segs !! p.
Proof.
  induction pos as [|p0 pos IH]; intros segs lns i segs' p H Hp; cbn [assign] in H.
  - injection H as <-. reflexivity.
  - destruct (i <? length lns)%nat eqn:Hi.
    + apply Nat.ltb_lt in Hi.
      destruct (py_index lns (Z.of_nat i)) as [line|e]; [|discriminate].
      destruct (py_contains _ line); [discriminate|].
      destruct (py_index line 0) as [c|e]; [|discriminate].
      assert (Hne : p <> p0).
      { intros ->. specialize (Hp O eq_refl). lia. }
      erewrite IH; [| exact H |].
      * destruct (segs !! p0); [|reflexivity].
        apply list_lookup_insert_ne. auto.
      * intros j Hj. rewrite length_insert. specialize (Hp (S j) Hj). lia.
    + erewrite IH; [reflexivity| exact H |].
      intros j Hj. specialize (Hp (S j) Hj). lia.
Qed.

Lemma map_shift_seq (lo : Z) (n : nat) :
  0 <= lo -> forall s,
  map Z.to_nat (map (λ k, lo + Z.of_nat k) (seq s n)) = seq (Z.to_nat lo + s) n.
Proof.
  intros Hlo. induction n as [|n IH]; intros s; [reflexivity|].
  cbn. rewrite IH. f_equal; [lia|f_equal; lia].
Qed.

Lemma py_slice_pos_NoDup (len : nat) (lo hi : Z) : NoDup (py_slice_pos len lo hi).
Proof.
  unfold py_slice_pos. rewrite map_shift_seq by lia. apply NoDup_seq.
Qed.

Lemma assign_frame_slice (segs : list SrtSegment) (lns : list pystr) (lo hi : Z)
    (segs' : list SrtSegment) (j p : nat) :
  assign segs lns 0 (py_slice_pos (length segs) lo hi) = Ok segs' ->
  py_slice_pos (length segs) lo hi !! j = Some p -> (length lns <= j)%nat ->
  segs' !! p = segs !! p.
Proof.
  intros Ha Hj Hl. eapply assign_frame; [exact Ha|].
  intros j' Hj'. cbn.
  rewrite (NoDup_lookup _ j' j p (py_slice_pos_NoDup _ _ _) Hj' Hj). exact Hl.
Qed.




(** A translator that always raises keeps the first iteration retrying:
    no budget of calls is enough for [set_translation] to return. *)
Lemma failing_translator_never_returns (s1 s2 : SrtSegment) (fuel : nat) :
  set_translation (λ _ _ _, None) fuel [s1; s2] (str "Hola") 1 2 = None.
Proof.
  assert (Hr : forall f tg inp k fl, retry f (λ _ _ _, None) tg inp k fl = None).
  { induction f as [|f IH]; intros; cbn; [reflexivity|apply IH]. }
  unfold set_translation. cbn -[retry]. rewrite Hr. reflexivity.
Qed.

(** *** Floating-point rounding

    Error bounds of [round64] and the three roundings of [ms_of]. *)

Lemma P_pos (e : Z) : (0 < Qpower 2 e)%Q.
Proof. apply Qpower_0_lt. reflexivity. Qed.

Lemma P_plus (a b : Z) : (Qpower 2 (a + b) == Qpower 2 a * Qpower 2 b)%Q.
Proof. apply Qpower_plus. discriminate. Qed.

Lemma P_le (a b : Z) : a <= b -> (Qpower 2 a <= Qpower 2 b)%Q.
Proof. intros H. apply Qpower_le_compat_l; [exact H|discriminate]. Qed.

Lemma P_lt (a b : Z) : a < b -> (Qpower 2 a < Qpower 2 b)%Q.
Proof. intros H. apply Qpower_lt_compat_l; [exact H|reflexivity]. Qed.

Lemma P_lt_inv (a b : Z) : (Qpower 2 a < Qpower 2 b)%Q -> a < b.
Proof. intros H. apply (Qpower_lt_compat_l_inv 2); [exact H|reflexivity]. Qed.

Lemma P_Z (n : Z) : 0 <= n -> (Qpower 2 n == inject_Z (2 ^ n))%Q.
Proof. intros H. rewrite (Zpower_Qpower 2 n H). reflexivity. Qed.

Lemma P_opp (n : Z) : (Qpower 2 (- n) == / Qpower 2 n)%Q.
Proof. apply Qpower_opp. Qed.

Lemma inject_div (x y : Z) : 0 < y -> (inject_Z x / inject_Z y == x # Z.to_pos y)%Q.
Proof.
  intros Hy. destruct y as [|p|p]; try lia. unfold Qeq, Qdiv, Qmult, Qinv. cbn. lia.
Qed.

Lemma P_frac (a b : Z) : 0 <= a -> 0 <= b ->
  (Qpower 2 (a - b) == 2 ^ a # Z.to_pos (2 ^ b))%Q.
Proof.
  intros Ha Hb. unfold Z.sub. rewrite P_plus, P_opp, P_Z, P_Z by lia.
  rewrite <- inject_div by (apply Z.pow_pos_nonneg; lia). reflexivity.
Qed.

Lemma Qlog2_spec (q : Q) : ~ (q == 0)%Q ->
  (Qpower 2 (Qlog2 q) <= Qabs q < Qpower 2 (Qlog2 q + 1))%Q.
Proof.
  destruct q as [n d]. intros Hq.
  assert (Hn : 0 < Z.abs n).
  { destruct n; [|lia|lia]. exfalso. apply Hq. reflexivity. }
  unfold Qlog2. cbn [Qnum Qden].
  set (a := Z.log2 (Z.abs n)). set (b := Z.log2 (Z.pos d)).
  destruct (Z.log2_spec (Z.abs n) Hn) as [Ha1 Ha2].
  destruct (Z.log2_spec (Z.pos d) ltac:(lia)) as [Hb1 Hb2].
  fold a in Ha1, Ha2. fold b in Hb1, Hb2.
  assert (Ha0 : 0 <= a) by apply Z.log2_nonneg.
  assert (Hb0 : 0 <= b) by apply Z.log2_nonneg.
  assert (Hpa : 0 < 2 ^ a) by (apply Z.pow_pos_nonneg; lia).
  assert (Hpb : 0 < 2 ^ b) by (apply Z.pow_pos_nonneg; lia).
  change (Qabs (n # d)) with (Z.abs n # d).
  assert (Hk1 : (Qpower 2 (a - b + 1) == 2 ^ (a + 1) # Z.to_pos (2 ^ b))%Q).
  { replace (a - b + 1) with ((a + 1) - b) by lia. apply P_frac; lia. }
  assert (Hk0 : (Qpower 2 (a - b) == 2 ^ a # Z.to_pos (2 ^ b))%Q) by (apply P_frac; lia).
  assert (Hkm : (Qpower 2 (a - b - 1) == 2 ^ a # Z.to_pos (2 ^ (b + 1)))%Q).
  { replace (a - b - 1) with (a - (b + 1)) by lia. apply P_frac; lia. }
  rewrite Z.pow_succ_r in Ha2, Hb2 by lia.
  rewrite Z.pow_add_r in Hk1, Hkm by lia. change (2 ^ 1) with 2 in Hk1, Hkm.
  destruct (Qle_bool (Qpower 2 (a - b)) (Z.abs n # d)) eqn:E.
  - apply Qle_bool_iff in E. split; [exact E|].
    rewrite Hk1. unfold Qlt. cbn [Qnum Qden]. rewrite Z2Pos.id by lia. nia.
  - assert (E' : ~ (Qpower 2 (a - b) <= Z.abs n # d)%Q).
    { intros H. apply Qle_bool_iff in H. congruence. }
    apply Qnot_le_lt in E'. split.
    + rewrite Hkm. unfold Qle. cbn [Qnum Qden]. rewrite Z2Pos.id by lia. nia.
    + replace (a - b - 1 + 1) with (a - b) by lia. exact E'.
Qed.

Lemma Qlog2_le (q : Q) (K : Z) : ~ (q == 0)%Q -> (Qabs q < Qpower 2 (K + 1))%Q -> Qlog2 q <= K.
Proof.
  intros Hq HK. destruct (Qlog2_spec q Hq) as [H1 _].
  assert (Qlog2 q < K + 1) by (apply P_lt_inv; eapply Qle_lt_trans; eassumption). lia.
Qed.

Lemma Qlog2_ge (q : Q) (K : Z) : ~ (q == 0)%Q -> (Qpower 2 K <= Qabs q)%Q -> K <= Qlog2 q.
Proof.
  intros Hq HK. destruct (Qlog2_spec q Hq) as [_ H2].
  assert (K < Qlog2 q + 1) by (apply P_lt_inv; eapply Qle_lt_trans; eassumption). lia.
Qed.

Lemma round_ne_cases (x : Q) :
  (round_ne x = Qfloor x /\ (x - inject_Z (Qfloor x) <= 1#2)%Q) \/
  (round_ne x = Qfloor x + 1 /\ (1#2 <= x - inject_Z (Qfloor x))%Q).
Proof.
  unfold round_ne. destruct (Qcompare_spec (x - inject_Z (Qfloor x)) (1#2)) as [E|E|E].
  - destruct (Z.even _); [left|right]; split; auto; rewrite E; apply Qle_refl.
  - left. split; [reflexivity|]. apply Qlt_le_weak. exact E.
  - right. split; [reflexivity|]. apply Qlt_le_weak. exact E.
Qed.

Lemma round_ne_err (x : Q) : (Qabs (inject_Z (round_ne x) - x) <= 1#2)%Q.
Proof.
  pose proof (Qfloor_le x) as H1. pose proof (Qlt_floor x) as H2.
  rewrite inject_Z_plus in H2. change (inject_Z 1) with 1%Q in H2.
  apply Qabs_Qle_condition.
  destruct (round_ne_cases x) as [[-> H]|[-> H]].
  - split; lra.
  - rewrite inject_Z_plus. change (inject_Z 1) with 1%Q. split; lra.
Qed.

Lemma round_ne_ge (x : Q) (j : Z) : (inject_Z j <= x)%Q -> j <= round_ne x.
Proof.
  intros H. assert (j <= Qfloor x).
  { apply Z.lt_succ_r. unfold Z.succ. rewrite Zlt_Qlt, inject_Z_plus. change (inject_Z 1) with 1%Q.
    pose proof (Qlt_floor x). rewrite inject_Z_plus in H0. change (inject_Z 1) with 1%Q in H0. lra. }
  destruct (round_ne_cases x) as [[-> _]|[-> _]]; lia.
Qed.

Lemma round_ne_le (x : Q) (j : Z) : (x <= inject_Z j)%Q -> round_ne x <= j.
Proof.
  intros H. pose proof (Qfloor_le x) as H1.
  destruct (round_ne_cases x) as [[-> _]|[-> H2]].
  - rewrite Zle_Qle. lra.
  - assert (Qfloor x < j) by (rewrite Zlt_Qlt; lra). lia.
Qed.

(** The value of a finite rounding: a multiple of [2 ^ ulp_exp q]. *)
Lemma round64_fin (q r : Q) : round64 q = Fin r ->
  (r == inject_Z (round_ne (q / Qpower 2 (ulp_exp q))) * Qpower 2 (ulp_exp q))%Q.
Proof.
  unfold round64. destruct (Qle_bool _ _); intros H; [discriminate|].
  injection H as <-. apply Qred_correct.
Qed.

Lemma round64_finite (q : Q) :
  (Qabs q < Qpower 2 1023)%Q -> exists r, round64 q = Fin r.
Proof.
  intros Hq. unfold round64. destruct (Qle_bool _ _) eqn:E; [|eexists; reflexivity].
  exfalso. apply Qle_bool_iff in E. rewrite Qred_correct in E.
  set (e := ulp_exp q) in *.
  pose proof (round_ne_err (q / Qpower 2 e)) as Herr.
  pose proof (P_pos e) as He.
  assert (Hq0 : (q == (q / Qpower 2 e) * Qpower 2 e)%Q) by (field; lra).
  set (m := inject_Z (round_ne (q / Qpower 2 e))) in *. set (x := (q / Qpower 2 e)%Q) in *.
  assert (Hd : (Qabs (m * Qpower 2 e - q) <= (1#2) * Qpower 2 e)%Q).
  { assert (Heq : (m * Qpower 2 e - q == (m - x) * Qpower 2 e)%Q) by (unfold x; field; lra).
    rewrite Heq, Qabs_Qmult. rewrite (Qabs_pos (Qpower 2 e)) by lra.
    apply Qmult_le_compat_r; [exact Herr|lra]. }
  (* e <= 1023 - 52 *)
  destruct (Qeq_dec q 0) as [Hz|Hz].
  { assert (Hx : (x == 0)%Q) by (unfold x; rewrite Hz; field; lra).
    assert (round_ne x = 0).
    { apply Z.le_antisymm; [apply round_ne_le|apply round_ne_ge]; change (inject_Z 0) with 0%Q; lra. }
    unfold m in E. rewrite H in E. change (inject_Z 0) with 0%Q in E.
    rewrite Qmult_0_l in E. change (Qabs 0) with 0%Q in E. pose proof (P_pos 1024). lra. }
  assert (HL : Qlog2 q <= 1022) by (apply Qlog2_le; [exact Hz|exact Hq]).
  assert (He2 : e <= 970) by (unfold e, ulp_exp; lia).
  assert (Hp : (Qpower 2 e <= Qpower 2 970)%Q) by (apply P_le; exact He2).
  assert (H1023 : (Qpower 2 1024 == 2 * Qpower 2 1023)%Q).
  { change 1024 with (1 + 1023). rewrite P_plus. reflexivity. }
  assert (H970 : (Qpower 2 1023 == Qpower 2 53 * Qpower 2 970)%Q).
  { change 1023 with (53 + 970). rewrite P_plus. reflexivity. }
  assert (H53 : (Qpower 2 53 == 9007199254740992)%Q) by reflexivity.
  pose proof (Qabs_triangle (m * Qpower 2 e - q) q) as Ht.
  assert (Heq : (m * Qpower 2 e - q + q == m * Qpower 2 e)%Q) by ring. rewrite Heq in Ht.
  pose proof (P_pos 970). lra.
Qed.

Lemma round_half (q : Q) (e : Z) :
  (Qabs (inject_Z (round_ne (q / Qpower 2 e)) * Qpower 2 e - q) <= (1#2) * Qpower 2 e)%Q.
Proof.
  pose proof (round_ne_err (q / Qpower 2 e)) as Herr. pose proof (P_pos e) as He.
  set (m := inject_Z (round_ne (q / Qpower 2 e))) in *.
  assert (Heq : (m * Qpower 2 e - q == (m - q / Qpower 2 e) * Qpower 2 e)%Q) by (field; lra).
  rewrite Heq, Qabs_Qmult, (Qabs_pos (Qpower 2 e)) by lra.
  apply Qmult_le_compat_r; [exact Herr|lra].
Qed.

Lemma round_ne_zero (x : Q) : (x == 0)%Q -> round_ne x = 0.
Proof.
  intros Hx. apply Z.le_antisymm; [apply round_ne_le|apply round_ne_ge];
    change (inject_Z 0) with 0%Q; lra.
Qed.

Lemma ulp_exp_le (q : Q) (K : Z) : ~ (q == 0)%Q -> -1022 <= K ->
  (Qabs q < Qpower 2 (K + 1))%Q -> ulp_exp q <= K - 52.
Proof.
  intros Hq HK H. pose proof (Qlog2_le q K Hq H). unfold ulp_exp. lia.
Qed.

(** Rounding error below [2 ^ (K + 1)]: half a unit in the last place. *)
Lemma round64_err (q r : Q) (K : Z) : round64 q = Fin r -> -1022 <= K ->
  (Qabs q < Qpower 2 (K + 1))%Q -> (Qabs (r - q) <= Qpower 2 (K - 53))%Q.
Proof.
  intros Hr HK Hq. apply round64_fin in Hr. rewrite Hr.
  pose proof (round_half q (ulp_exp q)) as H.
  destruct (Qeq_dec q 0) as [Hz|Hz].
  - set (e := ulp_exp q). pose proof (P_pos e).
    rewrite (round_ne_zero (q / Qpower 2 e)) by (rewrite Hz; field; lra).
    change (inject_Z 0) with 0%Q. rewrite Hz.
    assert (E : (0 * Qpower 2 e - 0 == 0)%Q) by ring. rewrite E.
    change (Qabs 0) with 0%Q. pose proof (P_pos (K - 53)). lra.
  - pose proof (ulp_exp_le q K Hz HK Hq) as He.
    assert (E : (Qpower 2 (K - 53) == Qpower 2 (K - 52) * (1#2))%Q).
    { replace (K - 53) with ((K - 52) + (-1)) by lia. rewrite P_plus. reflexivity. }
    pose proof (P_le _ _ He). rewrite E. pose proof (P_pos (ulp_exp q)). lra.
Qed.

(** A multiple of [2 ^ f] below [q], with [f] at least the exponent of the
    last bit, stays below the rounding; likewise above. *)
Lemma round64_ge (q r D : Q) (f i : Z) : round64 q = Fin r -> ulp_exp q <= f ->
  (D == inject_Z i * Qpower 2 f)%Q -> (D <= q)%Q -> (D <= r)%Q.
Proof.
  intros Hr Hf HD Hq. apply round64_fin in Hr. rewrite Hr, HD.
  set (e := ulp_exp q) in *. pose proof (P_pos e) as He.
  assert (Hs : (Qpower 2 f == inject_Z (2 ^ (f - e)) * Qpower 2 e)%Q).
  { rewrite <- P_Z by lia. rewrite <- P_plus. f_equiv. lia. }
  assert (Hj : i * 2 ^ (f - e) <= round_ne (q / Qpower 2 e)).
  { apply round_ne_ge. rewrite inject_Z_mult. apply Qle_shift_div_l; [exact He|].
    rewrite <- Qmult_assoc, <- Hs, <- HD. exact Hq. }
  rewrite Hs, Qmult_assoc, <- inject_Z_mult.
  apply Qmult_le_compat_r; [|lra]. rewrite <- Zle_Qle. exact Hj.
Qed.

Lemma round64_le (q r D : Q) (f i : Z) : round64 q = Fin r -> ulp_exp q <= f ->
  (D == inject_Z i * Qpower 2 f)%Q -> (q <= D)%Q -> (r <= D)%Q.
Proof.
  intros Hr Hf HD Hq. apply round64_fin in Hr. rewrite Hr, HD.
  set (e := ulp_exp q) in *. pose proof (P_pos e) as He.
  assert (Hs : (Qpower 2 f == inject_Z (2 ^ (f - e)) * Qpower 2 e)%Q).
  { rewrite <- P_Z by lia. rewrite <- P_plus. f_equiv. lia. }
  assert (Hj : round_ne (q / Qpower 2 e) <= i * 2 ^ (f - e)).
  { apply round_ne_le. rewrite inject_Z_mult. apply Qle_shift_div_r; [exact He|].
    rewrite <- Qmult_assoc, <- Hs, <- HD. exact Hq. }
  rewrite Hs, Qmult_assoc, <- inject_Z_mult.
  apply Qmult_le_compat_r; [|lra]. rewrite <- Zle_Qle. exact Hj.
Qed.

Lemma round64_nonneg (q r : Q) : round64 q = Fin r -> (0 <= q)%Q -> (0 <= r)%Q.
Proof.
  intros Hr Hq. apply (round64_ge q r 0 (ulp_exp q) 0 Hr); [lia| |exact Hq].
  change (inject_Z 0) with 0%Q. ring.
Qed.

(** The result of a finite rounding is a multiple of [2 ^ ulp_exp q]. *)
Lemma round64_grid (q r : Q) : round64 q = Fin r ->
  exists m, (r == inject_Z m * Qpower 2 (ulp_exp q))%Q.
Proof. intros Hr. eexists. exact (round64_fin q r Hr). Qed.

Lemma ulp_exp_scale (q q' : Q) (k : Z) : ~ (q' == 0)%Q -> 0 <= k ->
  (Qabs q' < Qpower 2 (Qlog2 q + 1 + k))%Q -> ulp_exp q' <= ulp_exp q + k.
Proof.
  intros Hz Hk H. assert (Qlog2 q' <= Qlog2 q + k).
  { apply Qlog2_le; [exact Hz|]. replace (Qlog2 q + k + 1) with (Qlog2 q + 1 + k) by lia. exact H. }
  unfold ulp_exp. lia.
Qed.

Lemma ulp_exp_le0 (q : Q) (K : Z) : 0 <= K -> (Qabs q < Qpower 2 (K + 1))%Q -> ulp_exp q <= K - 52.
Proof.
  intros HK Hq. destruct (Qeq_dec q 0) as [Hz|Hz]; [|apply ulp_exp_le; [exact Hz|lia|exact Hq]].
  assert (Hn : Qnum q = 0).
  { unfold Qeq in Hz. cbn in Hz. lia. }
  unfold ulp_exp, Qlog2. rewrite Hn.
  pose proof (Z.log2_nonneg (Zpos (Qden q))).
  change (Z.log2 (Z.abs 0)) with 0.
  set (l := Z.log2 (Zpos (Qden q))) in *.
  destruct (Qle_bool _ _); lia.
Qed.

Lemma fmod100 (a : Q) : (0 <= a)%Q ->
  exists m, fmod (Fin a) 100 = Fin m /\ (m == a - 100 * inject_Z (Qfloor (a / 100)))%Q.
Proof.
  intros Ha. unfold fmod, py_trunc.
  replace (Qle_bool 0 (a / 100)) with true
    by (symmetry; apply Qle_bool_iff; apply Qle_shift_div_l; lra).
  pose proof (Qfloor_le (a / 100)) as H1.
  assert (Hm : (0 <= a - 100 * inject_Z (Qfloor (a / 100)))%Q).
  { assert (E : (a == 100 * (a / 100))%Q) by (field; discriminate). lra. }
  destruct (Qeq_bool _ 0) eqn:E.
  - exists 0%Q. split; [reflexivity|]. apply Qeq_bool_iff in E. rewrite Qred_correct in E.
    symmetry. exact E.
  - replace (Qle_bool 0 (Qred (a - 100 * inject_Z (Qfloor (a / 100))))) with true
      by (symmetry; apply Qle_bool_iff; rewrite Qred_correct; exact Hm).
    cbn. eexists. split; [reflexivity|]. apply Qred_correct.
Qed.

Lemma floor100_range (a : Q) :
  (0 <= a - 100 * inject_Z (Qfloor (a / 100)) < 100)%Q.
Proof.
  pose proof (Qfloor_le (a / 100)) as H1. pose proof (Qlt_floor (a / 100)) as H2.
  rewrite inject_Z_plus in H2. change (inject_Z 1) with 1%Q in H2.
  assert (E : (a == 100 * (a / 100))%Q) by (field; discriminate). lra.
Qed.

(** The three roundings of [ms_of] on a non-negative double below [2^1000]. *)
Lemma ms_of_steps (t : Q) : (0 <= t)%Q -> (t < Qpower 2 1000)%Q ->
  exists a m c, round64 (t * 100) = Fin a /\
    (m == a - 100 * inject_Z (Qfloor (a / 100)))%Q /\
    round64 (m * 10) = Fin c /\ ms_of (Fin t) = Ok (Qfloor c) /\
    (0 <= a)%Q /\ (0 <= m < 100)%Q /\ (0 <= c <= 1000)%Q.
Proof.
  intros H0 H1.
  assert (Hp : (Qpower 2 1023 == Qpower 2 1000 * 8388608)%Q).
  { rewrite <- (P_plus 1000 23). reflexivity. }
  destruct (round64_finite (t * 100)) as [a Ha].
  { rewrite Qabs_pos by lra. rewrite Hp. pose proof (P_pos 1000). nra. }
  pose proof (round64_nonneg _ _ Ha ltac:(lra)) as Ha0.
  destruct (fmod100 a Ha0) as [m [Hm Hmeq]].
  pose proof (floor100_range a) as Hmr. rewrite <- Hmeq in Hmr.
  destruct (round64_finite (m * 10)) as [c Hc].
  { rewrite Qabs_pos by lra. pose proof (P_le 10 1023 ltac:(lia)) as HP.
    change (Qpower 2 10) with 1024%Q in HP. lra. }
  pose proof (round64_nonneg _ _ Hc ltac:(lra)) as Hc0.
  assert (Hc1 : (c <= 1000)%Q).
  { apply (round64_le (m * 10) c 1000 0 1000 Hc).
    - enough (ulp_exp (m * 10) <= 9 - 52) by lia.
      apply ulp_exp_le0; [lia|]. rewrite Qabs_pos by lra.
      change (Qpower 2 (9 + 1)) with 1024%Q. lra.
    - reflexivity.
    - lra. }
  exists a, m, c. repeat split; try assumption; try lra.
  unfold ms_of. cbn [fmul]. rewrite Ha, Hm. cbn [fmul]. rewrite Hc.
  cbn [float_int]. unfold py_trunc.
  replace (Qle_bool 0 c) with true by (symmetry; apply Qle_bool_iff; exact Hc0). reflexivity.
Qed.

Lemma floor_range (c : Q) (lo hi : Z) : (inject_Z lo <= c)%Q -> (c < inject_Z (hi + 1))%Q ->
  lo <= Qfloor c <= hi.
Proof.
  intros H1 H2. pose proof (Qfloor_le c). pose proof (Qlt_floor c) as H4.
  rewrite inject_Z_plus in H4. change (inject_Z 1) with 1%Q in H4.
  split.
  - destruct (Z_lt_le_dec (Qfloor c) lo) as [E|E]; [|exact E].
    assert (H3 : Qfloor c + 1 <= lo) by lia. rewrite Zle_Qle, inject_Z_plus in H3.
    change (inject_Z 1) with 1%Q in H3. lra.
  - destruct (Z_lt_le_dec hi (Qfloor c)) as [E|E]; [|exact E].
    assert (H3 : hi + 1 <= Qfloor c) by lia. rewrite Zle_Qle in H3. lra.
Qed.

(** [ms_of] of a non-negative double below [2 ^ 1000] is between 0 and 1000. *)
Lemma ms_of_le1000 (t : Q) : (0 <= t)%Q -> (t < Qpower 2 1000)%Q ->
  exists ms, ms_of (Fin t) = Ok ms /\ 0 <= ms <= 1000.
Proof.
  intros H0 H1. destruct (ms_of_steps t H0 H1) as (a & m & c & Ha & Hm & Hc & Hms & Ha0 & Hmr & Hcr).
  exists (Qfloor c). split; [exact Hms|]. apply floor_range.
  - change (inject_Z 0) with 0%Q. lra.
  - change (inject_Z (1000 + 1)) with 1001%Q. lra.
Qed.

(** Below [2 ^ 53 / 100] it is at most 999. *)
Lemma ms_of_le999 (t : Q) : (0 <= t)%Q -> (t * 100 < Qpower 2 53)%Q ->
  exists ms, ms_of (Fin t) = Ok ms /\ 0 <= ms <= 999.
Proof.
  intros H0 H1.
  assert (H1' : (t < Qpower 2 1000)%Q).
  { assert (Qpower 2 1000 == Qpower 2 53 * Qpower 2 947)%Q as -> by (rewrite <- P_plus; reflexivity).
    assert (1 <= Qpower 2 947)%Q by (change 1%Q with (Qpower 2 0); apply P_le; lia).
    pose proof (P_pos 53). nra. }
  destruct (ms_of_steps t H0 H1') as (a & m & c & Ha & Hm & Hc & Hms & Ha0 & Hmr & Hcr).
  exists (Qfloor c). split; [exact Hms|]. apply floor_range; [change (inject_Z 0) with 0%Q; lra|].
  change (inject_Z (999 + 1)) with 1000%Q.
  set (e := ulp_exp (t * 100)).
  assert (He : e <= 52 - 52) by (apply ulp_exp_le0; [lia|rewrite Qabs_pos by lra; exact H1]).
  destruct (Qlt_le_dec 64 (t * 100)) as [Hbig|Hsmall].
  - (* the last bit of [a] weighs at least [2 ^ -46], so [m <= 100 - 2 ^ -46] *)
    assert (He' : -46 <= e).
    { unfold e, ulp_exp. assert (6 <= Qlog2 (t * 100)); [|lia].
      apply Qlog2_ge; [lra|]. rewrite Qabs_pos by lra. change (Qpower 2 6) with 64%Q. lra. }
    destruct (round64_grid _ _ Ha) as [A HA]. fold e in HA.
    set (k := Qfloor (a / 100)) in *.
    assert (HM : (m == inject_Z (A - 100 * k * 2 ^ (- e)) * Qpower 2 e)%Q).
    { rewrite Hm, HA. unfold Z.sub. rewrite inject_Z_plus, inject_Z_opp, !inject_Z_mult, <- P_Z by lia.
      assert (E : (Qpower 2 (- e) * Qpower 2 e == 1)%Q).
      { rewrite <- P_plus. replace (- e + e) with 0 by lia. reflexivity. }
      change (inject_Z 100) with 100%Q.
      set (x := Qpower 2 (- e)) in *. set (y := Qpower 2 e) in *.
      assert (R : ((inject_Z A + - (100 * inject_Z k * x)) * y ==
                   inject_Z A * y - 100 * inject_Z k * (x * y))%Q) by ring.
      rewrite R, E. ring. }
    set (M := A - 100 * k * 2 ^ (- e)) in *.
    assert (HMb : M + 1 <= 100 * 2 ^ (- e)).
    { assert (M < 100 * 2 ^ (- e)); [|lia].
      rewrite Zlt_Qlt, inject_Z_mult, <- P_Z by lia.
      pose proof (P_pos e) as Pe.
      assert (Hm100 : (inject_Z M * Qpower 2 e < 100)%Q) by (rewrite <- HM; lra).
      assert (E : (100 == 100 * Qpower 2 (- e) * Qpower 2 e)%Q).
      { rewrite <- Qmult_assoc, <- P_plus. replace (- e + e) with 0 by lia. reflexivity. }
      rewrite E in Hm100. apply Qmult_lt_r in Hm100; [exact Hm100|exact Pe]. }
    assert (Hmub : (m + Qpower 2 e <= 100)%Q).
    { rewrite HM. rewrite Zle_Qle, inject_Z_plus, inject_Z_mult, <- P_Z in HMb by lia.
      pose proof (P_pos e) as Pe.
      assert (E : (100 * Qpower 2 (- e) * Qpower 2 e == 100)%Q).
      { rewrite <- Qmult_assoc, <- P_plus. replace (- e + e) with 0 by lia. reflexivity. }
      change (inject_Z 1) with 1%Q in HMb. change (inject_Z 100) with 100%Q in HMb.
      assert (Hx : ((inject_Z M + 1) * Qpower 2 e <= 100 * Qpower 2 (- e) * Qpower 2 e)%Q)
        by (apply Qmult_le_compat_r; lra).
      rewrite E in Hx. lra. }
    pose proof (P_le _ _ He') as Pe.
    pose proof (round64_err (m * 10) c 9 Hc ltac:(lia)
                  ltac:(rewrite Qabs_pos by lra; change (Qpower 2 (9 + 1)) with 1024%Q; lra)) as Herr.
    apply Qabs_Qle_condition in Herr.
    change (Qpower 2 (9 - 53)) with (1 # 17592186044416)%Q in Herr.
    change (Qpower 2 (-46)) with (1 # 70368744177664)%Q in Pe.
    lra.
  - (* small: [a <= 64], so [m <= 64] and [c <= 640] *)
    assert (Ha64 : (a <= 64)%Q).
    { apply (round64_le (t * 100) a 64 6 1 Ha); [lia|reflexivity|exact Hsmall]. }
    pose proof (Qfloor_resp_le 0 (a / 100) ltac:(apply Qle_shift_div_l; lra)) as Hk.
    change (Qfloor 0) with 0 in Hk. rewrite Zle_Qle in Hk. change (inject_Z 0) with 0%Q in Hk.
    assert (Hc640 : (c <= 640)%Q).
    { apply (round64_le (m * 10) c 640 0 640 Hc).
      - enough (ulp_exp (m * 10) <= 9 - 52) by lia.
        apply ulp_exp_le0; [lia|]. rewrite Qabs_pos by lra.
        change (Qpower 2 (9 + 1)) with 1024%Q. lra.
      - reflexivity.
      - nra. }
    lra.
Qed.

Lemma int_grid (n e : Z) : e <= 0 -> (inject_Z n == inject_Z (n * 2 ^ (- e)) * Qpower 2 e)%Q.
Proof.
  intros He. rewrite inject_Z_mult, <- P_Z by lia. rewrite <- Qmult_assoc, <- P_plus.
  replace (- e + e) with 0 by lia. change (Qpower 2 0) with 1%Q. ring.
Qed.

Lemma grid_gap (i j e : Z) : (inject_Z i * Qpower 2 e < inject_Z j * Qpower 2 e)%Q ->
  (inject_Z i * Qpower 2 e + Qpower 2 e <= inject_Z j * Qpower 2 e)%Q.
Proof.
  intros H. pose proof (P_pos e) as Pe.
  apply Qmult_lt_r in H; [|exact Pe]. rewrite <- Zlt_Qlt in H.
  assert (H' : i + 1 <= j) by lia. rewrite Zle_Qle, inject_Z_plus in H'.
  change (inject_Z 1) with 1%Q in H'.
  assert (Hx : ((inject_Z i + 1) * Qpower 2 e <= inject_Z j * Qpower 2 e)%Q)
    by (apply Qmult_le_compat_r; lra).
  lra.
Qed.

(** A rational on the grid of its own last bit is rounded to itself. *)
Lemma round64_exact (q r : Q) (j : Z) : round64 q = Fin r ->
  (q == inject_Z j * Qpower 2 (ulp_exp q))%Q -> (r == q)%Q.
Proof.
  intros Hr Hq. apply Qle_antisym.
  - apply (round64_le q r q (ulp_exp q) j Hr); [lia|exact Hq|lra].
  - apply (round64_ge q r q (ulp_exp q) j Hr); [lia|exact Hq|lra].
Qed.

(** [float(n)] of an integer below [2 ^ 53] is exact. *)
Lemma int_float_exact (n : Z) : 0 <= n < 2 ^ 53 ->
  exists x, int_float n = Ok (Fin x) /\ (x == inject_Z n)%Q.
Proof.
  intros Hn. unfold int_float.
  assert (Hb : (Qabs (inject_Z n) < Qpower 2 53)%Q).
  { rewrite Qabs_pos by (change 0%Q with (inject_Z 0); rewrite <- Zle_Qle; lia).
    rewrite P_Z by lia. rewrite <- Zlt_Qlt. lia. }
  destruct (round64_finite (inject_Z n)) as [r Hr].
  { pose proof (P_lt 53 1023 ltac:(lia)). lra. }
  rewrite Hr. exists r. split; [reflexivity|].
  assert (He : ulp_exp (inject_Z n) <= 52 - 52) by (apply ulp_exp_le0; [lia|exact Hb]).
  apply (round64_exact _ _ (n * 2 ^ (- ulp_exp (inject_Z n))) Hr).
  apply int_grid. lia.
Qed.

(** The milliseconds of a double [t] in [0, 86400): [ms_of t] is
    [1000 * (t - floor t)] truncated, up to [10 ^ -8]. *)
Lemma ms_of_double (t : Q) : is_double t -> (0 <= t)%Q -> (t < 86400)%Q ->
  exists ms, ms_of (Fin t) = Ok ms /\ 0 <= ms <= 999 /\
    (1000 * (t - inject_Z (Qfloor t)) - 1 - (1#100000000) < inject_Z ms <=
     1000 * (t - inject_Z (Qfloor t)) + (1#100000000))%Q.
Proof.
  intros Hd H0 H1.
  assert (Hlt1000 : (t < Qpower 2 1000)%Q).
  { pose proof (P_le 17 1000 ltac:(lia)). change (Qpower 2 17) with 131072%Q in *. lra. }
  destruct (ms_of_le999 t H0 ltac:(change (Qpower 2 53) with 9007199254740992%Q; lra))
    as (ms & Hms & Hr).
  destruct (ms_of_steps t H0 Hlt1000) as (a & m & c & Ha & Hm & Hc & Hms' & Ha0 & Hmr & Hcr).
  rewrite Hms in Hms'. injection Hms' as ->.
  exists (Qfloor c). split; [exact Hms|]. split; [exact Hr|].
  set (T := Qfloor t).
  pose proof (Qfloor_le t) as HT1. pose proof (Qlt_floor t) as HT2. fold T in HT1, HT2.
  rewrite inject_Z_plus in HT2. change (inject_Z 1) with 1%Q in HT2.
  pose proof (Qfloor_resp_le 0 t H0) as HT0. change (Qfloor 0) with 0 in HT0. fold T in HT0.
  (* [t] is a double: a multiple of [2 ^ et] with [et <= -36] *)
  set (et := ulp_exp t).
  assert (Het : et <= 16 - 52)
    by (apply ulp_exp_le0; [lia|rewrite Qabs_pos by lra; change (Qpower 2 (16 + 1)) with 131072%Q; lra]).
  destruct (round64_grid _ _ Hd) as [i Hi]. fold et in Hi.
  assert (Hgap : (t + Qpower 2 et <= inject_Z T + 1)%Q).
  { assert (E : (inject_Z T + 1 == inject_Z ((T + 1) * 2 ^ (- et)) * Qpower 2 et)%Q).
    { change 1%Q with (inject_Z 1). rewrite <- inject_Z_plus. apply int_grid. lia. }
    rewrite Hi, E. apply grid_gap. rewrite <- Hi, <- E. exact HT2. }
  (* the floor of [a / 100] is [T] *)
  set (ea := ulp_exp (t * 100)).
  assert (Hea : ea <= 23 - 52)
    by (apply ulp_exp_le0; [lia|rewrite Qabs_pos by lra; change (Qpower 2 (23 + 1)) with 16777216%Q; lra]).
  assert (Hlo : (inject_Z T * 100 <= a)%Q).
  { apply (round64_ge (t * 100) a (inject_Z T * 100) 0 (T * 100) Ha); [lia| |nra].
    rewrite inject_Z_mult. change (Qpower 2 0) with 1%Q. change (inject_Z 100) with 100%Q. ring. }
  assert (Hhi : (a < (inject_Z T + 1) * 100)%Q).
  { destruct (Qeq_dec t 0) as [Ht0|Ht0].
    - assert (a <= 0)%Q; [|lra].
      apply (round64_le (t * 100) a 0 0 0 Ha); [lia|reflexivity|]. rewrite Ht0. lra.
    - assert (Hea' : ea <= et + 7).
      { apply ulp_exp_scale; [lra|lia|]. destruct (Qlog2_spec t Ht0) as [_ Hl].
        rewrite Qabs_pos in Hl |- * by lra.
        assert (E : (Qpower 2 (Qlog2 t + 1 + 7) == Qpower 2 (Qlog2 t + 1) * 128)%Q)
          by (rewrite P_plus; reflexivity).
        rewrite E. lra. }
      pose proof (round_half (t * 100) ea) as Hh.
      pose proof (round64_fin _ _ Ha) as Hf. fold ea in Hf. rewrite <- Hf in Hh.
      apply Qabs_Qle_condition in Hh as [_ Hh].
      pose proof (P_le _ _ Hea') as Hp.
      assert (E : (Qpower 2 (et + 7) == Qpower 2 et * 128)%Q) by (rewrite P_plus; reflexivity).
      pose proof (P_pos et). lra. }
  assert (Hk : Qfloor (a / 100) = T).
  { assert (Hr2 : T <= Qfloor (a / 100) <= T).
    { apply floor_range.
      - apply Qle_shift_div_l; [reflexivity|]. lra.
      - apply Qlt_shift_div_r; [reflexivity|]. rewrite inject_Z_plus. exact Hhi. }
    lia. }
  rewrite Hk in Hm.
  (* the errors of the two roundings *)
  pose proof (round64_err (t * 100) a 23 Ha ltac:(lia)
     ltac:(rewrite Qabs_pos by lra; change (Qpower 2 (23 + 1)) with 16777216%Q; lra)) as E1.
  pose proof (round64_err (m * 10) c 9 Hc ltac:(lia)
     ltac:(rewrite Qabs_pos by lra; change (Qpower 2 (9 + 1)) with 1024%Q; lra)) as E2.
  apply Qabs_Qle_condition in E1, E2.
  change (Qpower 2 (23 - 53)) with (1 # 1073741824)%Q in E1.
  change (Qpower 2 (9 - 53)) with (1 # 17592186044416)%Q in E2.
  pose proof (Qfloor_le c) as Hc1. pose proof (Qlt_floor c) as Hc2.
  rewrite inject_Z_plus in Hc2. change (inject_Z 1) with 1%Q in Hc2.
  split; lra.
Qed.

(** Parsing [T] whole seconds and [ms] milliseconds back: [ms / 10], then
    [/ 100], then [T + ...], each rounded, lands within [10 ^ -10] of
    [T + ms / 1000]. *)
Lemma parse_close (T ms : Z) : 0 <= T < 86400 -> 0 <= ms <= 999 ->
  exists q1 x p, int_truediv ms 10 = Ok (Fin q1) /\ int_float T = Ok (Fin x) /\
    fadd (Fin x) (fdiv (Fin q1) 100) = Fin p /\
    (Qabs (p - (inject_Z T + inject_Z ms / 1000)) <= 1#10000000000)%Q.
Proof.
  intros HT Hms.
  assert (Hm0 : (0 <= inject_Z ms)%Q) by (change 0%Q with (inject_Z 0); rewrite <- Zle_Qle; lia).
  assert (Hm1 : (inject_Z ms <= 999)%Q) by (change 999%Q with (inject_Z 999); rewrite <- Zle_Qle; lia).
  assert (HT0 : (0 <= inject_Z T)%Q) by (change 0%Q with (inject_Z 0); rewrite <- Zle_Qle; lia).
  assert (HT1 : (inject_Z T <= 86399)%Q) by (change 86399%Q with (inject_Z 86399); rewrite <- Zle_Qle; lia).
  pose proof (P_lt 7 1023 ltac:(lia)) as P7. change (Qpower 2 7) with 128%Q in P7.
  assert (Hd : (inject_Z ms / inject_Z 10 == inject_Z ms / 10)%Q) by reflexivity.
  destruct (round64_finite (inject_Z ms / inject_Z 10)) as [q1 Hq1].
  { rewrite Hd, Qabs_pos by (apply Qle_shift_div_l; lra).
    apply Qlt_shift_div_r; lra. }
  pose proof (round64_err _ _ 6 Hq1 ltac:(lia)
     ltac:(rewrite Hd, Qabs_pos by (apply Qle_shift_div_l; lra);
           change (Qpower 2 (6 + 1)) with 128%Q; apply Qlt_shift_div_r; lra)) as E1.
  rewrite Hd in E1. apply Qabs_Qle_condition in E1.
  change (Qpower 2 (6 - 53)) with (1 # 140737488355328)%Q in E1.
  assert (Hq1r : (0 <= q1 <= 100)%Q).
  { split.
    - apply (round64_nonneg _ _ Hq1). rewrite Hd. apply Qle_shift_div_l; lra.
    - apply (round64_le _ q1 100 0 100 Hq1).
      + enough (ulp_exp (inject_Z ms / inject_Z 10) <= 6 - 52) by lia.
        apply ulp_exp_le0; [lia|]. rewrite Hd, Qabs_pos by (apply Qle_shift_div_l; lra).
        change (Qpower 2 (6 + 1)) with 128%Q. apply Qlt_shift_div_r; lra.
      + reflexivity.
      + rewrite Hd. apply Qle_shift_div_r; lra. }
  destruct (int_float_exact T ltac:(lia)) as (x & Hx & Hxe).
  destruct (round64_finite (q1 / 100)) as [q2 Hq2].
  { rewrite Qabs_pos by (apply Qle_shift_div_l; lra). apply Qlt_shift_div_r; lra. }
  pose proof (round64_err _ _ 0 Hq2 ltac:(lia)
     ltac:(rewrite Qabs_pos by (apply Qle_shift_div_l; lra);
           change (Qpower 2 (0 + 1)) with 2%Q; apply Qlt_shift_div_r; lra)) as E2.
  apply Qabs_Qle_condition in E2.
  change (Qpower 2 (0 - 53)) with (1 # 9007199254740992)%Q in E2.
  assert (Hq2r : (0 <= q2 <= 1)%Q).
  { split.
    - apply (round64_nonneg _ _ Hq2). apply Qle_shift_div_l; lra.
    - apply (round64_le _ q2 1 0 1 Hq2).
      + enough (ulp_exp (q1 / 100) <= 0 - 52) by lia.
        apply ulp_exp_le0; [lia|]. rewrite Qabs_pos by (apply Qle_shift_div_l; lra).
        change (Qpower 2 (0 + 1)) with 2%Q. apply Qlt_shift_div_r; lra.
      + reflexivity.
      + apply Qle_shift_div_r; lra. }
  destruct (round64_finite (x + q2)) as [p Hp].
  { rewrite Qabs_pos by lra. lra. }
  pose proof (round64_err _ _ 16 Hp ltac:(lia)
     ltac:(rewrite Qabs_pos by lra; change (Qpower 2 (16 + 1)) with 131072%Q; lra)) as E3.
  apply Qabs_Qle_condition in E3.
  change (Qpower 2 (16 - 53)) with (1 # 137438953472)%Q in E3.
  exists q1, x, p. split; [unfold int_truediv; cbn [Z.eqb]; rewrite Hq1; reflexivity|].
  split; [exact Hx|]. split; [cbn [fadd fdiv]; rewrite Hq2; exact Hp|].
  apply Qabs_Qle_condition.
  assert (E : (inject_Z ms / 1000 == (inject_Z ms / 10) / 100)%Q) by (field; discriminate).
  assert (E' : (q1 / 100 == q1 * (1#100))%Q) by (field; discriminate).
  rewrite E' in E2.
  assert (E'' : (inject_Z ms / 10 == inject_Z ms * (1#10))%Q) by (field; discriminate).
  rewrite E'' in E1.
  assert (E3' : (inject_Z ms / 1000 == inject_Z ms * (1#1000))%Q) by (field; discriminate).
  rewrite E3'. split; lra.
Qed.

(** *** Record constructor and time stamps *)

Lemma starts_with_app (p y : pystr) : starts_with p (p ++ y) = true.
Proof. induction p as [|c p IH]; cbn; [done|]. rewrite Z.eqb_refl. exact IH. Qed.

Lemma split_go_nohd (h : Z) (sep' x y cur : pystr) :
  Forall (λ c, c <> h) x ->
  split_go (h :: sep') O cur (x ++ y) = split_go (h :: sep') O (cur ++ x) y.
Proof.
  intros Hx. revert cur. induction Hx as [|c x Hc Hx IH]; intros cur.
  - by rewrite app_nil_r.
  - cbn [app split_go starts_with].
    replace (h =? c) with false by (symmetry; apply Z.eqb_neq; congruence).
    cbn [andb]. rewrite IH, <- app_assoc. reflexivity.
Qed.

Lemma split_go_skip (sep l y cur : pystr) :
  split_go sep (length l) cur (l ++ y) = split_go sep O cur y.
Proof.
  induction l as [|c l IH]; [done|]. cbn [length app split_go]. exact IH.
Qed.

Lemma split_go_sep (h : Z) (sep' y cur : pystr) :
  split_go (h :: sep') O cur ((h :: sep') ++ y) = cur :: split_go (h :: sep') O [] y.
Proof.
  change ((h :: sep') ++ y) with (h :: (sep' ++ y)).
  pose proof (starts_with_app (h :: sep') y) as Hs. cbn [app] in Hs.
  cbn [split_go]. rewrite Hs.
  cbn [length pred]. rewrite split_go_skip. reflexivity.
Qed.

Lemma py_split_cut (h : Z) (sep' x y : pystr) :
  Forall (λ c, c <> h) x ->
  py_split (x ++ (h :: sep') ++ y) (h :: sep') = x :: py_split y (h :: sep').
Proof.
  intros Hx. unfold py_split. rewrite split_go_nohd by exact Hx.
  apply split_go_sep.
Qed.

Lemma split_go_cons (sep : pystr) (k : nat) (cur s : pystr) :
  exists a rest, split_go sep k cur s = a :: rest.
Proof.
  revert k cur. induction s as [|c s IH]; intros k cur; cbn [split_go].
  - eauto.
  - destruct k; [|apply IH].
    destruct (starts_with sep (c :: s)); [eauto|apply IH].
Qed.

Lemma pad_nodot (k : nat) (n : Z) : Forall (λ c, c <> 46) (pad k n).
Proof.
  revert n. induction k as [|k IH]; intros n; cbn [pad]; [constructor|].
  apply Forall_app_2; [apply IH|]. constructor; [|constructor].
  unfold digit. pose proof (Z.mod_pos_bound n 10). lia.
Qed.

Lemma zdigits_go_nodot (f : nat) (n : Z) : 0 <= n -> Forall (λ c, c <> 46) (zdigits_go f n).
Proof.
  revert n. induction f as [|f IH]; intros n Hn; cbn [zdigits_go]; [constructor|].
  destruct (n <? 10).
  - constructor; [unfold digit; lia|constructor].
  - apply Forall_app_2; [apply IH; apply Z.div_pos; lia|].
    constructor; [|constructor]. unfold digit. pose proof (Z.mod_pos_bound n 10). lia.
Qed.

Lemma fmt_d_nodot (n : Z) : Forall (λ c, c <> 46) (fmt_d n).
Proof.
  unfold fmt_d, zdigits. destruct (n <? 0) eqn:E.
  - apply Z.ltb_lt in E. apply Forall_app_2; [repeat constructor; cbn; lia|].
    apply zdigits_go_nodot. lia.
  - apply Z.ltb_ge in E. apply zdigits_go_nodot. lia.
Qed.

Ltac nodot := repeat (apply pad_nodot || apply fmt_d_nodot || apply Forall_app_2
                      || (constructor; [cbn; lia|]) || constructor).

Lemma td_str_frac (us : Z) :
  (us mod 86400000000) mod 1000000 <> 0 ->
  exists p q, Forall (λ c, c <> 46) p /\ td_str us = p ++ [46] ++ q.
Proof.
  intros Hm. unfold td_str.
  destruct ((us mod 86400000000) mod 1000000 =? 0) eqn:E; [apply Z.eqb_eq in E; congruence|].
  eexists _, _. split; [|reflexivity].
  destruct (us / 86400000000 =? 0); [|destruct (negb _)]; nodot.
Qed.

Lemma time_str_ok (m td : Z) :
  m = 0 \/ (td mod 86400000000) mod 1000000 <> 0 -> exists x, time_str m td = Ok x.
Proof.
  intros Hm. unfold time_str.
  destruct (m =? 0) eqn:E.
  - destruct (split_go_cons (str ".") O [] (td_str td)) as (a & rest & Hs).
    unfold py_split. rewrite Hs. eexists. reflexivity.
  - destruct Hm as [Hm|Hm]; [subst; discriminate|].
    destruct (td_str_frac td Hm) as (p & q & Hp & Hq).
    rewrite Hq. change (str ".") with [46].
    rewrite (py_split_cut 46 [] p q Hp).
    destruct (split_go_cons [46] O [] q) as (a & rest & Hs).
    unfold py_split. rewrite Hs. eexists. reflexivity.
Qed.
Lemma pad_length (k : nat) (n : Z) : length (pad k n) = k.
Proof.
  revert n. induction k as [|k IH]; intros n; cbn [pad]; [done|].
  rewrite length_app, IH. cbn. lia.
Qed.

Lemma pad_digits (k : nat) (n : Z) : Forall (λ c, is_digit c = true) (pad k n).
Proof.
  revert n. induction k as [|k IH]; intros n; cbn [pad]; [constructor|].
  apply Forall_app_2; [apply IH|]. constructor; [|constructor].
  unfold is_digit, digit. pose proof (Z.mod_pos_bound n 10). apply andb_true_intro; lia.
Qed.

Lemma zdigits_go_digits (f : nat) (n : Z) :
  0 <= n -> Forall (λ c, is_digit c = true) (zdigits_go f n).
Proof.
  revert n. induction f as [|f IH]; intros n Hn; cbn [zdigits_go]; [constructor|].
  destruct (n <? 10) eqn:E.
  - apply Z.ltb_lt in E. constructor; [|constructor].
    unfold is_digit, digit. apply andb_true_intro; lia.
  - apply Forall_app_2; [apply IH; apply Z.div_pos; lia|].
    constructor; [|constructor]. unfold is_digit, digit.
    pose proof (Z.mod_pos_bound n 10). apply andb_true_intro; lia.
Qed.

Lemma digits_value_go (s : pystr) (acc : Z) :
  fold_left (λ acc c, acc * 10 + (c - 48)) s acc
  = acc * 10 ^ Z.of_nat (length s) + digits_value s.
Proof.
  unfold digits_value. revert acc. induction s as [|c s IH]; intros acc; cbn [fold_left length].
  - cbn. lia.
  - rewrite (IH (acc * 10 + (c - 48))), (IH (0 * 10 + (c - 48))).
    rewrite Nat2Z.inj_succ, Z.pow_succ_r by lia. ring.
Qed.

Lemma digits_value_app (a b : pystr) :
  digits_value (a ++ b) = digits_value a * 10 ^ Z.of_nat (length b) + digits_value b.
Proof.
  unfold digits_value at 1. rewrite fold_left_app. apply digits_value_go.
Qed.

Lemma digits_value_pad (k : nat) (n : Z) :
  0 <= n < 10 ^ Z.of_nat k -> digits_value (pad k n) = n.
Proof.
  revert n. induction k as [|k IH]; intros n Hn; cbn [pad].
  - cbn in Hn. cbn. lia.
  - rewrite digits_value_app, IH.
    + cbn. unfold digit. pose proof (Z.div_mod n 10). lia.
    + rewrite Nat2Z.inj_succ, Z.pow_succ_r in Hn by lia.
      split; [apply Z.div_pos; lia|]. apply Z.div_lt_upper_bound; lia.
Qed.

Lemma digits_value_zdigits_go (f : nat) (n : Z) :
  0 <= n < 10 ^ Z.of_nat f -> digits_value (zdigits_go f n) = n.
Proof.
  revert n. induction f as [|f IH]; intros n Hn; cbn [zdigits_go].
  - cbn in Hn. cbn. lia.
  - destruct (n <? 10) eqn:E.
    + cbn. unfold digit. lia.
    + rewrite digits_value_app, IH.
      * cbn. unfold digit. pose proof (Z.div_mod n 10). lia.
      * apply Z.ltb_ge in E. rewrite Nat2Z.inj_succ, Z.pow_succ_r in Hn by lia.
        split; [apply Z.div_pos; lia|]. apply Z.div_lt_upper_bound; lia.
Qed.

Lemma digits_value_zdigits (n : Z) : 0 <= n -> digits_value (zdigits n) = n.
Proof.
  intros Hn. apply digits_value_zdigits_go. split; [lia|].
  rewrite Nat2Z.inj_succ, Z2Nat.id by lia.
  pose proof (Z.pow_gt_lin_r 10 n ltac:(lia) Hn).
  rewrite Z.pow_succ_r by lia. lia.
Qed.

Lemma zdigits_nonempty (n : Z) : zdigits n <> [].
Proof.
  unfold zdigits. cbn [zdigits_go]. destruct (n <? 10); [discriminate|].
  intros H. apply app_eq_nil in H as [_ H]. discriminate.
Qed.

Lemma pad_add (a b : nat) (n : Z) :
  pad (a + b) n = pad a (n / 10 ^ Z.of_nat b) ++ pad b n.
Proof.
  revert n. induction b as [|b IH]; intros n.
  - rewrite Nat.add_0_r, Z.div_1_r, app_nil_r. reflexivity.
  - rewrite Nat.add_succ_r. cbn [pad]. rewrite IH, app_assoc.
    rewrite Z.div_div, Nat2Z.inj_succ, Z.pow_succ_r by (try apply Z.pow_pos_nonneg; lia).
    reflexivity.
Qed.

Lemma take3_pad6 (m : Z) : take 3 (pad 6 (m * 1000)) = pad 3 m.
Proof.
  change 6%nat with (3 + 3)%nat. rewrite pad_add.
  change (10 ^ Z.of_nat 3) with 1000. rewrite Z.div_mul by lia.
  pose proof (take_app_length (pad 3 m) (pad 3 (m * 1000))) as Ht.
  rewrite pad_length in Ht. exact Ht.
Qed.
Lemma nonempty_len (s : pystr) : (0 < length s)%nat -> s <> [].
Proof. destruct s; cbn; [lia|discriminate]. Qed.

Lemma py_index_0 {A} (a : A) (l : list A) : py_index (a :: l) 0 = Ok a.
Proof. reflexivity. Qed.

Lemma py_index_1 {A} (a b : A) (l : list A) : py_index (a :: b :: l) 1 = Ok b.
Proof. reflexivity. Qed.

Lemma py_index_2 {A} (a b c : A) (l : list A) : py_index (a :: b :: c :: l) 2 = Ok c.
Proof. reflexivity. Qed.

Lemma py_split_single (h : Z) (sep' x : pystr) :
  Forall (λ c, c <> h) x -> py_split x (h :: sep') = [x].
Proof.
  intros Hx. unfold py_split. rewrite <- (app_nil_r x) at 1.
  rewrite split_go_nohd by exact Hx. reflexivity.
Qed.

Lemma digits_ne (c : Z) (s : pystr) :
  Forall (λ d, is_digit d = true) s -> c < 48 \/ 57 < c -> Forall (λ d, d <> c) s.
Proof.
  intros Hs Hc. eapply Forall_impl; [exact Hs|]. intros d Hd. cbn in Hd.
  unfold is_digit in Hd. apply andb_true_iff in Hd as [H1 H2].
  apply Z.leb_le in H1. apply Z.leb_le in H2. lia.
Qed.

Lemma clock_ne (c : Z) (s : pystr) :
  Forall (λ d, d = 58 \/ is_digit d = true) s -> c < 48 -> Forall (λ d, d <> c) s.
Proof.
  intros Hs Hc. eapply Forall_impl; [exact Hs|]. intros d [Hd|Hd]; [lia|].
  unfold is_digit in Hd. apply andb_true_iff in Hd as [H1 _]. apply Z.leb_le in H1. lia.
Qed.

Lemma digits_clock (s : pystr) :
  Forall (λ d, is_digit d = true) s -> Forall (λ d, d = 58 \/ is_digit d = true) s.
Proof. intros Hs. eapply Forall_impl; [exact Hs|]. intros d Hd. right. exact Hd. Qed.

Lemma py_trunc_nonneg (t : Q) : (0 <= t)%Q -> py_trunc t = Qfloor t.
Proof.
  intros H. unfold py_trunc. replace (Qle_bool 0 t) with true by (symmetry; apply Qle_bool_iff; exact H).
  reflexivity.
Qed.
Lemma time_piece_chars (c : Z) (hms : pystr) (m : Z) :
  c < 48 -> c <> 44 ->
  Forall (λ d, d = 58 \/ is_digit d = true) hms ->
  Forall (λ d, d <> c) (str "0" ++ hms ++ str "," ++ pad 3 m).
Proof.
  intros Hc Hc' Hh.
  apply Forall_app_2; [constructor; [cbn; lia|constructor]|].
  apply Forall_app_2; [apply clock_ne; [exact Hh|lia]|].
  apply Forall_app_2; [constructor; [cbn; lia|constructor]|].
  apply digits_ne; [apply pad_digits|lia].
Qed.
Lemma no_break_time (hms : pystr) (m : Z) :
  Forall (λ c, c = 58 \/ is_digit c = true) hms ->
  no_break (str "0" ++ hms ++ str "," ++ pad 3 m).
Proof.
  intros Hh. unfold no_break.
  assert (Hd : forall c, c = 58 \/ is_digit c = true -> is_linebreak c = false).
  { intros c [->|Hc]; [reflexivity|]. unfold is_digit in Hc.
    apply andb_true_iff in Hc as [H1 H2]. apply Z.leb_le in H1. apply Z.leb_le in H2.
    unfold is_linebreak. repeat (apply orb_false_iff; split); try (apply Z.eqb_neq; lia);
      apply andb_false_iff; (left; apply Z.leb_gt; lia) || (right; apply Z.leb_gt; lia). }
  apply Forall_app_2; [repeat constructor|].
  apply Forall_app_2; [eapply Forall_impl; [exact Hh|exact Hd]|].
  apply Forall_app_2; [repeat constructor|].
  eapply Forall_impl; [apply digits_clock, pad_digits|exact Hd].
Qed.

Lemma td_micro (T m : Z) :
  ((T * 1000000 + m * 1000) mod 86400000000) mod 1000000 = (m * 1000) mod 1000000.
Proof. Z.div_mod_to_equations. lia. Qed.

Lemma td_of_ok (T m : Z) : 0 <= T -> 0 <= m ->
  T * 1000000 + m * 1000 < 86400000000 * 1000000000 ->
  td_of T m = Ok (T * 1000000 + m * 1000).
Proof.
  intros H0 H1 H2. unfold td_of.
  replace (Z.abs ((T * 1000000 + m * 1000) / 86400000000) <=? 999999999) with true; [reflexivity|].
  symmetry. apply Z.leb_le. rewrite Z.abs_eq by (apply Z.div_pos; lia).
  assert ((T * 1000000 + m * 1000) / 86400000000 < 1000000000); [|lia].
  apply Z.div_lt_upper_bound; lia.
Qed.

Lemma td_of_overflow (T m : Z) : 0 <= m -> 86400000000000 <= T -> td_of T m = Err OverflowError.
Proof.
  intros H0 H1. unfold td_of.
  replace (Z.abs ((T * 1000000 + m * 1000) / 86400000000) <=? 999999999) with false; [reflexivity|].
  symmetry. apply Z.leb_gt. rewrite Z.abs_eq by (apply Z.div_pos; lia).
  assert (1000000000 <= (T * 1000000 + m * 1000) / 86400000000); [|lia].
  apply Z.div_le_lower_bound; lia.
Qed.

Lemma td_str_whole (us : Z) :
  (us mod 86400000000) mod 1000000 = 0 -> Forall (λ c, c <> 46) (td_str us).
Proof.
  intros Hm. unfold td_str. cbv zeta. rewrite Hm. change (0 =? 0) with true. cbv iota.
  destruct (us / 86400000000 =? 0); [|destruct (negb _)]; nodot.
Qed.

Lemma float_int_nonneg (t : Q) : (0 <= t)%Q -> float_int (Fin t) = Ok (Qfloor t).
Proof. intros H. cbn [float_int]. rewrite py_trunc_nonneg by exact H. reflexivity. Qed.

Lemma int_char_ascii (s : pystr) : Forall (λ c, c < 127) s -> mapM int_char s = Some s.
Proof.
  induction 1 as [|c s Hc Hs IH]; [reflexivity|].
  change (mapM int_char (c :: s)) with (y ← int_char c; k ← mapM int_char s; mret (y :: k)).
  rewrite IH. unfold int_char.
  replace (c <? 127) with true by (symmetry; apply Z.ltb_lt; exact Hc). reflexivity.
Qed.

Lemma more_digits_all (s : pystr) : Forall (λ c, is_digit c = true) s -> more_digits s = (s, []).
Proof. induction 1 as [|c s Hc Hs IH]; [reflexivity|]. cbn [more_digits]. rewrite Hc, IH. reflexivity. Qed.

Lemma py_int_digits (s : pystr) :
  s <> [] -> (length s <= 4300)%nat -> Forall (λ c, is_digit c = true) s ->
  py_int s = Ok (digits_value s).
Proof.
  intros Hne Hlen Hd. unfold py_int.
  rewrite int_char_ascii.
  2:{ eapply Forall_impl; [exact Hd|]. intros c Hc. unfold is_digit in Hc.
      apply andb_true_iff in Hc as [_ H]. apply Z.leb_le in H. lia. }
  destruct s as [|c s]; [done|]. inversion Hd as [|? ? Hc Hs]; subst.
  assert (Hc' := Hc). unfold is_digit in Hc'. apply andb_true_iff in Hc' as [H1 H2].
  apply Z.leb_le in H1. apply Z.leb_le in H2.
  assert (Hsp : ascii_space c = false).
  { unfold ascii_space. rewrite (proj2 (Z.eqb_neq c 32)), (proj2 (Z.leb_gt c 13)) by lia.
    rewrite andb_false_r. reflexivity. }
  cbn [skip_ascii_space]. rewrite Hsp.
  rewrite (proj2 (Z.eqb_neq c 45)), (proj2 (Z.eqb_neq c 43)) by lia.
  rewrite Hc, more_digits_all by exact Hs. cbn [forallb andb].
  replace (length (c :: s) <=? 4300)%nat with true by (symmetry; apply Nat.leb_le; exact Hlen).
  rewrite Z.mul_1_l. reflexivity.
Qed.

Lemma zdigits_go_length (f : nat) (n : Z) : (length (zdigits_go f n) <= f)%nat.
Proof.
  revert n. induction f as [|f IH]; intros n; cbn [zdigits_go]; [cbn; lia|].
  destruct (n <? 10); [cbn; lia|]. rewrite length_app. specialize (IH (n / 10)). cbn. lia.
Qed.

Lemma time_str_roundtrip (T m : Z) :
  0 <= T < 86400 -> 0 <= m <= 999 ->
  exists hms, time_str m (T * 1000000 + m * 1000) = Ok (str "0" ++ hms ++ str "," ++ pad 3 m) /\
    Forall (λ c, c = 58 \/ is_digit c = true) hms /\
    forall q, parse_hms (str "0" ++ hms) q = (x ← int_float T; Ok (fadd x (fdiv q 100))).
Proof.
  intros HT Hm.
  set (hh := T / 60 / 60). set (mm := (T / 60) mod 60). set (ss := T mod 60).
  assert (Hhh : 0 <= hh < 24) by (unfold hh; Z.div_mod_to_equations; lia).
  assert (Hmm : 0 <= mm < 60) by (unfold mm; Z.div_mod_to_equations; lia).
  assert (Hss : 0 <= ss < 60) by (unfold ss; Z.div_mod_to_equations; lia).
  assert (Hsum : hh * 3600 + mm * 60 + ss = T)
    by (unfold hh, mm, ss; Z.div_mod_to_equations; lia).
  exists (zdigits hh ++ str ":" ++ pad 2 mm ++ str ":" ++ pad 2 ss).
  assert (Hclock : Forall (λ c, c = 58 \/ is_digit c = true)
                     (zdigits hh ++ str ":" ++ pad 2 mm ++ str ":" ++ pad 2 ss)).
  { apply Forall_app_2; [apply digits_clock, zdigits_go_digits; lia|].
    apply Forall_app_2; [constructor; [left; reflexivity|constructor]|].
    apply Forall_app_2; [apply digits_clock, pad_digits|].
    apply Forall_app_2; [constructor; [left; reflexivity|constructor]|].
    apply digits_clock, pad_digits. }
  set (us := T * 1000000 + m * 1000).
  assert (Htd : td_str us =
                (zdigits hh ++ str ":" ++ pad 2 mm ++ str ":" ++ pad 2 ss) ++
                (if m =? 0 then [] else str "." ++ pad 6 (m * 1000))).
  { unfold td_str. cbv zeta.
    replace (us mod 86400000000) with us
      by (symmetry; apply Z.mod_small; unfold us; lia).
    replace (us / 86400000000) with 0 by (unfold us; Z.div_mod_to_equations; lia).
    replace (us / 1000000) with T by (unfold us; Z.div_mod_to_equations; lia).
    replace (us mod 1000000) with (m * 1000) by (unfold us; Z.div_mod_to_equations; lia).
    change (0 =? 0) with true. cbv iota.
    unfold fmt_d. fold hh mm ss. replace (hh <? 0) with false by (symmetry; apply Z.ltb_ge; lia).
    destruct (m =? 0) eqn:E.
    - apply Z.eqb_eq in E. subst m. cbn [Z.mul Z.eqb]. cbv iota. rewrite app_nil_r. reflexivity.
    - replace (m * 1000 =? 0) with false by (symmetry; apply Z.eqb_neq; apply Z.eqb_neq in E; lia).
      reflexivity. }
  split; [|split; [exact Hclock|]].
  - unfold time_str. rewrite Htd. change (str ".") with [46].
    assert (Hnd : Forall (λ c, c <> 46) (zdigits hh ++ str ":" ++ pad 2 mm ++ str ":" ++ pad 2 ss))
      by (apply clock_ne; [exact Hclock|lia]).
    destruct (m =? 0) eqn:E.
    + apply Z.eqb_eq in E. subst m. rewrite app_nil_r, py_split_single by exact Hnd.
      reflexivity.
    + rewrite (py_split_cut 46 [] _ _ Hnd), py_split_single by (apply pad_nodot).
      rewrite <- take3_pad6. reflexivity.
  - intros q. unfold parse_hms. change (str ":") with [58].
    rewrite app_assoc.
    assert (H0 : Forall (λ d, is_digit d = true) (str "0" ++ zdigits hh)).
    { apply Forall_app_2; [repeat constructor|]. apply zdigits_go_digits. lia. }
    rewrite (py_split_cut 58 [] _ _ (digits_ne 58 _ H0 ltac:(lia)) ).
    rewrite (py_split_cut 58 [] _ _ (digits_ne 58 _ (pad_digits 2 mm) ltac:(lia)) ).
    rewrite (py_split_single 58 [] _ (digits_ne 58 _ (pad_digits 2 ss) ltac:(lia)) ).
    assert (Hl : (length (str "0" ++ zdigits hh) <= 4300)%nat).
    { rewrite length_app. pose proof (zdigits_go_length (S (Z.to_nat hh)) hh).
      unfold zdigits. cbn [length str list_ascii_of_string map]. lia. }
    rewrite py_index_0. cbn [mbind result_bind].
    rewrite (py_int_digits (str "0" ++ zdigits hh)
               (nonempty_len (str "0" ++ zdigits hh) ltac:(rewrite length_app; cbn [length str list_ascii_of_string map]; lia)) Hl H0). cbn [mbind result_bind].
    rewrite py_index_1. cbn [mbind result_bind].
    rewrite (py_int_digits _ (nonempty_len (pad 2 mm) ltac:(rewrite pad_length; lia))
               ltac:(rewrite pad_length; lia) (pad_digits 2 mm)).
    cbn [mbind result_bind].
    rewrite py_index_2. cbn [mbind result_bind].
    rewrite (py_int_digits _ (nonempty_len (pad 2 ss) ltac:(rewrite pad_length; lia))
               ltac:(rewrite pad_length; lia) (pad_digits 2 ss)).
    cbn [mbind result_bind].
    rewrite digits_value_app, digits_value_zdigits by lia.
    rewrite !digits_value_pad by (cbn; lia).
    change (digits_value (str "0")) with 0. rewrite Z.mul_0_l, Z.add_0_l, Hsum.
    reflexivity.
Qed.

Lemma block_parse (src tgt : lang) (idx text hms1 hms2 : pystr) (T1 m1 T2 m2 : Z)
    (f1 f2 x1 x2 : float) :
  0 <= m1 <= 999 -> 0 <= m2 <= 999 ->
  Forall (λ c, c = 58 \/ is_digit c = true) hms1 ->
  Forall (λ c, c = 58 \/ is_digit c = true) hms2 ->
  (forall q, parse_hms (str "0" ++ hms1) q = (x ← int_float T1; Ok (fadd x (fdiv q 100)))) ->
  (forall q, parse_hms (str "0" ++ hms2) q = (x ← int_float T2; Ok (fadd x (fdiv q 100)))) ->
  int_truediv m1 10 = Ok f1 -> int_truediv m2 10 = Ok f2 ->
  int_float T1 = Ok x1 -> int_float T2 = Ok x2 ->
  exists s', seg_of_block src tgt
      [idx; (str "0" ++ hms1 ++ str "," ++ pad 3 m1) ++ str " --> " ++
            (str "0" ++ hms2 ++ str "," ++ pad 3 m2); text] = Ok s' /\
    start s' = fadd x1 (fdiv f1 100) /\ end_ s' = fadd x2 (fdiv f2 100).
Proof.
  intros Hm1 Hm2 Hc1 Hc2 Hp1 Hp2 Hf1 Hf2 Hx1 Hx2. unfold seg_of_block.
  rewrite py_index_2. cbn [mbind result_bind].
  rewrite py_index_1. cbn [mbind result_bind].
  change (str " --> ") with (32 :: str "--> ").
  rewrite (py_split_cut 32 (str "--> ") _ _ (time_piece_chars 32 hms1 m1 ltac:(lia) ltac:(lia) Hc1)).
  rewrite (py_split_single 32 (str "--> ") _ (time_piece_chars 32 hms2 m2 ltac:(lia) ltac:(lia) Hc2)).
  rewrite py_index_0. cbn [mbind result_bind].
  rewrite py_index_1. cbn [mbind result_bind].
  assert (Hcut : forall hms m, Forall (λ c, c = 58 \/ is_digit c = true) hms ->
            py_split (str "0" ++ hms ++ str "," ++ pad 3 m) (str ",") = [str "0" ++ hms; pad 3 m]).
  { intros hms m Hh. rewrite app_assoc. change (str ",") with [44].
    rewrite (py_split_cut 44 [] _ _).
    - rewrite py_split_single; [reflexivity|]. apply digits_ne; [apply pad_digits|lia].
    - apply Forall_app_2; [constructor; [cbn; lia|constructor]|].
      apply clock_ne; [exact Hh|lia]. }
  rewrite (Hcut hms1 m1 Hc1), (Hcut hms2 m2 Hc2).
  rewrite ?py_index_0, ?py_index_1. cbn [mbind result_bind].
  rewrite (py_int_digits (pad 3 m1) (nonempty_len (pad 3 m1) ltac:(rewrite pad_length; lia))
             ltac:(rewrite pad_length; lia) (pad_digits 3 m1)).
  rewrite (py_int_digits (pad 3 m2) (nonempty_len (pad 3 m2) ltac:(rewrite pad_length; lia))
             ltac:(rewrite pad_length; lia) (pad_digits 3 m2)).
  cbn [mbind result_bind].
  rewrite !digits_value_pad by (cbn; lia).
  rewrite Hf1. cbn [mbind result_bind]. rewrite Hf2. cbn [mbind result_bind].
  rewrite Hp1, Hp2, Hx1, Hx2. cbn [mbind result_bind].
  eexists. split; [reflexivity|]. split; reflexivity.
Qed.

Lemma Qfloor_bounds (t : Q) (lo : Z) (hi : Q) : (inject_Z lo <= t)%Q -> (t < hi)%Q ->
  lo <= Qfloor t /\ (inject_Z (Qfloor t) < hi)%Q.
Proof.
  intros H1 H2. pose proof (Qfloor_le t). split; [|lra].
  pose proof (Qfloor_resp_le _ _ H1) as H3. rewrite Qfloor_Z in H3. exact H3.
Qed.

Lemma micro_ne (m : Z) : 0 < m < 1000 \/ 1000 < m < 2000 -> (m * 1000) mod 1000000 <> 0.
Proof. intros H. Z.div_mod_to_equations. nia. Qed.

(** The record constructor on a record whose start and end are
    non-negative and below [86399999999999]: accepted, unless the nudge
    reaches a whole second. *)
Lemma seg_of_record_ok (src tgt : lang) (r : raw_record) (a b : Q) :
  r_start r = Fin a -> r_end r = Fin b -> (0 <= a)%Q -> (0 <= b)%Q ->
  (a < 86399999999999)%Q -> (b < 86399999999999)%Q -> ~ nudge_overflow r ->
  exists s, seg_of_record src tgt r = Ok s /\
    start s = r_start r /\ end_ s = r_end r /\ source_text s = lstrip (r_text r).
Proof.
  intros Ha Hb Ha0 Hb0 Ha1 Hb1 Hno.
  destruct (ms_of_le999 a Ha0 ltac:(change (Qpower 2 53) with 9007199254740992%Q; lra)) as (ms1 & Hm1 & Hr1).
  destruct (ms_of_le999 b Hb0 ltac:(change (Qpower 2 53) with 9007199254740992%Q; lra)) as (ms2 & Hm2 & Hr2).
  destruct (Qfloor_bounds a 0 86399999999999 ltac:(exact Ha0) Ha1) as [HA0 HA1].
  destruct (Qfloor_bounds b 0 86399999999999 ltac:(exact Hb0) Hb1) as [HB0 HB1].
  change 86399999999999%Q with (inject_Z 86399999999999) in HA1, HB1.
  rewrite <- Zlt_Qlt in HA1, HB1.
  set (A := Qfloor a) in *. set (B := Qfloor b) in *.
  assert (Hfa : float_int (r_start r) = Ok A) by (rewrite Ha; apply float_int_nonneg; exact Ha0).
  assert (Hfb : float_int (r_end r) = Ok B) by (rewrite Hb; apply float_int_nonneg; exact Hb0).
  rewrite <- Ha in Hm1. rewrite <- Hb in Hm2.
  set (e := if ms1 =? ms2 then (if A =? B then ms2 + 500 else ms2) else ms2).
  assert (He : 0 <= e <= 1499 /\ e <> 1000).
  { unfold e. destruct (Z.eqb_spec ms1 ms2); [destruct (Z.eqb_spec A B)|]; [|lia..].
    split; [lia|]. intros Hx. apply Hno. unfold nudge_overflow.
    rewrite Hm1, Hm2, Hfa, Hfb. subst. repeat split; f_equal; lia. }
  unfold seg_of_record. rewrite Hm1, Hm2. cbn [mbind result_bind].
  assert (Hem : (if ms1 =? ms2 then s_int ← float_int (r_start r); e_int ← float_int (r_end r);
                   Ok (if s_int =? e_int then ms2 + 500 else ms2) else Ok ms2) = Ok e).
  { unfold e. destruct (ms1 =? ms2); [|reflexivity]. rewrite Hfa, Hfb. reflexivity. }
  rewrite Hem, Hfa. cbn [mbind result_bind].
  rewrite td_of_ok by lia. cbn [mbind result_bind]. rewrite Hfb. cbn [mbind result_bind].
  rewrite td_of_ok by lia. cbn [mbind result_bind].
  destruct (time_str_ok ms1 (A * 1000000 + ms1 * 1000)) as [x Hx].
  { rewrite td_micro. destruct (Z.eq_dec ms1 0) as [E|E]; [left; exact E|right].
    apply micro_ne. lia. }
  destruct (time_str_ok e (B * 1000000 + e * 1000)) as [y Hy].
  { rewrite td_micro. destruct (Z.eq_dec e 0) as [E|E]; [left; exact E|right].
    apply micro_ne. lia. }
  rewrite Hx. cbn [mbind result_bind]. rewrite Hy. cbn [mbind result_bind].
  eexists. repeat split.
Qed.

(** When the nudge reaches a whole second, [split('.')[1]] raises. *)
Lemma seg_of_record_nudge (src tgt : lang) (r : raw_record) (a b : Q) :
  r_start r = Fin a -> r_end r = Fin b -> (0 <= a)%Q -> (0 <= b)%Q ->
  (a < 86399999999999)%Q -> (b < 86399999999999)%Q -> nudge_overflow r ->
  seg_of_record src tgt r = Err IndexError.
Proof.
  intros Ha Hb Ha0 Hb0 Ha1 Hb1 (Hm1 & Hm2 & Hf).
  destruct (Qfloor_bounds a 0 86399999999999 ltac:(exact Ha0) Ha1) as [HA0 HA1].
  destruct (Qfloor_bounds b 0 86399999999999 ltac:(exact Hb0) Hb1) as [HB0 HB1].
  change 86399999999999%Q with (inject_Z 86399999999999) in HA1, HB1.
  rewrite <- Zlt_Qlt in HA1, HB1.
  assert (Hfa : float_int (r_start r) = Ok (Qfloor a)) by (rewrite Ha; apply float_int_nonneg; exact Ha0).
  assert (Hfb : float_int (r_end r) = Ok (Qfloor b)) by (rewrite Hb; apply float_int_nonneg; exact Hb0).
  assert (HAB : Qfloor a = Qfloor b) by congruence.
  unfold seg_of_record. rewrite Hm1, Hm2. cbn [mbind result_bind Z.eqb Pos.eqb]. cbv iota.
  rewrite Hfa, Hfb. cbn [mbind result_bind]. rewrite HAB, Z.eqb_refl.
  rewrite td_of_ok by lia. cbn [mbind result_bind].
  rewrite td_of_ok by lia. cbn [mbind result_bind].
  destruct (time_str_ok 500 (Qfloor b * 1000000 + 500 * 1000)) as [x Hx].
  { right. rewrite td_micro. apply micro_ne. lia. }
  rewrite Hx. cbn [mbind result_bind].
  unfold time_str. cbn [Z.add Z.eqb Pos.eqb]. cbv iota.
  change (str ".") with [46].
  rewrite py_split_single by (apply td_str_whole; Z.div_mod_to_equations; lia).
  reflexivity.
Qed.

(** From [10 ^ 9] days on, [timedelta] raises [OverflowError]. *)
Lemma seg_of_record_overflow (src tgt : lang) (r : raw_record) (a b : Q) :
  r_start r = Fin a -> r_end r = Fin b -> (0 <= b)%Q ->
  (86400000000000 <= a)%Q -> (a < Qpower 2 1000)%Q -> (b < Qpower 2 1000)%Q ->
  seg_of_record src tgt r = Err OverflowError.
Proof.
  intros Ha Hb Hb0 Ha1 Ha2 Hb2.
  assert (Ha0 : (0 <= a)%Q) by lra.
  destruct (ms_of_le1000 a Ha0 Ha2) as (ms1 & Hm1 & Hr1).
  destruct (ms_of_le1000 b Hb0 Hb2) as (ms2 & Hm2 & Hr2).
  pose proof (Qfloor_resp_le _ _ Ha1) as HA. change (Qfloor 86400000000000) with 86400000000000 in HA.
  assert (Hfa : float_int (r_start r) = Ok (Qfloor a)) by (rewrite Ha; apply float_int_nonneg; exact Ha0).
  assert (Hfb : float_int (r_end r) = Ok (Qfloor b)) by (rewrite Hb; apply float_int_nonneg; exact Hb0).
  rewrite <- Ha in Hm1. rewrite <- Hb in Hm2.
  unfold seg_of_record. rewrite Hm1, Hm2. cbn [mbind result_bind].
  destruct (ms1 =? ms2); rewrite ?Hfa, ?Hfb; cbn [mbind result_bind];
    rewrite (td_of_overflow (Qfloor a) ms1) by lia; reflexivity.
Qed.

(** One record with double times in [0, 86400) and no nudge: its duration
    string parses back through the block constructor to times within a
    millisecond and a nanosecond below and a nanosecond above the record's. *)
Lemma record_roundtrip (src tgt : lang) (r : raw_record) (a b : Q) :
  r_start r = Fin a -> r_end r = Fin b -> is_double a -> is_double b ->
  (0 <= a)%Q -> (a < 86400)%Q -> (0 <= b)%Q -> (b < 86400)%Q -> ~ nudged r ->
  exists s, seg_of_record src tgt r = Ok s /\ no_break (duration s) /\
    source_text s = lstrip (r_text r) /\
    forall idx text, exists t, seg_of_block src tgt [idx; duration s; text] = Ok t /\
      near_ms (start t) (r_start r) /\ near_ms (end_ t) (r_end r).
Proof.
  intros Ha Hb Hda Hdb Ha0 Ha1 Hb0 Hb1 Hnn.
  destruct (ms_of_double a Hda Ha0 Ha1) as (ms1 & Hm1 & Hr1 & Hc1).
  destruct (ms_of_double b Hdb Hb0 Hb1) as (ms2 & Hm2 & Hr2 & Hc2).
  destruct (Qfloor_bounds a 0 86400 ltac:(exact Ha0) Ha1) as [HA0 HA1].
  destruct (Qfloor_bounds b 0 86400 ltac:(exact Hb0) Hb1) as [HB0 HB1].
  change 86400%Q with (inject_Z 86400) in HA1, HB1. rewrite <- Zlt_Qlt in HA1, HB1.
  set (A := Qfloor a) in *. set (B := Qfloor b) in *.
  assert (Hfa : float_int (r_start r) = Ok A) by (rewrite Ha; apply float_int_nonneg; exact Ha0).
  assert (Hfb : float_int (r_end r) = Ok B) by (rewrite Hb; apply float_int_nonneg; exact Hb0).
  rewrite <- Ha in Hm1. rewrite <- Hb in Hm2.
  destruct (time_str_roundtrip A ms1 ltac:(lia) Hr1) as (hms1 & Ht1 & Hcl1 & Hp1).
  destruct (time_str_roundtrip B ms2 ltac:(lia) Hr2) as (hms2 & Ht2 & Hcl2 & Hp2).
  assert (Hem : (if ms1 =? ms2 then s_int ← float_int (r_start r); e_int ← float_int (r_end r);
                   Ok (if s_int =? e_int then ms2 + 500 else ms2) else Ok ms2) = Ok ms2).
  { destruct (Z.eqb_spec ms1 ms2); [|reflexivity]. rewrite Hfa, Hfb. cbn [mbind result_bind].
    destruct (Z.eqb_spec A B); [|reflexivity].
    exfalso. apply Hnn. split; congruence. }
  unfold seg_of_record. rewrite Hm1, Hm2. cbn [mbind result_bind].
  rewrite Hem, Hfa. cbn [mbind result_bind].
  rewrite td_of_ok by lia. cbn [mbind result_bind]. rewrite Hfb. cbn [mbind result_bind].
  rewrite td_of_ok by lia. cbn [mbind result_bind].
  rewrite Ht1, Ht2. cbn [mbind result_bind].
  eexists. split; [reflexivity|]. cbn [duration source_text].
  split.
  { apply Forall_app_2; [apply no_break_time; exact Hcl1|].
    apply Forall_app_2; [repeat constructor|apply no_break_time; exact Hcl2]. }
  split; [reflexivity|]. intros idx text.
  destruct (parse_close A ms1 ltac:(lia) Hr1) as (q1 & x1 & p1 & Hq1 & Hx1 & Hp1' & Hb1').
  destruct (parse_close B ms2 ltac:(lia) Hr2) as (q2 & x2 & p2 & Hq2 & Hx2 & Hp2' & Hb2').
  destruct (block_parse src tgt idx text hms1 hms2 A ms1 B ms2 _ _ _ _ Hr1 Hr2 Hcl1 Hcl2 Hp1 Hp2
              Hq1 Hq2 Hx1 Hx2) as (t & Hbt & Hst & Hen).
  exists t. split; [exact Hbt|].
  rewrite Hst, Hen, Hp1', Hp2', Ha, Hb. cbn [near_ms].
  apply Qabs_Qle_condition in Hb1', Hb2'.
  assert (E1 : (inject_Z ms1 / 1000 == inject_Z ms1 * (1#1000))%Q) by (field; discriminate).
  assert (E2 : (inject_Z ms2 / 1000 == inject_Z ms2 * (1#1000))%Q) by (field; discriminate).
  rewrite E1 in Hb1'. rewrite E2 in Hb2'.
  split; split; lra.
Qed.




(** C7 (as the code has it): for a record whose start and end are doubles
    with [0 <= start < end < 86400] and on which the +500 ms nudge does not
    fire (the millisecond parts differ or the whole seconds differ), the
    duration string built by the record constructor parses back through
    the block constructor to a start and an end each less than 1 ns above
    the original and at most 1 ms and 1 ns below it. *)
Theorem duration_roundtrip (src tgt : lang) (idx : pystr) (r : raw_record) (a b : Q) :
  r_start r = Fin a -> r_end r = Fin b -> is_double a -> is_double b ->
  (0 <= a)%Q -> (a < b)%Q -> (b < 86400)%Q -> ~ nudged r ->
  exists s s', seg_of_record src tgt r = Ok s /\
    seg_of_block src tgt [idx; duration s; source_text s] = Ok s' /\
    near_ms (start s') (r_start r) /\ near_ms (end_ s') (r_end r).
Proof.
  intros Ha Hb Hda Hdb Ha0 Hab Hb1 Hnn.
  destruct (record_roundtrip src tgt r a b Ha Hb Hda Hdb Ha0 ltac:(lra) ltac:(lra) Hb1 Hnn)
    as (s & Hs & _ & _ & Hblk).
  destruct (Hblk idx (source_text s)) as (t & Ht & Hst & Hen).
  exists s, t. repeat split; assumption.
Qed.

Lemma duration_roundtrip_witness :
  r_start (rec_en (5#4) (29787#8) "hi") = Fin (5#4) /\
  r_end (rec_en (5#4) (29787#8) "hi") = Fin (29787#8) /\
  is_double (5#4) /\ is_double (29787#8) /\
  (0 <= 5#4)%Q /\ (5#4 < 29787#8)%Q /\ (29787#8 < 86400)%Q /\
  ~ nudged (rec_en (5#4) (29787#8) "hi") /\
  exists s s', seg_of_record EN EN (rec_en (5#4) (29787#8) "hi") = Ok s /\
    seg_of_block EN EN [str "1"; duration s; source_text s] = Ok s' /\
    near_ms (start s') (5#4) /\ near_ms (end_ s') (29787#8).
Proof.
  assert (H1 : r_start (rec_en (5#4) (29787#8) "hi") = Fin (5#4)) by reflexivity.
  assert (H2 : r_end (rec_en (5#4) (29787#8) "hi") = Fin (29787#8)) by reflexivity.
  assert (H3 : is_double (5#4)) by (vm_compute; reflexivity).
  assert (H4 : is_double (29787#8)) by (vm_compute; reflexivity).
  assert (H5 : (0 <= 5#4)%Q) by (vm_compute; discriminate).
  assert (H6 : (5#4 < 29787#8)%Q) by (vm_compute; reflexivity).
  assert (H7 : (29787#8 < 86400)%Q) by (vm_compute; reflexivity).
  assert (H8 : ~ nudged (rec_en (5#4) (29787#8) "hi")).
  { intros [H _]. vm_compute in H. discriminate. }
  do 8 (split; [assumption|]).
  exact (duration_roundtrip EN EN (str "1") (rec_en (5#4) (29787#8) "hi") (5#4) (29787#8)
           H1 H2 H3 H4 H5 H6 H7 H8).
Defined.

(** C7 as stated fails: the parsed time is not always the original
    truncated to the millisecond, nor always within 1 ms of it.  For the
    end 0.29 the millisecond part is 289 and the parsed end 0.289 lies more
    than 1 ms below 0.29; for the end 1.39 the parsed end
    1.3900000000000001 lies above 1.39.  For the record [0 --> 1/1024] the
    nudge fires and the end parses back as 0.5 s.  For [86400 --> 86401]
    the time string is ["01 day, 0:00:00,000"] and the block constructor
    raises [ValueError] on [int(" 0:00:00")]. *)
Lemma duration_roundtrip_limits :
  (is_double (5224175567749775 # 18014398509481984) /\
   exists s s', seg_of_record EN EN (rec_en 0 (5224175567749775 # 18014398509481984) "hi") = Ok s /\
     seg_of_block EN EN [str "1"; duration s; source_text s] = Ok s' /\
     end_ s' = Fin (5206161169240293 # 18014398509481984) /\
     ((5206161169240293 # 18014398509481984) + (1#1000) < 5224175567749775 # 18014398509481984)%Q) /\
  (is_double (6260003482044989 # 4503599627370496) /\
   exists s s', seg_of_record EN EN (rec_en 0 (6260003482044989 # 4503599627370496) "hi") = Ok s /\
     seg_of_block EN EN [str "1"; duration s; source_text s] = Ok s' /\
     end_ s' = Fin (3130001741022495 # 2251799813685248) /\
     (6260003482044989 # 4503599627370496 < 3130001741022495 # 2251799813685248)%Q) /\
  ((0 < 1#1024)%Q /\
   exists s s', seg_of_record EN EN (rec_en 0 (1#1024) "hi") = Ok s /\
     seg_of_block EN EN [str "1"; duration s; source_text s] = Ok s' /\
     end_ s' = Fin (1#2) /\ ((1#1024) + (1#1000) < 1#2)%Q) /\
  ((86400 < 86401)%Q /\
   exists s, seg_of_record EN EN (rec_en 86400 86401 "hi") = Ok s /\
     seg_of_block EN EN [str "1"; duration s; source_text s] = Err ValueError).
Proof.
  split; [|split; [|split]].
  - split; [vm_compute; reflexivity|]. do 2 eexists.
    split; [vm_compute; reflexivity|]. split; [vm_compute; reflexivity|].
    split; vm_compute; reflexivity.
  - split; [vm_compute; reflexivity|]. do 2 eexists.
    split; [vm_compute; reflexivity|]. split; [vm_compute; reflexivity|].
    split; vm_compute; reflexivity.
  - split; [vm_compute; reflexivity|]. do 2 eexists.
    split; [vm_compute; reflexivity|]. split; [vm_compute; reflexivity|].
    split; vm_compute; reflexivity.
  - split; [vm_compute; reflexivity|]. eexists.
    split; [vm_compute; reflexivity|]. vm_compute. reflexivity.
Qed.

(* ------------------------------------------------------------------ *)
(** ** Further properties of the code *)

(** *** SrtSegment.remove_trans_punc and SrtScript.remove_trans_punctuation *)

Lemma py_replace_char (p : Z) (t : pystr) :
  py_replace t [p] (str " ") = map (λ c, if c =? p then 32 else c) t.
Proof.
  unfold py_replace. induction t as [|c t IH]; [reflexivity|].
  cbn [replace_go starts_with length pred]. rewrite andb_true_r.
  rewrite Z.eqb_sym, IH. cbn [map]. destruct (c =? p); reflexivity.
Qed.

Lemma fold_punc (ps : pystr) (t : pystr) :
  fold_left (λ t punc, py_replace t [punc] (str " ")) ps t =
  map (punc_map ps) t.
Proof.
  revert t. induction ps as [|p ps IH]; intros t; cbn [fold_left].
  - unfold punc_map. induction t as [|c t IHt]; [reflexivity|].
    cbn [map]. rewrite <- IHt. case_bool_decide as H; [set_solver|reflexivity].
  - rewrite IH, py_replace_char, map_map. apply map_ext. intros c.
    unfold punc_map.
    destruct (Z.eqb_spec c p) as [->|Hne];
      repeat case_bool_decide; try reflexivity; set_solver.
Qed.

(** X1: [remove_trans_punc] replaces every character of the translation
    that belongs to the punctuation string of the target language by a
    space, one character at a time, and changes nothing else of the
    segment. *)
Theorem remove_trans_punc_map (seg : SrtSegment) :
  remove_trans_punc seg =
  with_translation seg (map (punc_map (punc_str (tgt_lang seg))) (translation seg)).
Proof. unfold remove_trans_punc. rewrite fold_punc. reflexivity. Qed.

Lemma punc_map_idem ps c : punc_map ps (punc_map ps c) = punc_map ps c.
Proof.
  unfold punc_map. destruct (bool_decide (c ∈ ps)) eqn:E; [|rewrite E; reflexivity].
  destruct (bool_decide (32 ∈ ps)); reflexivity.
Qed.

(** X2: [remove_trans_punctuation] is idempotent: a second pass over the
    segments changes nothing. *)
Theorem remove_trans_punctuation_idem (segs : list SrtSegment) :
  remove_trans_punctuation (remove_trans_punctuation segs) = remove_trans_punctuation segs.
Proof.
  unfold remove_trans_punctuation. rewrite map_map. apply map_ext. intros s.
  unfold remove_trans_punc. rewrite !fold_punc. destruct s; cbn. unfold with_translation; cbn.
  rewrite map_map. f_equal. apply map_ext. intros c. apply punc_map_idem.
Qed.

(** *** SrtScript.merge_segs and form_whole_sentence *)

Lemma py_index_ok_iff {A} (l : list A) (i : Z) :
  (exists x, py_index l i = Ok x) <-> in_bounds l i.
Proof.
  unfold py_index, in_bounds. split.
  - intros [x Hx]. revert Hx. set (j := if i <? 0 then i + Z.of_nat (length l) else i).
    assert (Hji : (i < 0 /\ j = i + Z.of_nat (length l)) \/ (0 <= i /\ j = i))
      by (subst j; destruct (Z.ltb_spec i 0); lia).
    clearbody j. destruct (Z.ltb_spec j 0); [discriminate|].
    destruct (l !! _) eqn:E; [|discriminate]. intros _. apply lookup_lt_Some in E. lia.
  - intros Hb. set (j := if i <? 0 then i + Z.of_nat (length l) else i).
    assert (Hj : 0 <= j < Z.of_nat (length l)) by (subst j; destruct (Z.ltb_spec i 0); lia).
    destruct (Z.ltb_spec j 0); [lia|].
    destruct (lookup_lt_is_Some_2 l (Z.to_nat j)) as [x Hx]; [lia|].
    rewrite Hx. eauto.
Qed.

Lemma py_index_err_iff {A} (l : list A) (i : Z) :
  py_index l i = Err IndexError <-> ~ in_bounds l i.
Proof.
  rewrite <- py_index_ok_iff. split.
  - intros H [x Hx]. congruence.
  - intros H. destruct (py_index l i) as [x|e] eqn:E; [exfalso; eauto|].
    apply py_index_err in E. congruence.
Qed.

Lemma fold_add_err (segs : list SrtSegment) (rest : list Z) (e : exn) :
  fold_left (λ acc i, r ← acc; s ← py_index segs i; Ok (seg_add r s)) rest (Err e) = Err e.
Proof. induction rest; cbn; auto. Qed.

Lemma merge_segs_fold (segs : list SrtSegment) (i0 : Z) (rest : list Z) :
  merge_segs segs (i0 :: rest) =
    s0 ← py_index segs i0; ss ← map_res (py_index segs) rest;
    Ok (fold_left seg_add ss s0).
Proof.
  cbn [merge_segs]. destruct (py_index segs i0) as [s0|e]; cbn [mbind result_bind]; [|reflexivity].
  revert s0. induction rest as [|i rest IH]; intros s0; [reflexivity|].
  cbn [fold_left map_res]. destruct (py_index segs i) as [s|e]; cbn [mbind result_bind].
  - rewrite IH. destruct (map_res _ rest); reflexivity.
  - apply fold_add_err.
Qed.

Lemma map_res_py_index (segs : list SrtSegment) (idx : list Z) :
  Forall (in_bounds segs) idx -> exists ss, map_res (py_index segs) idx = Ok ss /\ length ss = length idx.
Proof.
  induction 1 as [|i idx Hi _ [ss [Hss Hl]]]; [exists []; auto|].
  apply py_index_ok_iff in Hi as [s Hs]. exists (s :: ss). cbn. rewrite Hs, Hss. auto.
Qed.

Lemma map_res_py_index_err (segs : list SrtSegment) (idx : list Z) (e : exn) :
  map_res (py_index segs) idx = Err e -> e = IndexError /\ Exists (λ i, ~ in_bounds segs i) idx.
Proof.
  induction idx as [|i idx IH]; cbn; [discriminate|].
  destruct (py_index segs i) as [s|e'] eqn:E; cbn [mbind result_bind].
  - destruct (map_res _ idx) eqn:E2; cbn [mbind result_bind]; [discriminate|].
    intros [= <-]. destruct (IH eq_refl). split; [auto|]. right. auto.
  - intros [= <-]. pose proof (py_index_err _ _ _ E) as ->. split; [reflexivity|].
    left. apply py_index_err_iff. exact E.
Qed.

Lemma join_with_snoc (sep x y : pystr) (l : list pystr) :
  join_with sep (x :: l ++ [y]) = join_with sep (x :: l) ++ sep ++ y.
Proof.
  revert x. induction l as [|z l IH]; intros x; [reflexivity|].
  cbn [app]. change (join_with sep (x :: z :: l ++ [y])) with (x ++ sep ++ join_with sep (z :: l ++ [y])).
  rewrite IH. change (join_with sep (x :: z :: l)) with (x ++ sep ++ join_with sep (z :: l)).
  rewrite <- !(assoc_L (++)). reflexivity.
Qed.

Lemma fold_seg_add (s0 : SrtSegment) (ss : list SrtSegment) :
  let m := fold_left seg_add ss s0 in
  let l := List.last ss s0 in
  src_lang m = src_lang s0 /\ tgt_lang m = tgt_lang s0 /\
  start m = start s0 /\ start_ms m = start_ms s0 /\ start_time_str m = start_time_str s0 /\
  end_ m = end_ l /\ end_ms m = end_ms l /\ end_time_str m = end_time_str l /\
  source_text m = join_with (str " ") (map source_text (s0 :: ss)) /\
  translation m = join_with (str " ") (map translation (s0 :: ss)) /\
  duration m = (if bool_decide (ss = []) then duration s0
                else start_time_str s0 ++ str " --> " ++ end_time_str l).
Proof.
  revert s0. induction ss as [|s ss IH] using rev_ind; intros s0.
  - cbn. auto 20.
  - rewrite fold_left_app. cbn [fold_left]. rewrite List.last_last.
    destruct (IH s0) as (H1 & H2 & H3 & H4 & H5 & H6 & H7 & H8 & H9 & H10 & H11).
    set (m := fold_left seg_add ss s0) in *.
    unfold seg_add, merge_seg.
    cbn [src_lang tgt_lang start end_ start_ms end_ms start_time_str end_time_str source_text duration translation].
    rewrite bool_decide_false by (intros Hc; apply app_eq_nil in Hc as [_ Hc]; discriminate).
    split; [auto|]. split; [auto|]. split; [auto|]. split; [auto|]. split; [auto|].
    split; [auto|]. split; [auto|]. split; [auto|].
    cbn [map]. rewrite !map_app. cbn [map]. rewrite !join_with_snoc.
    rewrite H9, H10, H5. split; [reflexivity|]. split; reflexivity.
Qed.

Lemma map_res_py_index_ok (segs : list SrtSegment) (idx : list Z) (ss : list SrtSegment) :
  map_res (py_index segs) idx = Ok ss -> Forall (in_bounds segs) idx.
Proof.
  revert ss. induction idx as [|i idx IH]; intros ss; [constructor|cbn].
  destruct (py_index segs i) as [s|e] eqn:E; cbn [mbind result_bind]; [|discriminate].
  destruct (map_res _ idx) as [ss'|e] eqn:E2; cbn [mbind result_bind]; [|discriminate].
  intros _. constructor; [apply py_index_ok_iff; eauto|eauto].
Qed.

(** X3: When every index is in range, [merge_segs] returns a segment that
    starts where the first indexed segment starts, ends where the last one
    ends, joins the source texts and the translations with single spaces,
    and whose duration line is rebuilt from the first start string and the
    last end string (kept unchanged for a single index). *)
Theorem merge_segs_fields (segs : list SrtSegment) (i0 : Z) (rest : list Z)
    (s0 : SrtSegment) (ss : list SrtSegment) :
  py_index segs i0 = Ok s0 -> map_res (py_index segs) rest = Ok ss ->
  exists m, merge_segs segs (i0 :: rest) = Ok m /\
    src_lang m = src_lang s0 /\ tgt_lang m = tgt_lang s0 /\
    start m = start s0 /\ start_time_str m = start_time_str s0 /\
    end_ m = end_ (List.last ss s0) /\ end_time_str m = end_time_str (List.last ss s0) /\
    source_text m = join_with (str " ") (map source_text (s0 :: ss)) /\
    translation m = join_with (str " ") (map translation (s0 :: ss)) /\
    duration m = (if bool_decide (ss = []) then duration s0
                  else start_time_str s0 ++ str " --> " ++ end_time_str (List.last ss s0)).
Proof.
  intros H0 Hs. rewrite merge_segs_fold, H0. cbn [mbind result_bind]. rewrite Hs.
  cbn [mbind result_bind]. eexists. split; [reflexivity|].
  destruct (fold_seg_add s0 ss) as (H1 & H2 & H3 & H4 & H5 & H6 & H7 & H8 & H9 & H10 & H11).
  auto 10.
Qed.

Lemma merge_segs_fields_witness :
  py_index [vs_segment; comma_led_segment] 0 = Ok vs_segment /\
  map_res (py_index [vs_segment; comma_led_segment]) [1] = Ok [comma_led_segment] /\
  exists m, merge_segs [vs_segment; comma_led_segment] [0; 1] = Ok m /\
    start m = start vs_segment /\ end_ m = end_ comma_led_segment /\
    source_text m = source_text vs_segment ++ str " " ++ source_text comma_led_segment /\
    duration m = start_time_str vs_segment ++ str " --> " ++ end_time_str comma_led_segment.
Proof.
  assert (H1 : py_index [vs_segment; comma_led_segment] 0 = Ok vs_segment) by reflexivity.
  assert (H2 : map_res (py_index [vs_segment; comma_led_segment]) [1] = Ok [comma_led_segment])
    by reflexivity.
  split; [exact H1|]. split; [exact H2|].
  destruct (merge_segs_fields _ _ _ _ _ H1 H2)
    as (m & Hm & _ & _ & Hs & _ & He & _ & Hsrc & _ & Hd).
  exists m. split; [exact Hm|]. split; [exact Hs|]. split; [exact He|].
  split; [exact Hsrc|]. rewrite Hd. reflexivity.
Defined.

(** X4: [merge_segs] raises [IndexError] exactly when some index of the
    list is out of the Python range of the segment list. *)
Theorem merge_segs_index_error (segs : list SrtSegment) (idx : list Z) :
  merge_segs segs idx = Err IndexError <-> Exists (λ i, ~ in_bounds segs i) idx.
Proof.
  destruct idx as [|i0 rest].
  - cbn. split; [discriminate|]. intros H. inversion H.
  - rewrite merge_segs_fold. split.
    + destruct (py_index segs i0) as [s0|e] eqn:E; cbn [mbind result_bind].
      * destruct (map_res _ rest) as [ss|e] eqn:E2; cbn [mbind result_bind]; [discriminate|].
        intros [= ->]. right. apply (map_res_py_index_err segs rest IndexError E2).
      * intros [= ->]. left. apply py_index_err_iff. exact E.
    + intros Hex. destruct (py_index segs i0) as [s0|e] eqn:E; cbn [mbind result_bind].
      * destruct (map_res _ rest) as [ss|e] eqn:E2; cbn [mbind result_bind].
        -- exfalso. apply map_res_py_index_ok in E2.
           assert (Hb0 : in_bounds segs i0) by (apply py_index_ok_iff; eauto).
           apply Exists_cons in Hex as [Hex|Hex]; [tauto|].
           apply Exists_exists in Hex as [i [Hi Hn]]. rewrite Forall_forall in E2.
           exact (Hn (E2 i Hi)).
        -- f_equal. exact (proj1 (map_res_py_index_err _ _ _ E2)).
      * f_equal. exact (py_index_err _ _ _ E).
Qed.

Lemma scan_empty_err (ends : list Z) (segs : list SrtSegment) :
  forall (i : Z) ml sent, Exists (λ s, source_text s = []) segs ->
  scan ends i segs ml sent = Err IndexError.
Proof.
  induction segs as [|s rest IH]; intros i ml sent Hex; [inversion Hex|].
  cbn [scan]. apply Exists_cons in Hex as [He|Hex].
  - unfold trigger. rewrite He. reflexivity.
  - destruct (trigger ends s) as [[|]|e] eqn:Et; auto.
    unfold trigger in Et. destruct (py_index (source_text s) (-1)) eqn:E; cbn in Et; [discriminate|].
    injection Et as <-. f_equal. exact (py_index_err _ _ _ E).
Qed.

Lemma scan_groups_nonempty (ends : list Z) (segs : list SrtSegment) :
  forall (i : Z) ml sent ml' sent', Forall (λ g, g <> []) ml ->
  scan ends i segs ml sent = Ok (ml', sent') -> Forall (λ g, g <> []) ml'.
Proof.
  induction segs as [|s rest IH]; intros i ml sent ml' sent' Hml; cbn [scan].
  - intros [= <- _]. exact Hml.
  - destruct (trigger ends s) as [[|]|e]; [| |discriminate]; apply IH; auto.
    apply Forall_app. split; [exact Hml|]. constructor; [|constructor].
    intros Hc. apply app_eq_nil in Hc as [_ Hc]. discriminate.
Qed.

(** X5: [form_whole_sentence] raises [IndexError] exactly when some
    segment has an empty source text; otherwise it succeeds. *)
Theorem form_whole_sentence_outcome (src : lang) (segs : list SrtSegment) :
  (Exists (λ s, source_text s = []) segs /\ form_whole_sentence src segs = Err IndexError) \/
  (Forall (λ s, source_text s <> []) segs /\
   exists out, form_whole_sentence src segs = Ok out).
Proof.
  destruct (decide (Forall (λ s, source_text s <> []) segs)) as [Hall|Hnot].
  - right. split; [exact Hall|].
    destruct (scan_spec (sentence_end src) segs O [] [] Hall) as [ml' [sent' [Hscan [Hcat _]]]].
    unfold form_whole_sentence. change (Z.of_nat 0) with 0 in Hscan. rewrite Hscan. cbn [mbind result_bind].
    pose proof (scan_groups_nonempty _ _ _ _ _ _ _ (Forall_nil_2 _) Hscan) as Hne.
    assert (Hin : forall g, g ∈ ml' -> Forall (in_bounds segs) g).
    { intros g Hg. apply Forall_forall. intros j Hj.
      assert (Hc : j ∈ map Z.of_nat (seq 0 (length segs))).
      { cbn in Hcat. rewrite <- Hcat. apply elem_of_app. left. apply list_elem_of_In, in_concat.
        exists g. split; apply list_elem_of_In; assumption. }
      apply list_elem_of_In, in_map_iff in Hc as [k [<- Hk]]. apply in_seq in Hk.
      unfold in_bounds. lia. }
    clear Hcat Hscan. induction ml' as [|g ml' IH]; [eexists; reflexivity|].
    apply Forall_cons in Hne as [Hg Hne].
    destruct g as [|i0 rest]; [congruence|].
    assert (Hb : Forall (in_bounds segs) (i0 :: rest)) by (apply Hin; set_solver). apply Forall_cons in Hb as [Hb0 Hbr].
    apply py_index_ok_iff in Hb0 as [s0 Hs0].
    destruct (map_res_py_index segs rest Hbr) as [ss [Hss _]].
    destruct IH as [out Hout]; [exact Hne|intros g' Hg'; apply Hin; set_solver|].
    cbn [map_res]. rewrite merge_segs_fold, Hs0. cbn [mbind result_bind]. rewrite Hss.
    cbn [mbind result_bind]. rewrite Hout. eexists; reflexivity.
  - left. apply not_Forall_Exists in Hnot; [|intros x; apply _].
    assert (Hex : Exists (λ s, source_text s = []) segs).
    { eapply Exists_impl; [exact Hnot|]. intros x Hx. cbn in Hx.
      destruct (source_text x); [reflexivity|]. exfalso. apply Hx. discriminate. }
    split; [exact Hex|]. unfold form_whole_sentence. rewrite scan_empty_err by exact Hex.
    reflexivity.
Qed.

(** *** SrtScript.check_len_and_split *)

Lemma seg_of_record_times (src tgt : lang) (r : raw_record) (s : SrtSegment) :
  seg_of_record src tgt r = Ok s -> start s = r_start r /\ end_ s = r_end r /\ translation s = [].
Proof.
  unfold seg_of_record. intros H.
  repeat match type of H with
  | context [mbind _ ?m] =>
      lazymatch m with
      | mbind _ _ => fail
      | _ => destruct m; cbn [mbind result_bind] in H; [|discriminate H]
      end
  end.
  injection H as <-. auto.
Qed.

Lemma split_halves_times (src tgt : lang) (s s1 s2 : SrtSegment) :
  split_halves src tgt s = Ok (s1, s2) ->
  start s1 = start s /\ end_ s1 = start s2 /\ end_ s2 = end_ s /\
  exists t, strip_trans_comma tgt (translation s) = Ok t /\
    translation s1 ++ translation s2 = t.
Proof.
  unfold split_halves. cbn zeta. intros H.
  destruct (strip_trans_comma tgt (translation s)) as [t|e] eqn:Et;
    cbn [mbind result_bind] in H; [|discriminate H].
  destruct (split_ratio _ _) as [ratio|e]; cbn [mbind result_bind] in H; [|discriminate H].
  destruct (seg_of_record src tgt (mkRecord (start s) _ _)) as [a|e] eqn:Ea;
    cbn [mbind result_bind] in H; [|discriminate H].
  destruct (seg_of_record src tgt (mkRecord _ (end_ s) _)) as [b|e] eqn:Eb;
    cbn [mbind result_bind] in H; [|discriminate H].
  apply seg_of_record_times in Ea as (Ha1 & Ha2 & _). apply seg_of_record_times in Eb as (Hb1 & Hb2 & _).
  cbn in Ha1, Ha2, Hb1, Hb2.
  injection H as <- <-. cbn. split; [exact Ha1|]. split; [congruence|]. split; [exact Hb2|].
  exists t. split; [reflexivity|]. apply take_drop.
Qed.

Lemma guarded_split_tiles (src tgt : lang) (th : Z) (tt : Q) (s : SrtSegment) (l : list SrtSegment) :
  guarded_split src tgt th tt s (Ok l) -> tiles (start s) (end_ s) l.
Proof.
  intros H. remember (Ok l) as r eqn:Er. revert l Er.
  induction H as [s Hn|s e Hn Hh|s s1 s2 e Hn Hh H1 IH1|s s1 s2 l1 r2 Hn Hh H1 IH1 H2 IH2];
    intros l Er; try discriminate.
  - injection Er as <-. reflexivity.
  - destruct r2 as [l2|e2]; [|discriminate]. injection Er as <-.
    destruct (split_halves_times _ _ _ _ _ Hh) as (E1 & E2 & E3 & _).
    specialize (IH1 l1 eq_refl). specialize (IH2 l2 eq_refl). unfold tiles in *.
    rewrite !map_app, <- E3, <- (assoc_L (++)), IH2, <- E2.
    change (end_ s1 :: map end_ l2) with ([end_ s1] ++ map end_ l2).
    rewrite (assoc_L (++)), IH1, E1. reflexivity.
Qed.

Lemma strip_trans_comma_id (tgt : lang) (t t' : pystr) :
  no_trans_comma tgt t -> strip_trans_comma tgt t = Ok t' -> t' = t.
Proof.
  unfold strip_trans_comma. destruct t as [|c t]; [discriminate|].
  rewrite py_index_0. cbn [mbind result_bind]. intros Hn [= <-].
  apply Forall_cons in Hn as [Hc _]. unfold Zeqb_list.
  rewrite bool_decide_false by exact Hc. reflexivity.
Qed.

Lemma guarded_split_translation (src tgt : lang) (th : Z) (tt : Q) (s : SrtSegment) (l : list SrtSegment) :
  guarded_split src tgt th tt s (Ok l) -> no_trans_comma tgt (translation s) ->
  concat (map translation l) = translation s.
Proof.
  intros H. remember (Ok l) as r eqn:Er. revert l Er.
  induction H as [s Hn|s e Hn Hh|s s1 s2 e Hn Hh H1 IH1|s s1 s2 l1 r2 Hn Hh H1 IH1 H2 IH2];
    intros l Er Hc; try discriminate.
  - injection Er as <-. cbn. apply app_nil_r.
  - destruct r2 as [l2|e2]; [|discriminate]. injection Er as <-.
    destruct (split_halves_times _ _ _ _ _ Hh) as (_ & _ & _ & t & Ht & Htt).
    apply strip_trans_comma_id in Ht as ->; [|exact Hc].
    assert (Hc1 : no_trans_comma tgt (translation s1) /\ no_trans_comma tgt (translation s2)).
    { unfold no_trans_comma in *. rewrite <- Htt in Hc. apply Forall_app in Hc. exact Hc. }
    rewrite map_app, concat_app, (IH1 l1 eq_refl (proj1 Hc1)), (IH2 l2 eq_refl (proj2 Hc1)).
    exact Htt.
Qed.

(** X6: A successful [check_len_and_split] replaces each segment by pieces
    that tile its time interval (each piece starts where the previous one
    ends, from the segment's start to its end), and no piece of the result
    still needs a split. *)
Theorem check_len_and_split_tiles (src tgt : lang) (th : Z) (tt : Q)
    (segs out : list SrtSegment) :
  check_len_and_split src tgt th tt segs (Ok out) ->
  exists parts, out = concat parts /\
    Forall2 (λ s l, tiles (start s) (end_ s) l) segs parts /\
    Forall (λ x, needs_split th tt x = false) out.
Proof.
  intros H. remember (Ok out) as r eqn:Er. revert out Er.
  induction H as [|s rest e Hg|s rest l r Hg Hrest IH]; intros out Er; try discriminate.
  - injection Er as <-. exists []. auto.
  - destruct r as [l'|e]; [|discriminate]. injection Er as <-.
    destruct (IH l' eq_refl) as [parts [-> [Hf Hn]]].
    exists (l :: parts). split; [reflexivity|]. split.
    + constructor; [|exact Hf]. exact (guarded_split_tiles _ _ _ _ _ _ Hg).
    + apply Forall_app. split; [|exact Hn]. exact (guarded_split_leaves _ _ _ _ _ _ Hg).
Qed.

(** X7: When no translation contains a one-character target comma, a
    successful [check_len_and_split] keeps the concatenation of all
    translations unchanged. *)
Theorem check_len_and_split_translation (src tgt : lang) (th : Z) (tt : Q)
    (segs out : list SrtSegment) :
  check_len_and_split src tgt th tt segs (Ok out) ->
  Forall (λ s, no_trans_comma tgt (translation s)) segs ->
  concat (map translation out) = concat (map translation segs).
Proof.
  intros H. remember (Ok out) as r eqn:Er. revert out Er.
  induction H as [|s rest e Hg|s rest l r Hg Hrest IH]; intros out Er Hc; try discriminate.
  - injection Er as <-. reflexivity.
  - destruct r as [l'|e]; [|discriminate]. injection Er as <-.
    apply Forall_cons in Hc as [Hc Hcs].
    rewrite map_app, concat_app, (IH l' eq_refl Hcs), (guarded_split_translation _ _ _ _ _ _ Hg Hc).
    reflexivity.
Qed.

Lemma split_demo_once :
  needs_split 30 1 split_demo_segment = true /\
  match split_halves EN EN split_demo_segment with
  | Ok (s1, s2) => needs_split 30 1 s1 = false /\ needs_split 30 1 s2 = false
  | Err _ => False
  end.
Proof. vm_compute. auto. Qed.

Lemma split_demo_run :
  exists s1 s2, check_len_and_split EN EN 30 1 [split_demo_segment] (Ok [s1; s2]).
Proof.
  destruct split_demo_once as [Hn Hm].
  destruct (split_halves EN EN split_demo_segment) as [[s1 s2]|e] eqn:Hh; [|contradiction].
  destruct Hm as [H1 H2]. exists s1, s2.
  exact (cl_cons EN EN 30 1 split_demo_segment [] [s1; s2] (Ok [])
           (gs_both EN EN 30 1 split_demo_segment s1 s2 [s1] (Ok [s2]) Hn Hh
              (gs_keep EN EN 30 1 s1 H1) (gs_keep EN EN 30 1 s2 H2))
           (cl_nil EN EN 30 1)).
Qed.

Lemma check_len_and_split_tiles_witness :
  exists out, check_len_and_split EN EN 30 1 [split_demo_segment] (Ok out) /\
    length out = 2%nat /\
    exists parts, out = concat parts /\
      Forall2 (λ s l, tiles (start s) (end_ s) l) [split_demo_segment] parts /\
      Forall (λ x, needs_split 30 1 x = false) out.
Proof.
  destruct split_demo_run as [s1 [s2 H]]. exists [s1; s2].
  split; [exact H|]. split; [reflexivity|].
  exact (check_len_and_split_tiles EN EN 30 1 [split_demo_segment] [s1; s2] H).
Defined.

Lemma check_len_and_split_translation_witness :
  exists out, check_len_and_split EN EN 30 1 [split_demo_segment] (Ok out) /\
    length out = 2%nat /\
    concat (map translation out) = concat (map translation [split_demo_segment]).
Proof.
  destruct split_demo_run as [s1 [s2 H]]. exists [s1; s2].
  split; [exact H|]. split; [reflexivity|].
  apply (check_len_and_split_translation EN EN 30 1 [split_demo_segment] [s1; s2] H).
  repeat constructor; cbn; discriminate.
Defined.

(** *** Writing SRT text and reading it back *)

Lemma splitlines_go_line (cur x rest : pystr) :
  no_break x -> splitlines_go cur (x ++ 10 :: rest) = (cur ++ x) :: splitlines_go [] rest.
Proof.
  revert cur. induction x as [|c x IH]; intros cur Hx.
  - cbn. rewrite app_nil_r. reflexivity.
  - apply Forall_cons in Hx as [Hc Hx]. cbn [app splitlines_go].
    assert (H13 : (c =? 13) = false).
    { destruct (Z.eqb_spec c 13) as [->|]; [discriminate|reflexivity]. }
    rewrite H13, Hc, IH by exact Hx. rewrite <- (assoc_L (++)). reflexivity.
Qed.

Lemma splitlines_unlines (ls : list pystr) (rest : pystr) :
  Forall no_break ls -> splitlines (unlines ls ++ rest) = ls ++ splitlines rest.
Proof.
  induction 1 as [|l ls Hl _ IH]; [reflexivity|].
  unfold splitlines, unlines in *. cbn [map concat]. rewrite <- !(assoc_L (++)).
  cbn [app]. rewrite splitlines_go_line by exact Hl. rewrite IH. reflexivity.
Qed.

Lemma chunks_concat {A} (k : nat) (bs : list (list A)) (fuel : nat) :
  (0 < k)%nat -> Forall (λ b, length b = k) bs -> (length (concat bs) <= fuel)%nat ->
  chunks_go k fuel (concat bs) = bs.
Proof.
  intros Hk Hb. revert fuel. induction Hb as [|b bs Hb _ IH]; intros fuel Hf.
  - destruct fuel; reflexivity.
  - cbn [concat] in *. rewrite length_app in Hf.
    destruct fuel as [|f]; [lia|].
    destruct b as [|x b']; [cbn in Hb; lia|].
    change (chunks_go k (S f) ((x :: b') ++ concat bs))
      with (take k ((x :: b') ++ concat bs) :: chunks_go k f (drop k ((x :: b') ++ concat bs))).
    rewrite <- Hb at 1 3. rewrite take_app_length, drop_app_length. f_equal. apply IH. cbn in Hb, Hf. lia.
Qed.

Lemma reform_src_unlines (i : nat) (segs : list SrtSegment) :
  reform_go seg_str i segs = unlines (concat (imap (λ j s, src_block (i + j) s) segs)).
Proof.
  revert i. induction segs as [|s segs IH]; intros i; [reflexivity|].
  cbn [reform_go imap concat]. rewrite IH.
  rewrite (imap_ext (λ j s, src_block (i + S j) s) (λ j s, src_block (S i + j) s))
    by (intros j x _; f_equal; lia).
  unfold unlines. rewrite map_app, concat_app. f_equal.
  cbn. unfold seg_str. rewrite Nat.add_0_r. rewrite <- !(assoc_L (++)). reflexivity.
Qed.

Lemma reform_bilingual_unlines (i : nat) (segs : list SrtSegment) :
  reform_go get_bilingual_str i segs = unlines (concat (imap (λ j s, bilingual_block (i + j) s) segs)).
Proof.
  revert i. induction segs as [|s segs IH]; intros i; [reflexivity|].
  cbn [reform_go imap concat]. rewrite IH.
  rewrite (imap_ext (λ j s, bilingual_block (i + S j) s) (λ j s, bilingual_block (S i + j) s))
    by (intros j x _; f_equal; lia).
  unfold unlines. rewrite map_app, concat_app. f_equal.
  cbn. unfold get_bilingual_str. rewrite Nat.add_0_r. rewrite <- !(assoc_L (++)). reflexivity.
Qed.

Lemma fmt_d_no_break (n : Z) : 0 <= n -> no_break (fmt_d n).
Proof.
  intros Hn. unfold fmt_d. replace (n <? 0) with false by (symmetry; apply Z.ltb_ge; lia).
  eapply Forall_impl; [apply zdigits_go_digits; exact Hn|].
  intros c Hc. unfold is_digit in Hc. apply andb_true_iff in Hc as [H1 H2].
  apply Z.leb_le in H1. apply Z.leb_le in H2.
  unfold is_linebreak. repeat (apply orb_false_iff; split); try (apply Z.eqb_neq; lia);
    apply andb_false_iff; (left; apply Z.leb_gt; lia) || (right; apply Z.leb_gt; lia).
Qed.

Lemma imap_blocks_no_break (b : nat -> SrtSegment -> list pystr) (P : SrtSegment -> Prop)
    (segs : list SrtSegment) :
  (forall i s, P s -> Forall no_break (b i s)) -> Forall P segs ->
  Forall no_break (concat (imap b segs)).
Proof.
  intros Hb HP. revert b Hb. induction HP as [|s segs Hs _ IH]; intros b Hb; [constructor|].
  cbn [imap concat]. apply Forall_app. split; [apply Hb; exact Hs|].
  apply IH. intros i x Hx. apply Hb. exact Hx.
Qed.

Lemma imap_blocks_length (b : nat -> SrtSegment -> list pystr) (k : nat) (segs : list SrtSegment) :
  (forall i s, length (b i s) = k) -> Forall (λ x, length x = k) (imap b segs).
Proof.
  intros Hb. apply Forall_forall. intros x Hx.
  apply list_elem_of_lookup in Hx as [j Hj].
  rewrite list_lookup_imap in Hj. destruct (segs !! j); [|discriminate].
  injection Hj as <-. apply Hb.
Qed.

Lemma splitlines_reform_src (segs : list SrtSegment) :
  Forall lines_ok segs -> splitlines (reform_src_str segs) = concat (imap src_block segs).
Proof.
  intros H. unfold reform_src_str. rewrite reform_src_unlines.
  rewrite <- (app_nil_r (unlines _)), splitlines_unlines.
  2:{ apply (imap_blocks_no_break _ lines_ok); [|exact H].
      intros i s [Hd Hs]. cbn. repeat constructor; auto. apply fmt_d_no_break. lia. }
  change (splitlines []) with (@nil pystr). rewrite app_nil_r.
  reflexivity.
Qed.

Lemma bind_ok_inv {A B} (m : result A) (f : A -> result B) (b : B) :
  (m ≫= f) = Ok b -> exists a, m = Ok a /\ f a = Ok b.
Proof. destruct m as [a|e]; cbn; [eauto|discriminate]. Qed.

Ltac bind_ok H :=
  repeat (let a := fresh "a" in let Ha := fresh "Ha" in let H' := fresh "H" in
          destruct (bind_ok_inv _ _ _ H) as (a & Ha & H'); clear H; rename H' into H;
          cbn beta in H).

Lemma py_index_lookup {A} (l : list A) (i : Z) (x : A) :
  0 <= i -> py_index l i = Ok x -> l !! Z.to_nat i = Some x.
Proof.
  intros Hi. unfold py_index. replace (i <? 0) with false by (symmetry; apply Z.ltb_ge; lia).
  replace (i <? 0) with false by (symmetry; apply Z.ltb_ge; lia).
  destruct (l !! _); congruence.
Qed.

Lemma seg_of_block_fields (src tgt : lang) (block : list pystr) (t : SrtSegment) :
  seg_of_block src tgt block = Ok t ->
  block !! 1%nat = Some (duration t) /\ block !! 2%nat = Some (source_text t) /\
  translation t = (if (length block <? 5)%nat then [] else default [] (block !! 3%nat)).
Proof.
  intros H. unfold seg_of_block in H. bind_ok H. injection H as <-. cbn [duration source_text translation].
  apply py_index_lookup in Ha, Ha0; [|lia..]. split; [exact Ha0|]. split; [exact Ha|].
  destruct (length block <? 5)%nat; [congruence|].
  apply py_index_lookup in Ha13; [|lia]. exact (eq_sym (f_equal (default []) Ha13)).
Qed.

Lemma py_index_3 {A} (a b c d : A) (l : list A) : py_index (a :: b :: c :: d :: l) 3 = Ok d.
Proof. reflexivity. Qed.

Lemma map_res_blocks (src tgt : lang) (g : SrtSegment -> pystr)
    (b : nat -> SrtSegment -> list pystr) (segs out : list SrtSegment) :
  (forall i s t, seg_of_block src tgt (b i s) = Ok t ->
     source_text t = source_text s /\ duration t = duration s /\ translation t = g s) ->
  map_res (seg_of_block src tgt) (imap b segs) = Ok out ->
  map source_text out = map source_text segs /\ map duration out = map duration segs /\
  map translation out = map g segs.
Proof.
  revert b out. induction segs as [|s segs IH]; intros b out Hb Hm.
  - cbn in Hm. injection Hm as <-. auto.
  - cbn [imap map_res] in Hm. bind_ok Hm. injection Hm as <-.
    destruct (Hb _ _ _ Ha) as (H1 & H2 & H3).
    destruct (IH (λ j, b (S j)) a0 (λ i, Hb (S i)) Ha0) as (H4 & H5 & H6).
    cbn [map]. rewrite H1, H2, H3, H4, H5, H6. auto.
Qed.

Lemma parse_reform_src_blocks (segs : list SrtSegment) :
  segs <> [] -> Forall lines_ok segs ->
  parse_srt_blocks (reform_src_str segs) = Ok (imap src_block segs).
Proof.
  intros Hne Hok.
  unfold parse_srt_blocks. rewrite splitlines_reform_src by exact Hok.
  destruct segs as [|s rest]; [congruence|].
  assert (Hchunks : py_chunks 4 (concat (imap src_block (s :: rest))) = imap src_block (s :: rest)).
  { unfold py_chunks. apply chunks_concat; [lia| |lia].
    apply imap_blocks_length. reflexivity. }
  cbn [imap concat] in Hchunks |- *.
  change (src_block 0 s) with [fmt_d 1; duration s; source_text s; []] in Hchunks |- *.
  cbn [app] in Hchunks |- *.
  rewrite py_index_2.
  destruct (bool_decide (source_text s <> [])).
  - rewrite py_index_3. rewrite bool_decide_false by congruence. rewrite Hchunks. reflexivity.
  - rewrite Hchunks. reflexivity.
Qed.

(** X8: For a non-empty list of segments whose duration and source lines
    have no line break, [parse_srt_blocks] reads the text of
    [reform_src_str] back as one four-line block per segment, and parsing
    it back gives segments with the same source texts, the same duration
    lines and empty translations. *)
Theorem srt_src_roundtrip (src tgt : lang) (segs : list SrtSegment) :
  segs <> [] -> Forall lines_ok segs ->
  parse_srt_blocks (reform_src_str segs) = Ok (imap src_block segs) /\
  forall out, parse_from_srt_str src tgt (reform_src_str segs) = Ok out ->
    map source_text out = map source_text segs /\ map duration out = map duration segs /\
    Forall (λ t, translation t = []) out.
Proof.
  intros Hne Hok.
  pose proof (parse_reform_src_blocks segs Hne Hok) as Hblocks.
  split; [exact Hblocks|]. intros out Hout.
  unfold parse_from_srt_str in Hout. rewrite Hblocks in Hout. cbn [mbind result_bind] in Hout.
  destruct (map_res_blocks src tgt (λ _, []) src_block segs out) as (H1 & H2 & H3); [|exact Hout|].
  - intros i s t Ht. apply seg_of_block_fields in Ht as (Hd & Hs & Htr).
    cbn in Hd, Hs, Htr. injection Hd as <-. injection Hs as <-. auto.
  - split; [exact H1|]. split; [exact H2|].
    apply Forall_forall. intros t Ht.
    assert (Hm : translation t ∈ map translation out) by (apply list_elem_of_fmap_2; exact Ht).
    rewrite H3 in Hm. apply list_elem_of_fmap in Hm as [x [-> _]]. reflexivity.
Qed.

Lemma srt_src_roundtrip_witness :
  [vs_segment] <> [] /\ Forall lines_ok [vs_segment] /\
  parse_srt_blocks (reform_src_str [vs_segment]) = Ok (imap src_block [vs_segment]) /\
  forall out, parse_from_srt_str EN EN (reform_src_str [vs_segment]) = Ok out ->
    map source_text out = map source_text [vs_segment] /\
    map duration out = map duration [vs_segment] /\
    Forall (λ t, translation t = []) out.
Proof.
  assert (H1 : [vs_segment] <> []) by discriminate.
  assert (H2 : Forall lines_ok [vs_segment]).
  { constructor; [|constructor]. unfold lines_ok, no_break.
    vm_compute. split; repeat constructor. }
  split; [exact H1|]. split; [exact H2|].
  exact (srt_src_roundtrip EN EN [vs_segment] H1 H2).
Defined.

Lemma splitlines_form_bilingual (segs : list SrtSegment) :
  Forall bilingual_lines_ok segs ->
  splitlines (form_bilingual_str segs) = concat (imap bilingual_block segs).
Proof.
  intros H. unfold form_bilingual_str. rewrite reform_bilingual_unlines.
  rewrite <- (app_nil_r (unlines _)), splitlines_unlines.
  2:{ apply (imap_blocks_no_break _ bilingual_lines_ok); [|exact H].
      intros i s [[Hd Hs] Ht]. cbn. repeat constructor; auto. apply fmt_d_no_break. lia. }
  change (splitlines []) with (@nil pystr). rewrite app_nil_r.
  reflexivity.
Qed.

(** X9: For segments whose duration, source and translation lines have no
    line break, and whose first segment has a non-empty source and
    translation, the text of [form_bilingual_str] is read back as five-
    line blocks, and parsing it keeps the source texts, duration lines and
    translations. *)
Theorem srt_bilingual_roundtrip (src tgt : lang) (segs : list SrtSegment) (s0 : SrtSegment) :
  head segs = Some s0 -> source_text s0 <> [] -> translation s0 <> [] ->
  Forall bilingual_lines_ok segs ->
  parse_srt_blocks (form_bilingual_str segs) = Ok (imap bilingual_block segs) /\
  forall out, parse_from_srt_str src tgt (form_bilingual_str segs) = Ok out ->
    map source_text out = map source_text segs /\ map duration out = map duration segs /\
    map translation out = map translation segs.
Proof.
  intros Hhd Hs0 Ht0 Hok.
  assert (Hblocks : parse_srt_blocks (form_bilingual_str segs) = Ok (imap bilingual_block segs)).
  { unfold parse_srt_blocks. rewrite splitlines_form_bilingual by exact Hok.
    destruct segs as [|s rest]; [discriminate|]. injection Hhd as ->.
    assert (Hchunks : py_chunks 5 (concat (imap bilingual_block (s0 :: rest))) =
                      imap bilingual_block (s0 :: rest)).
    { unfold py_chunks. apply chunks_concat; [lia| |lia].
      apply imap_blocks_length. reflexivity. }
    cbn [imap concat] in Hchunks |- *.
    change (bilingual_block 0 s0)
      with [fmt_d 1; duration s0; source_text s0; translation s0; []] in Hchunks |- *.
    cbn [app] in Hchunks |- *.
    rewrite py_index_2, bool_decide_true by exact Hs0.
    rewrite py_index_3, bool_decide_true by exact Ht0.
    rewrite Hchunks. reflexivity. }
  split; [exact Hblocks|]. intros out Hout.
  unfold parse_from_srt_str in Hout. rewrite Hblocks in Hout. cbn [mbind result_bind] in Hout.
  apply (map_res_blocks src tgt translation bilingual_block segs out); [|exact Hout].
  intros i s t Ht. apply seg_of_block_fields in Ht as (Hd & Hs & Htr).
  cbn in Hd, Hs, Htr. injection Hd as <-. injection Hs as <-. auto.
Qed.

Lemma srt_bilingual_roundtrip_witness :
  head [comma_led_segment] = Some comma_led_segment /\
  source_text comma_led_segment <> [] /\ translation comma_led_segment <> [] /\
  Forall bilingual_lines_ok [comma_led_segment] /\
  parse_srt_blocks (form_bilingual_str [comma_led_segment])
    = Ok (imap bilingual_block [comma_led_segment]) /\
  forall out, parse_from_srt_str EN EN (form_bilingual_str [comma_led_segment]) = Ok out ->
    map source_text out = map source_text [comma_led_segment] /\
    map duration out = map duration [comma_led_segment] /\
    map translation out = map translation [comma_led_segment].
Proof.
  assert (H1 : head [comma_led_segment] = Some comma_led_segment) by reflexivity.
  assert (H2 : source_text comma_led_segment <> []) by (vm_compute; discriminate).
  assert (H3 : translation comma_led_segment <> []) by (vm_compute; discriminate).
  assert (H4 : Forall bilingual_lines_ok [comma_led_segment]).
  { constructor; [|constructor]. unfold bilingual_lines_ok, lines_ok, no_break.
    vm_compute. repeat split; repeat constructor. }
  split; [exact H1|]. split; [exact H2|]. split; [exact H3|]. split; [exact H4|].
  exact (srt_bilingual_roundtrip EN EN [comma_led_segment] comma_led_segment H1 H2 H3 H4).
Defined.

Lemma seg_of_block_4 (src tgt : lang) (a b c : pystr) :
  seg_of_block src tgt [a; b; c; []] = seg_of_block src tgt [a; b; c].
Proof. unfold seg_of_block. rewrite !py_index_2, !py_index_1. reflexivity. Qed.

Lemma records_blocks (src tgt : lang) (rs : list raw_record) :
  Forall record_ok rs -> forall i,
  exists segs out, script_of_records src tgt rs = Ok segs /\ Forall lines_ok segs /\
    length segs = length rs /\
    map_res (seg_of_block src tgt) (imap (λ j s, src_block (i + j) s) segs) = Ok out /\
    Forall2 parsed_close rs out.
Proof.
  induction 1 as [|r rs Hr _ IH]; intros i.
  - exists [], []. repeat split; constructor.
  - destruct Hr as ((a & b & Ha & Hb & Hda & Hdb & H0 & Hlt & H1) & Hnn & Hbr).
    destruct (record_roundtrip src tgt r a b Ha Hb Hda Hdb H0 ltac:(lra) ltac:(lra) H1 Hnn)
      as (s & Hs & Hd & Htext & Hblk).
    destruct (IH (S i)) as (segs & out & Hsegs & Hok & Hlen & Hout & Hclose).
    destruct (Hblk (fmt_d (Z.of_nat (i + 0) + 1)) (source_text s)) as (t & Ht & Hst & Hen).
    exists (s :: segs), (t :: out).
    split; [unfold script_of_records in *; cbn; rewrite Hs; cbn; rewrite Hsegs; reflexivity|].
    split; [constructor; [split; [exact Hd|rewrite Htext; exact Hbr]|exact Hok]|].
    split; [cbn; congruence|].
    split.
    + cbn [imap map_res].
      change (src_block (i + 0) s) with [fmt_d (Z.of_nat (i + 0) + 1); duration s; source_text s; []].
      rewrite seg_of_block_4, Ht. cbn [mbind result_bind].
      rewrite (imap_ext _ (λ j s, src_block (S i + j) s)) by (intros j x _; cbn; f_equal; lia).
      rewrite Hout. reflexivity.
    + constructor; [|exact Hclose].
      split; [exact Hst|]. split; [exact Hen|].
      apply seg_of_block_fields in Ht as (_ & Hsrc & Htr). cbn in Hsrc, Htr.
      injection Hsrc as <-. split; [exact Htext|exact Htr].
Qed.

(** X10: A non-empty list of ASR records whose times are doubles in
    [0, 86400), increasing within each record, with no end nudge and no
    line break in the text, builds a script whose [reform_src_str] text
    parses back to segments whose times lie less than 1 ns above and at
    most 1 ms and 1 ns below the records' times, whose source texts are the
    left-stripped record texts and whose translations are empty. *)
Theorem asr_srt_roundtrip (src tgt : lang) (rs : list raw_record) :
  rs <> [] -> Forall record_ok rs ->
  exists segs out, script_of_records src tgt rs = Ok segs /\
    parse_from_srt_str src tgt (reform_src_str segs) = Ok out /\
    Forall2 parsed_close rs out.
Proof.
  intros Hne Hok.
  destruct (records_blocks src tgt rs Hok O) as (segs & out & Hsegs & Hl & Hlen & Hout & Hclose).
  exists segs, out. split; [exact Hsegs|]. split; [|exact Hclose].
  unfold parse_from_srt_str. rewrite parse_reform_src_blocks; [exact Hout| |exact Hl].
  intros ->. cbn in Hlen. destruct rs; [congruence|discriminate].
Qed.

Lemma asr_srt_roundtrip_witness :
  [rec_en (5#4) (29787#8) "hi"] <> [] /\ Forall record_ok [rec_en (5#4) (29787#8) "hi"] /\
  exists segs out, script_of_records EN EN [rec_en (5#4) (29787#8) "hi"] = Ok segs /\
    parse_from_srt_str EN EN (reform_src_str segs) = Ok out /\
    Forall2 parsed_close [rec_en (5#4) (29787#8) "hi"] out.
Proof.
  assert (H1 : [rec_en (5#4) (29787#8) "hi"] <> []) by discriminate.
  assert (H2 : Forall record_ok [rec_en (5#4) (29787#8) "hi"]).
  { constructor; [|constructor]. unfold record_ok.
    split; [exists (5#4), (29787#8); repeat split; vm_compute; (reflexivity || discriminate)|].
    split.
    - intros [H _]. vm_compute in H. discriminate.
    - unfold no_break. vm_compute. repeat constructor. }
  split; [exact H1|]. split; [exact H2|].
  exact (asr_srt_roundtrip EN EN _ H1 H2).
Defined.

Lemma chunks_go_spec {A} (k : nat) (fuel : nat) (l : list A) :
  (0 < k)%nat -> (length l <= fuel)%nat ->
  concat (chunks_go k fuel l) = l /\
  Forall (λ b, b <> [] /\ (length b <= k)%nat) (chunks_go k fuel l) /\
  Forall (λ b, length b = k) (removelast (chunks_go k fuel l)).
Proof.
  intros Hk. revert l. induction fuel as [|f IH]; intros l Hl.
  - destruct l; [|cbn in Hl; lia]. repeat constructor.
  - destruct l as [|x l']; [repeat constructor|].
    change (chunks_go k (S f) (x :: l')) with (take k (x :: l') :: chunks_go k f (drop k (x :: l'))).
    destruct (IH (drop k (x :: l'))) as (H1 & H2 & H3); [rewrite length_drop; cbn in Hl |- *; lia|].
    split; [cbn [concat]; rewrite H1; apply take_drop|].
    split.
    + constructor; [|exact H2]. split.
      * destruct k; [lia|]. discriminate.
      * rewrite length_take. lia.
    + destruct (chunks_go k f (drop k (x :: l'))) as [|c cs] eqn:E.
      * constructor.
      * cbn [removelast]. constructor; [|exact H3].
        rewrite length_take. cbn [length].
        assert (Hd : drop k (x :: l') <> []) by (intros Hd; rewrite Hd in E; destruct f; discriminate).
        destruct (decide (k <= S (length l'))%nat) as [Hle|Hgt]; [lia|].
        exfalso. apply Hd. apply drop_ge. cbn. lia.
Qed.

(** X11: [parse_srt_blocks] fails exactly when the text has fewer than
    three lines, or exactly three lines with a non-empty third line, and
    the error is then [IndexError]. *)
Theorem parse_srt_blocks_error (s : pystr) (e : exn) :
  parse_srt_blocks s = Err e <->
  e = IndexError /\
  ((length (splitlines s) < 3)%nat \/
   (length (splitlines s) = 3%nat /\ exists l, splitlines s !! 2%nat = Some l /\ l <> [])).
Proof.
  unfold parse_srt_blocks. set (ls := splitlines s). clearbody ls.
  destruct ls as [|a [|b [|c [|d ls]]]]; cbn [length].
  - split; [intros [= <-]; split; [reflexivity|left; lia]|intros [-> _]; reflexivity].
  - split; [intros [= <-]; split; [reflexivity|left; lia]|intros [-> _]; reflexivity].
  - split; [intros [= <-]; split; [reflexivity|left; lia]|intros [-> _]; reflexivity].
  - rewrite py_index_2. destruct (bool_decide (c <> [])) eqn:E.
    + apply bool_decide_eq_true in E. cbn.
      split; [intros [= <-]; split; [reflexivity|right; split; [reflexivity|eauto]]|intros [-> _]; reflexivity].
    + apply bool_decide_eq_false in E. split; [discriminate|].
      intros [_ [Hl|[_ [l [Hl Hne]]]]]; [lia|]. cbn in Hl. injection Hl as <-. contradiction.
  - rewrite py_index_2. split.
    + destruct (bool_decide (c <> [])); [rewrite py_index_3|]; discriminate.
    + intros [_ [Hl|[Hl _]]]; lia.
Qed.

(** X12: A successful [parse_srt_blocks] cuts the lines of the text, in
    order and without loss, into non-empty blocks of four lines
    (monolingual) or five lines (bilingual), only the last block being
    possibly shorter. *)
Theorem parse_srt_blocks_ok (s : pystr) (blocks : list (list pystr)) :
  parse_srt_blocks s = Ok blocks ->
  exists k, (k = 4%nat \/ k = 5%nat) /\
    concat blocks = splitlines s /\
    Forall (λ b, b <> [] /\ (length b <= k)%nat) blocks /\
    Forall (λ b, length b = k) (removelast blocks).
Proof.
  unfold parse_srt_blocks. intros H.
  destruct (py_index (splitlines s) 2) as [l2|e]; [|discriminate].
  assert (Hk : exists k, (k = 4%nat \/ k = 5%nat) /\ blocks = py_chunks k (splitlines s)).
  { destruct (bool_decide (l2 <> [])).
    - destruct (py_index (splitlines s) 3) as [l3|e]; [|discriminate].
      injection H as <-. destruct (bool_decide (l3 <> [])); eauto.
    - injection H as <-. eauto. }
  destruct Hk as [k [Hk ->]]. exists k. split; [exact Hk|].
  apply chunks_go_spec; [lia|lia].
Qed.

Lemma parse_srt_blocks_ok_witness :
  parse_srt_blocks (form_bilingual_str [comma_led_segment; comma_led_segment])
    = Ok (imap bilingual_block [comma_led_segment; comma_led_segment]) /\
  exists k, (k = 4%nat \/ k = 5%nat) /\
    concat (imap bilingual_block [comma_led_segment; comma_led_segment])
      = splitlines (form_bilingual_str [comma_led_segment; comma_led_segment]) /\
    Forall (λ b, b <> [] /\ (length b <= k)%nat)
      (imap bilingual_block [comma_led_segment; comma_led_segment]) /\
    Forall (λ b, length b = k)
      (removelast (imap bilingual_block [comma_led_segment; comma_led_segment])).
Proof.
  assert (H : parse_srt_blocks (form_bilingual_str [comma_led_segment; comma_led_segment])
    = Ok (imap bilingual_block [comma_led_segment; comma_led_segment])) by (vm_compute; reflexivity).
  split; [exact H|].
  exact (parse_srt_blocks_ok _ _ H).
Defined.

(** *** split_script *)

Lemma contiguous_prefix (a : Z) (l : list (Z * Z)) (r : Z * Z) :
  contiguous a (l ++ [r]) -> contiguous a l.
Proof.
  revert a. induction l as [|[x y] l IH]; intros a; cbn; [auto|].
  intros [Hx H]. split; [exact Hx|]. apply IH. exact H.
Qed.

Lemma contiguous_extend (a x y z : Z) (l : list (Z * Z)) :
  contiguous a (l ++ [(x, y)]) -> contiguous a ((l ++ [(x, y)]) ++ [(y + 1, z)]).
Proof.
  revert a. induction l as [|[u v] l IH]; intros a; cbn.
  - intros [Hx _]. auto.
  - intros [Hu H]. split; [exact Hu|]. apply IH. exact H.
Qed.

Lemma split_step_inv (k : Z) (p : nat) (st : split_state) (sentence : pystr) :
  split_inv p st -> split_inv (S p) (split_step k st sentence).
Proof.
  intros (He & Hl & Hc). unfold split_step.
  destruct (_ <=? k); unfold split_inv; cbn [sp_end sp_start script_arr range_arr].
  - split; [lia|]. split; [exact Hl|exact Hc].
  - split; [lia|]. split; [rewrite !length_app; cbn; lia|].
    intros y. apply contiguous_extend. apply Hc.
Qed.

Lemma split_fold_inv (k : Z) (l : list pystr) (p : nat) (st : split_state) :
  split_inv p st -> split_inv (p + length l) (fold_left (split_step k) l st).
Proof.
  revert p st. induction l as [|x l IH]; intros p st H; cbn [fold_left length].
  - rewrite Nat.add_0_r. exact H.
  - rewrite Nat.add_succ_r, <- Nat.add_succ_l. apply IH. apply split_step_inv. exact H.
Qed.

Lemma split_init_inv : split_inv 0 (mkSplit [] [] 1 0 []).
Proof. unfold split_inv. cbn. auto. Qed.

(** X13: [split_script] never fails its final assertion: it returns as
    many script chunks as line ranges, and the ranges are consecutive, the
    first starting at 1. *)
Theorem split_script_ranges (script_in : pystr) (chunk_size : Z) :
  exists arr ranges, split_script script_in chunk_size = Ok (arr, ranges) /\
    length arr = length ranges /\ contiguous 1 ranges.
Proof.
  unfold split_script.
  set (pieces := py_split script_in [10; 10]).
  pose proof (split_fold_inv chunk_size pieces 0 _ split_init_inv) as (He & Hl & Hc).
  set (st := fold_left _ _ _) in *. clearbody st.
  destruct (bool_decide (strip (script st) <> [])); cbn [fst snd].
  - rewrite !length_app, Hl, Nat.eqb_refl. do 2 eexists. split; [reflexivity|].
    split; [rewrite !length_app, Hl; reflexivity|apply Hc].
  - rewrite Hl, Nat.eqb_refl. do 2 eexists. split; [reflexivity|].
    split; [exact Hl|]. apply (contiguous_prefix _ _ (sp_start st, 0)). apply Hc.
Qed.

Lemma lstrip_exists (s : pystr) :
  Exists (λ c, py_isspace c = false) s -> Exists (λ c, py_isspace c = false) (lstrip s).
Proof.
  induction s as [|c s IH]; intros H; [inversion H|cbn].
  destruct (py_isspace c) eqn:E; [|exact H].
  apply IH. apply Exists_cons in H as [H|H]; [congruence|exact H].
Qed.

Lemma strip_nonblank (s : pystr) :
  Exists (λ c, py_isspace c = false) s -> strip s <> [].
Proof.
  intros H. unfold strip. intros Hr.
  apply (f_equal (@rev Z)) in Hr. rewrite rev_involutive in Hr. cbn in Hr.
  apply lstrip_exists in H. apply Exists_rev in H. apply lstrip_exists in H.
  rewrite Hr in H. inversion H.
Qed.

Lemma source_only_split (x : pystr) (cur : pystr) (segs : list SrtSegment) :
  Forall (λ c, c <> 10) x -> Forall (λ s, plain_text (source_text s)) segs ->
  split_go [10; 10] O cur (x ++ [10; 10; 10] ++ get_source_only segs) =
  (cur ++ x) :: map (λ s, 10 :: source_text s) segs ++ [[10]].
Proof.
  intros Hx Hs. revert x cur Hx. induction Hs as [|s segs [Hne Hno] _ IH]; intros x cur Hx.
  - rewrite split_go_nohd by exact Hx. cbn [get_source_only map concat].
    change [10; 10; 10] with ([10; 10] ++ [10]). rewrite app_nil_r, split_go_sep. reflexivity.
  - rewrite split_go_nohd by exact Hx.
    change ([10; 10; 10] ++ get_source_only (s :: segs))
      with ([10; 10] ++ 10 :: (source_text s ++ [10; 10; 10]) ++ get_source_only segs).
    rewrite split_go_sep. f_equal. cbn [map app].
    destruct (source_text s) as [|c t] eqn:Et; [congruence|].
    apply Forall_cons in Hno as [Hc Hno].
    cbn [app split_go starts_with]. rewrite Z.eqb_refl.
    replace (10 =? c) with false by (symmetry; apply Z.eqb_neq; congruence). cbn [andb].
    rewrite <- (app_assoc t), (IH t [10; c]) by exact Hno. reflexivity.
Qed.

Lemma split_step_script (k : Z) (st : split_state) (p : pystr) :
  exists x, script (split_step k st p) = x ++ p ++ [10; 10].
Proof.
  unfold split_step. destruct (_ <=? k); cbn [script].
  - exists (script st). reflexivity.
  - exists []. reflexivity.
Qed.

(** X14: On the text of [get_source_only] for segments with non-empty,
    newline-free sources, the last one holding a non-whitespace character,
    [split_script] returns consecutive ranges from 1 whose last range ends
    at the number of segments. *)
Theorem split_source_only_ranges (segs : list SrtSegment) (sl : SrtSegment) (chunk_size : Z) :
  last segs = Some sl -> Forall (λ s, plain_text (source_text s)) segs ->
  Exists (λ c, py_isspace c = false) (source_text sl) ->
  exists arr ranges, split_script (get_source_only segs) chunk_size = Ok (arr, ranges) /\
    length arr = length ranges /\ contiguous 1 ranges /\
    exists a, last ranges = Some (a, Z.of_nat (length segs)).
Proof.
  intros Hlast Hplain Hsp.
  destruct segs as [|s1 rest]; [discriminate|].
  apply Forall_cons in Hplain as Hp. destruct Hp as [[_ Hs1] Hrest].
  set (Q := source_text s1 :: map (λ s, 10 :: source_text s) rest).
  assert (Hpieces : py_split (get_source_only (s1 :: rest)) [10; 10] = Q ++ [[10]]).
  { unfold py_split.
    replace (get_source_only (s1 :: rest))
      with (source_text s1 ++ [10; 10; 10] ++ get_source_only rest)
      by (unfold get_source_only; cbn [map concat]; rewrite <- (assoc_L (++)); reflexivity).
    rewrite source_only_split by assumption. reflexivity. }
  assert (HQlen : length Q = length (s1 :: rest)) by (unfold Q; cbn; rewrite length_map; reflexivity).
  (* the piece of the last segment *)
  assert (HpQ : exists Q' pn, Q = Q' ++ [pn] /\ Exists (λ c, py_isspace c = false) pn).
  { destruct (decide (rest = [])) as [->|Hne].
    - cbn in Hlast. injection Hlast as <-. exists [], (source_text s1). auto.
    - destruct (exists_last Hne) as [rest' [s2 ->]].
      rewrite last_cons, last_app in Hlast. cbn in Hlast. injection Hlast as ->.
      exists (source_text s1 :: map (λ s, 10 :: source_text s) rest'), (10 :: source_text sl).
      split; [unfold Q; rewrite map_app; reflexivity|]. right. exact Hsp. }
  destruct HpQ as (Q' & pn & HQ & Hpn).
  unfold split_script. rewrite Hpieces, HQ, <- (assoc_L (++)), fold_left_app.
  pose proof (split_fold_inv chunk_size Q' 0 _ split_init_inv) as Hinv1.
  set (st1 := fold_left (split_step chunk_size) Q' _) in *. clearbody st1.
  cbn [fold_left app].
  pose proof (split_step_inv chunk_size _ _ pn Hinv1) as Hinv2.
  destruct (split_step_script chunk_size st1 pn) as [x Hx].
  set (st2 := split_step chunk_size st1 pn) in *. clearbody st2.
  cbn [Nat.add] in Hinv2.
  destruct Hinv2 as (He2 & Hl2 & Hc2).
  assert (Hn2 : sp_end st2 = Z.of_nat (length (s1 :: rest))).
  { rewrite He2, <- HQlen, HQ, length_app. cbn [length]. lia. }
  unfold split_step. destruct (Z.of_nat (length (script st2)) + Z.of_nat (length [10]) + 1 <=? chunk_size); cbn [script script_arr range_arr sp_start sp_end].
  - rewrite bool_decide_true.
    2:{ apply strip_nonblank. rewrite Hx. apply Exists_app. left. apply Exists_app. right.
        apply Exists_app. left. exact Hpn. }
    cbn [fst snd]. rewrite !length_app, Hl2, Nat.eqb_refl.
    do 2 eexists. split; [reflexivity|]. split; [rewrite !length_app, Hl2; reflexivity|].
    split; [apply Hc2|]. eexists. rewrite last_snoc. do 2 f_equal.
    rewrite <- HQlen, HQ, length_app. cbn [length]. lia.
  - rewrite bool_decide_false by (vm_compute; tauto).
    cbn [fst snd]. rewrite !length_app, Hl2, Nat.eqb_refl.
    do 2 eexists. split; [reflexivity|]. split; [rewrite !length_app, Hl2; reflexivity|].
    split; [apply Hc2|]. eexists. rewrite last_snoc, Hn2. reflexivity.
Qed.

Lemma split_source_only_ranges_witness :
  last [vs_segment; comma_led_segment] = Some comma_led_segment /\
  Forall (λ s, plain_text (source_text s)) [vs_segment; comma_led_segment] /\
  Exists (λ c, py_isspace c = false) (source_text comma_led_segment) /\
  exists arr ranges,
    split_script (get_source_only [vs_segment; comma_led_segment]) 20 = Ok (arr, ranges) /\
    length arr = length ranges /\ contiguous 1 ranges /\
    exists a, last ranges = Some (a, Z.of_nat (length [vs_segment; comma_led_segment])).
Proof.
  assert (H1 : last [vs_segment; comma_led_segment] = Some comma_led_segment) by reflexivity.
  assert (H2 : Forall (λ s, plain_text (source_text s)) [vs_segment; comma_led_segment]).
  { unfold plain_text. apply List.Forall_cons; [|apply List.Forall_cons; [|apply List.Forall_nil]];
      (split; [vm_compute; discriminate|]); vm_compute; repeat constructor; discriminate. }
  assert (H3 : Exists (λ c, py_isspace c = false) (source_text comma_led_segment)).
  { vm_compute. constructor. reflexivity. }
  split; [exact H1|]. split; [exact H2|]. split; [exact H3|].
  exact (split_source_only_ranges _ _ 20 H1 H2 H3).
Defined.

(** *** SrtScript.realtime_write_srt and realtime_bilingual_write_srt *)

Lemma realtime_go_reform (f : SrtSegment -> pystr) (r0 r1 len idx : Z) (segs : list SrtSegment) (i : nat) :
  1 <= idx ->
  let a := Z.to_nat (r0 - 1) in let b := Z.to_nat (r1 + len) in
  realtime_go f r0 r1 len idx i segs =
  reform_go f (Nat.max i a + Z.to_nat (idx - 1)) (take (b - Nat.max i a) (drop (a - i) segs)).
Proof.
  intros Hidx a b. revert i. induction segs as [|seg rest IH]; intros i.
  - cbn. rewrite drop_nil, take_nil. reflexivity.
  - cbn [realtime_go]. destruct (Z.ltb_spec (Z.of_nat i) (r0 - 1)) as [Hlt|Hge].
    + rewrite IH. replace (Nat.max (S i) a) with (Nat.max i a) by (unfold a; lia).
      replace (a - i)%nat with (S (a - S i)) by (unfold a; lia). reflexivity.
    + replace (Nat.max i a) with i by (unfold a; lia).
      replace (a - i)%nat with O by (unfold a; lia). rewrite drop_0.
      destruct (Z.leb_spec (r1 + len) (Z.of_nat i)) as [Hle|Hgt].
      * replace (b - i)%nat with O by (unfold b; lia). reflexivity.
      * rewrite IH. replace (Nat.max (S i) a) with (S i) by (unfold a; lia).
        replace (a - S i)%nat with O by (unfold a; lia). rewrite drop_0.
        replace (b - i)%nat with (S (b - S i)) by (unfold b; lia).
        cbn [take reform_go]. rewrite <- !(assoc_L (++)).
        replace (Z.of_nat (i + Z.to_nat (idx - 1)) + 1) with (Z.of_nat i + idx) by lia.
        reflexivity.
Qed.

(** X15: for [idx >= 1], [realtime_write_srt] and [realtime_bilingual_write_srt]
    append the segments [range[0]-1 .. range[1]+length-1] (clamped to the
    script), numbered from [range[0]-1+idx], in the format of the whole-file
    writers. *)
Theorem realtime_write_srt_slice (segs : list SrtSegment) (r0 r1 len idx : Z) :
  1 <= idx ->
  let a := Z.to_nat (r0 - 1) in let b := Z.to_nat (r1 + len) in
  realtime_write_srt segs r0 r1 len idx =
    reform_go get_trans_str (a + Z.to_nat (idx - 1)) (take (b - a) (drop a segs)) /\
  realtime_bilingual_write_srt segs r0 r1 len idx =
    reform_go get_bilingual_str (a + Z.to_nat (idx - 1)) (take (b - a) (drop a segs)).
Proof.
  intros Hidx a b. unfold realtime_write_srt, realtime_bilingual_write_srt.
  rewrite !realtime_go_reform by exact Hidx. rewrite Nat.sub_0_r. split; reflexivity.
Qed.

(** X16: over the range [(1, len(segments))] with [idx = 1] and [length >= 0],
    the realtime writers append exactly the text of the whole-file writers. *)
Theorem realtime_write_srt_all (segs : list SrtSegment) (len : Z) :
  0 <= len ->
  realtime_write_srt segs 1 (Z.of_nat (length segs)) len 1 = reform_trans_str segs /\
  realtime_bilingual_write_srt segs 1 (Z.of_nat (length segs)) len 1 = form_bilingual_str segs.
Proof.
  intros Hlen. unfold realtime_write_srt, realtime_bilingual_write_srt, reform_trans_str, form_bilingual_str.
  rewrite !realtime_go_reform by lia. change (Z.to_nat (1 - 1)) with O.
  rewrite Nat.sub_0_r, drop_0, take_ge by lia. split; reflexivity.
Qed.

(** *** SrtScript.check_len_and_split_range *)

Lemma guarded_split_keep (src tgt : lang) (th : Z) (tt : Q) (s : SrtSegment) (l : list SrtSegment) :
  guarded_split src tgt th tt s (Ok l) -> needs_split th tt s = false -> l = [s].
Proof.
  intros H Hn. inversion H; subst; congruence.
Qed.

Lemma split_range_loop_spec (src tgt : lang) (th : Z) (tt : Q) (segs out : list SrtSegment) (x : Z) :
  split_range_loop src tgt th tt segs (Ok (out, x)) ->
  check_len_and_split src tgt th tt segs (Ok out) /\
  Z.of_nat (length out) = Z.of_nat (length segs) + x.
Proof.
  remember (Ok (out, x)) as r eqn:Er. intros H. revert out x Er.
  induction H as [|s rest e Hs|s rest l r Hs Hrest IH]; intros out x Er.
  - injection Er as <- <-. split; [constructor|reflexivity].
  - discriminate.
  - destruct r as [[l' x']|e]; [|discriminate]. injection Er as <- <-.
    destruct (IH l' x' eq_refl) as [Hc Hlen].
    split; [exact (cl_cons src tgt th tt s rest l (Ok l') Hs Hc)|].
    rewrite length_app. cbn [length].
    destruct (needs_split th tt s) eqn:En.
    + lia.
    + rewrite (guarded_split_keep _ _ _ _ _ _ Hs En). cbn [length]. lia.
Qed.

Lemma slice_index_le (n : nat) (i : Z) : (slice_index n i <= n)%nat.
Proof. unfold slice_index. destruct (Z.ltb_spec i 0); lia. Qed.

(** X17: [check_len_and_split_range] replaces the slice
    [segments[start-1:end]] by the result of [check_len_and_split] on it,
    leaves the other segments in place, and returns the growth of the
    segment count as [extra_len]. *)
Theorem check_len_and_split_range_ok (src tgt : lang) (th : Z) (tt : Q)
    (segs : list SrtSegment) (start_seg_id end_seg_id : Z) (segs' : list SrtSegment) (extra_len : Z) :
  check_len_and_split_range src tgt th tt segs start_seg_id end_seg_id (Ok (segs', extra_len)) ->
  Z.of_nat (length segs') = Z.of_nat (length segs) + extra_len /\
  exists out, check_len_and_split src tgt th tt (py_slice segs (start_seg_id - 1) end_seg_id) (Ok out) /\
    let a := slice_index (length segs) (start_seg_id - 1) in
    let b := slice_index (length segs) end_seg_id in
    segs' = take a segs ++ out ++ drop (Nat.max a b) segs.
Proof.
  intros H. inversion H as [|l x Hl E]; subst.
  destruct (split_range_loop_spec _ _ _ _ _ _ _ Hl) as [Hc Hlen].
  split; [|exists l; split; [exact Hc|reflexivity]].
  unfold py_slice, py_slice_assign in *.
  pose proof (slice_index_le (length segs) (start_seg_id - 1)).
  pose proof (slice_index_le (length segs) end_seg_id).
  set (a := slice_index (length segs) (start_seg_id - 1)) in *.
  set (b := slice_index (length segs) end_seg_id) in *.
  rewrite length_take, length_drop in Hlen.
  rewrite !length_app, length_take, length_drop. lia.
Qed.

Lemma split_demo_guarded :
  exists s1 s2, needs_split 30 1 split_demo_segment = true /\
    guarded_split EN EN 30 1 split_demo_segment (Ok [s1; s2]).
Proof.
  destruct split_demo_once as [Hn Hm].
  destruct (split_halves EN EN split_demo_segment) as [[s1 s2]|e] eqn:Hh; [|contradiction].
  destruct Hm as [H1 H2]. exists s1, s2. split; [exact Hn|].
  exact (gs_both EN EN 30 1 split_demo_segment s1 s2 [s1] (Ok [s2]) Hn Hh
           (gs_keep EN EN 30 1 s1 H1) (gs_keep EN EN 30 1 s2 H2)).
Qed.

Lemma check_len_and_split_range_ok_witness :
  exists segs' extra_len,
    check_len_and_split_range EN EN 30 1 [split_demo_segment] 1 1 (Ok (segs', extra_len)) /\
    extra_len = 1 /\
    Z.of_nat (length segs') = Z.of_nat (length [split_demo_segment]) + extra_len.
Proof.
  destruct split_demo_guarded as (s1 & s2 & Hn & Hg).
  pose proof (sr_cons EN EN 30 1 split_demo_segment [] [s1; s2] (Ok ([], 0)) Hg
                (sr_nil EN EN 30 1)) as Hl.
  rewrite Hn in Hl. cbn [app length Z.of_nat] in Hl.
  change (Z.pos (Pos.of_succ_nat 1) - 1 + 0) with 1 in Hl.
  change [split_demo_segment] with (py_slice [split_demo_segment] (1 - 1) 1) in Hl.
  pose proof (clr_ok EN EN 30 1 [split_demo_segment] 1 1 [s1; s2] 1 Hl) as H.
  do 2 eexists. split; [exact H|]. split; [reflexivity|].
  exact (proj1 (check_len_and_split_range_ok EN EN 30 1 _ _ _ _ _ H)).
Defined.

(** *** SrtScript.extract_words *)

Lemma fold_app_concat {A B} (F : B -> list A) (l : list B) (acc : list A) :
  fold_left (λ r j, r ++ F j) l acc = acc ++ concat (map F l).
Proof.
  revert acc. induction l as [|b l IH]; intros acc; cbn.
  - rewrite app_nil_r. reflexivity.
  - rewrite IH, (assoc_L (++)). reflexivity.
Qed.

Lemma slice_window {A} (l : list A) (i j : Z) :
  0 <= i -> 0 <= j -> i + j <= Z.of_nat (length l) ->
  py_slice l i (i + j) = take (Z.to_nat j) (drop (Z.to_nat i) l).
Proof.
  intros Hi Hj Hle. unfold py_slice, slice_index.
  destruct (Z.ltb_spec i 0); [lia|]. destruct (Z.ltb_spec (i + j) 0); [lia|].
  rewrite !Z.min_l by lia. f_equal. lia.
Qed.

Lemma extract_words_step (words : list pystr) (j : Z) :
  1 <= j ->
  map (λ i, py_slice words i (i + j)) (py_range 0 (Z.of_nat (length words) - j + 1)) =
  windows (Z.to_nat j) words.
Proof.
  intros Hj. unfold py_range, windows. rewrite map_map.
  replace (Z.to_nat (Z.of_nat (length words) - j + 1 - 0)) with (length words + 1 - Z.to_nat j)%nat by lia.
  apply map_ext_in. intros k Hk. apply in_seq in Hk.
  rewrite slice_window by lia. replace (Z.to_nat (0 + Z.of_nat k)) with k by lia. reflexivity.
Qed.

Lemma extract_words_windows_eq (s : pystr) (n : Z) :
  extract_words s n =
  concat (map (λ j, windows (Z.to_nat j) (py_split_ws s)) (py_range_down n 0)).
Proof.
  unfold extract_words. rewrite fold_app_concat. cbn [app]. f_equal.
  apply map_ext_in. intros j Hj.
  unfold py_range_down in Hj. apply in_map_iff in Hj as (k & <- & Hk). apply in_seq in Hk.
  apply extract_words_step. lia.
Qed.

Lemma windows_spec {A} (j : nat) (l : list A) :
  Forall (λ c, length c = j /\ exists k1 k2, l = k1 ++ c ++ k2) (windows j l).
Proof.
  unfold windows. apply Forall_forall. intros c Hc.
  apply list_elem_of_In, in_map_iff in Hc as (i & <- & Hi). apply in_seq in Hi.
  split.
  - rewrite length_take, length_drop. lia.
  - exists (take i l), (drop j (drop i l)). rewrite take_drop, take_drop. reflexivity.
Qed.

(** X18: every candidate of [extract_words(sentence, n)] is a run of
    1 to [n] consecutive words of [sentence.split()]. *)
Theorem extract_words_windows (s : pystr) (n : Z) :
  Forall (λ c, (1 <= length c <= Z.to_nat n)%nat /\ exists k1 k2, py_split_ws s = k1 ++ c ++ k2) (extract_words s n).
Proof.
  rewrite extract_words_windows_eq. apply Forall_concat, Forall_forall.
  intros ws Hws. apply list_elem_of_In, in_map_iff in Hws as (j & <- & Hj).
  unfold py_range_down in Hj. apply in_map_iff in Hj as (k & <- & Hk). apply in_seq in Hk.
  eapply Forall_impl; [apply windows_spec|]. intros c [Hl Hi]. split; [lia|exact Hi].
Qed.

Lemma windows_cons {A} (j : nat) (x : A) (l : list A) :
  (j <= S (length l))%nat -> windows j (x :: l) = take j (x :: l) :: windows j l.
Proof.
  intros Hj. unfold windows. cbn [length].
  replace (S (length l) + 1 - j)%nat with (S (length l + 1 - j)) by lia.
  cbn [seq map]. rewrite drop_0. f_equal.
  rewrite <- seq_shift, map_map. reflexivity.
Qed.

Lemma windows_length {A} (j : nat) (l : list A) : length (windows j l) = (length l + 1 - j)%nat.
Proof. unfold windows. rewrite length_map, length_seq. reflexivity. Qed.

Lemma sum_seq_shift (c a N : nat) :
  (2 * list_sum (map (λ k, c + k) (seq a N)) + N = N * (2 * (c + a) + N))%nat.
Proof.
  revert a. induction N as [|N IH]; intros a; [reflexivity|].
  cbn [seq map]. change (list_sum ((c + a)%nat :: ?l)) with (c + a + list_sum l)%nat.
  specialize (IH (S a)). nia.
Qed.

(** X19: for [0 <= n <= w] with [w] words, [extract_words] returns
    [n * (2w + 1 - n) / 2] candidates. *)
Theorem extract_words_count (s : pystr) (n : Z) :
  0 <= n <= Z.of_nat (length (py_split_ws s)) ->
  2 * Z.of_nat (length (extract_words s n)) =
    n * (2 * Z.of_nat (length (py_split_ws s)) + 1 - n).
Proof.
  intros Hn. rewrite extract_words_windows_eq.
  set (W := py_split_ws s) in *. set (w := length W) in *.
  rewrite length_concat, map_map. unfold py_range_down. rewrite map_map.
  replace (Z.to_nat (n - 0)) with (Z.to_nat n) by lia.
  rewrite (map_ext_in _ (λ k, (w + 1 - Z.to_nat n) + k)%nat).
  2:{ intros k Hk. apply in_seq in Hk. cbn beta. rewrite windows_length. lia. }
  pose proof (sum_seq_shift (w + 1 - Z.to_nat n) 0 (Z.to_nat n)) as H.
  nia.
Qed.

Lemma windows_1 {A} (l : list A) : windows 1 l = map (λ x, [x]) l.
Proof.
  induction l as [|x l IH]; [reflexivity|].
  rewrite windows_cons by lia. rewrite IH. reflexivity.
Qed.

Lemma windows_2 {A} (l : list A) : windows 2 l = zip_with (λ a b, [a; b]) l (tail l).
Proof.
  induction l as [|x l IH]; [reflexivity|].
  destruct l as [|y l]; [reflexivity|].
  rewrite windows_cons by (cbn; lia). rewrite IH. reflexivity.
Qed.

(** X20: [extract_words(sentence, 2)] lists the adjacent word pairs
    left to right, then the single words. *)
Theorem extract_words_pairs (s : pystr) :
  extract_words s 2 =
    zip_with (λ a b, [a; b]) (py_split_ws s) (tail (py_split_ws s)) ++
    map (λ w, [w]) (py_split_ws s).
Proof.
  rewrite extract_words_windows_eq.
  change (py_range_down 2 0) with [2; 1]. cbn [map concat].
  change (Z.to_nat 2) with 2%nat. change (Z.to_nat 1) with 1%nat.
  rewrite windows_1, windows_2, app_nil_r. reflexivity.
Qed.

(** *** SrtScript.get_real_word *)

Lemma fold_words (wl : list pystr) (acc : pystr) :
  fold_left (λ word w, word ++ w ++ [32]) wl acc = acc ++ concat (map (λ w, w ++ [32]) wl).
Proof.
  revert acc. induction wl as [|w wl IH]; intros acc; cbn [fold_left map concat].
  - rewrite app_nil_r. reflexivity.
  - rewrite IH, <- !(assoc_L (++)). reflexivity.
Qed.

Lemma concat_words (w : pystr) (wl : list pystr) :
  concat (map (λ w, w ++ [32]) (w :: wl)) = join_with [32] (w :: wl) ++ [32].
Proof.
  revert w. induction wl as [|w' wl IH]; intros w; [cbn; rewrite app_nil_r; reflexivity|].
  change (concat (map (λ w, w ++ [32]) (w :: w' :: wl)))
    with ((w ++ [32]) ++ concat (map (λ w, w ++ [32]) (w' :: wl))).
  rewrite IH. change (join_with [32] (w :: w' :: wl)) with (w ++ [32] ++ join_with [32] (w' :: wl)).
  rewrite <- !(assoc_L (++)). reflexivity.
Qed.

Lemma slice_suffix {A} (l : list A) (k : nat) :
  (1 <= k)%nat -> py_slice l (- Z.of_nat k) (Z.of_nat (length l)) = drop (length l - k) l.
Proof.
  intros Hk. unfold py_slice, slice_index.
  destruct (Z.ltb_spec (- Z.of_nat k) 0); [|lia].
  destruct (Z.ltb_spec (Z.of_nat (length l)) 0); [lia|].
  replace (Z.to_nat (Z.max 0 (- Z.of_nat k + Z.of_nat (length l)))) with (length l - k)%nat by lia.
  rewrite take_ge; [reflexivity|]. rewrite length_drop. lia.
Qed.

Lemma slice_prefix {A} (l : list A) (k : nat) :
  (1 <= k)%nat -> py_slice l 0 (- Z.of_nat k) = take (length l - k) l.
Proof.
  intros Hk. unfold py_slice, slice_index.
  destruct (Z.ltb_spec (- Z.of_nat k) 0); [|lia]. cbn [Z.ltb Z.compare].
  replace (Z.to_nat (Z.max 0 (- Z.of_nat k + Z.of_nat (length l)))) with (length l - k)%nat by lia.
  replace (Z.to_nat (Z.min 0 (Z.of_nat (length l)))) with O by lia.
  rewrite drop_0, Nat.sub_0_r. reflexivity.
Qed.

Lemma joined_words (word_list : list pystr) :
  py_slice (concat (map (λ w, w ++ [32]) word_list)) 0 (-1) = join_with [32] word_list.
Proof.
  destruct word_list as [|w wl]; [reflexivity|].
  rewrite concat_words. change (-1) with (- Z.of_nat 1). rewrite slice_prefix by lia.
  rewrite length_app. cbn [length]. rewrite Nat.add_sub, take_app_length. reflexivity.
Qed.

(** X21: [get_real_word] joins the words with single spaces; the
    returned position splits that string into the part given (lower-cased)
    as the real word and a removed suffix that is empty, ".\n" or one of
    '.', '\n', ',', '!', '?'. *)
Theorem get_real_word_spec (lower : pystr -> pystr) (word_list : list pystr)
    (word real_word : pystr) (pos : Z) :
  get_real_word lower word_list = (word, real_word, pos) ->
  word = join_with [32] word_list /\
  0 <= pos <= Z.of_nat (length word) /\
  real_word = lower (take (Z.to_nat pos) word) /\
  drop (Z.to_nat pos) word ∈ [[]; [46; 10]; [46]; [10]; [44]; [33]; [63]].
Proof.
  intros E. unfold get_real_word in E. rewrite fold_words in E. cbn [app] in E.
  rewrite joined_words in E.
  assert (Hw : word = join_with [32] word_list) by (repeat case_bool_decide; congruence).
  split; [exact Hw|]. subst word.
  set (w := join_with [32] word_list) in *. clearbody w.
  change (-2) with (- Z.of_nat 2) in E. change (-1) with (- Z.of_nat 1) in E.
  rewrite !slice_suffix, !slice_prefix in E by lia. rename w into word.
  case_bool_decide as H2; [|case_bool_decide as H1].
  - injection E as <- <-.
    assert (Hl : length (drop (length word - 2) word) = 2%nat) by (rewrite H2; reflexivity).
    rewrite length_drop in Hl.
    replace (Z.to_nat (Z.of_nat (length word) + - Z.of_nat 2)) with (length word - 2)%nat by lia.
    split; [lia|]. split; [reflexivity|]. rewrite H2. set_solver.
  - injection E as <- <-.
    assert (Hl : length (drop (length word - 1) word) = 1%nat).
    { repeat (apply elem_of_cons in H1 as [->|H1]; [reflexivity|]). set_solver. }
    rewrite length_drop in Hl.
    replace (Z.to_nat (Z.of_nat (length word) + - Z.of_nat 1)) with (length word - 1)%nat by lia.
    split; [lia|]. split; [reflexivity|]. set_solver.
  - injection E as <- <-.
    replace (Z.to_nat (Z.of_nat (length word) + 0)) with (length word) by lia.
    rewrite take_ge, drop_ge by lia. split; [lia|]. split; [reflexivity|]. set_solver.
Qed.

Lemma realtime_write_srt_slice_witness :
  1 <= 1 /\
  realtime_write_srt [vs_segment; comma_led_segment] 2 2 0 1 =
    reform_go get_trans_str (1 + 0) (take (2 - 1) (drop 1 [vs_segment; comma_led_segment])) /\
  realtime_bilingual_write_srt [vs_segment; comma_led_segment] 2 2 0 1 =
    reform_go get_bilingual_str (1 + 0) (take (2 - 1) (drop 1 [vs_segment; comma_led_segment])).
Proof.
  split; [lia|]. exact (realtime_write_srt_slice [vs_segment; comma_led_segment] 2 2 0 1 ltac:(lia)).
Defined.

Lemma realtime_write_srt_all_witness :
  0 <= 0 /\
  realtime_write_srt [vs_segment; comma_led_segment] 1 2 0 1 =
    reform_trans_str [vs_segment; comma_led_segment] /\
  realtime_bilingual_write_srt [vs_segment; comma_led_segment] 1 2 0 1 =
    form_bilingual_str [vs_segment; comma_led_segment].
Proof.
  split; [lia|]. exact (realtime_write_srt_all [vs_segment; comma_led_segment] 0 ltac:(lia)).
Defined.

Lemma extract_words_count_witness :
  0 <= 2 <= Z.of_nat (length (py_split_ws (str "a b  c"))) /\
  2 * Z.of_nat (length (extract_words (str "a b  c") 2)) =
    2 * (2 * Z.of_nat (length (py_split_ws (str "a b  c"))) + 1 - 2).
Proof.
  assert (H : 0 <= 2 <= Z.of_nat (length (py_split_ws (str "a b  c")))) by (vm_compute; split; discriminate).
  split; [exact H|]. exact (extract_words_count (str "a b  c") 2 H).
Defined.

Lemma get_real_word_spec_witness :
  get_real_word id [str "hi"; str "there."] = (str "hi there.", str "hi there", 8) /\
  str "hi there." = join_with [32] [str "hi"; str "there."] /\
  0 <= 8 <= Z.of_nat (length (str "hi there.")) /\
  str "hi there" = id (take (Z.to_nat 8) (str "hi there.")) /\
  drop (Z.to_nat 8) (str "hi there.") ∈ [[]; [46; 10]; [46]; [10]; [44]; [33]; [63]].
Proof.
  assert (H : get_real_word id [str "hi"; str "there."] = (str "hi there.", str "hi there", 8))
    by (vm_compute; reflexivity).
  split; [exact H|]. exact (get_real_word_spec id [str "hi"; str "there."] _ _ _ H).
Defined.
